(** * retropad: encoding-aware file I/O and the find/replace engine

    A shallow embedding of the core of retropad (retropad.c, file_io.c,
    file_io.h) and the properties of its specification.

    Conventions of the embedding.
    - A byte and a 16-bit code unit (WCHAR) are integers of [Z]; a buffer is
      the list of its elements and its size is the length of that list.
      Sizes and offsets are natural numbers, as long as the C types that hold
      them (int, DWORD, and the size_t of 32 bits of the build) agree: a
      theorem about a result that depends on it states the bound (a length
      that an int holds, a buffer whose size in bytes size_t holds).
    - A NUL-terminated wide string is the list of the code units before the
      terminator; a pointer into a buffer is an offset ([nat]) into its list.
    - A possibly-NULL string pointer is an [option].
    - Win32 calls that can fail for reasons outside the program (HeapAlloc,
      CreateFileW, GetFileSizeEx, ReadFile, WriteFile) take their outcome
      from a script held in the [World]; the program state ([g_app], the edit
      control, the files) is threaded through the state monad [M].  HeapFree
      and CloseHandle leave the world as it is; window handles are left out,
      the one edit control being part of the world.
    - A loop whose cursor moves forward through a text is a fixpoint on a
      fuel that covers the text; the lemmas named [_fuel] show that the fuel
      never decides the result.
    - What the user and the edit control answer to a command is an argument
      of the function that asks: the answer to the question whether to save,
      the path chosen in the Open dialog, the selection, the number typed in
      the Go To dialog and the lines of the control.  (The path chosen in
      the Save dialog is part of the [World].) *)

From Stdlib Require Import ZArith Lia List Bool.
From stdpp Require Import base option list strings pretty gmap.

(** ** Data model (file_io.h, retropad.c) *)

Definition byte := Z.
Definition wchar := Z.

Definition sizeof_WCHAR : nat := 2.
Definition UINT_MAX : Z := 4294967295%Z.
Definition INT_MAX : Z := 2147483647%Z.
(** size_t has 32 bits: build.ps1 sets up the compiler for its default
    target, x86. *)
Definition SIZE_MAX : Z := 4294967295%Z.

(** typedef enum TextEncoding (file_io.h) *)
Inductive TextEncoding : Set :=
  | ENC_UTF8
  | ENC_UTF16LE
  | ENC_UTF16BE
  | ENC_ANSI.

Definition TextEncoding_value (e : TextEncoding) : Z :=
  match e with
  | ENC_UTF8 => 1%Z
  | ENC_UTF16LE => 2%Z
  | ENC_UTF16BE => 3%Z
  | ENC_ANSI => 4%Z
  end.

#[global] Instance TextEncoding_eq_dec : EqDecision TextEncoding.
Proof. solve_decision. Defined.

(** A wide string literal: the code units of an ASCII string. *)
Definition L (s : string) : list wchar :=
  map (fun c => Z.of_nat (Ascii.nat_of_ascii c)) (String.list_ascii_of_string s).

(** ** The platform *)

(** What the program takes from the language settings of the system: the
    lower-casing of CharLowerBuffW and the active code page (CP_ACP) of
    MultiByteToWideChar and WideCharToMultiByte.  The two laws are the part of
    CharLowerBuffW that no language setting changes. *)
Class Locale := {
  CharLowerW : wchar -> wchar;
  acp_to_wide : list byte -> list wchar;
  wide_to_acp : list wchar -> list byte;
  CharLowerW_upper : forall c, (65 <= c <= 90)%Z -> CharLowerW c = (c + 32)%Z;
  CharLowerW_other :
    forall c, (0 <= c < 128)%Z -> ~ (65 <= c <= 90)%Z -> CharLowerW c = c
}.

(** CharLowerBuffW(buf, n): lower-cases the first [n] code units in place. *)
Definition CharLowerBuffW `{Locale} (buf : list wchar) (n : nat) : list wchar :=
  map CharLowerW (take n buf) ++ drop n buf.

(** wcslen *)
Definition wcslen (s : list wchar) : nat := length s.

(** [starts_with needle s]: the string [s] begins with [needle]. *)
Fixpoint starts_with (needle s : list wchar) : bool :=
  match needle, s with
  | [], _ => true
  | _ :: _, [] => false
  | a :: needle', b :: s' => (a =? b)%Z && starts_with needle' s'
  end.

(** wcsstr(s, needle): the offset in [s] of the first occurrence of [needle],
    [None] for a NULL result.  An empty [needle] is found at offset 0. *)
Fixpoint wcsstr (s needle : list wchar) : option nat :=
  if starts_with needle s then Some 0
  else match s with
       | [] => None
       | _ :: s' => S <$> wcsstr s' needle
       end.

(** wcsstr(buf + p, needle) as an offset into [buf]. *)
Definition wcsstr_at (buf : list wchar) (p : nat) (needle : list wchar) : option nat :=
  (fun k => p + k) <$> wcsstr (drop p buf) needle.

(** ** The world and its monad *)

Inductive Event : Set :=
  | MessageBoxW (text : string)
  | Called (function : string).

Record World := mkWorld {
  edit_text : list wchar;          (* the text of g_app.hwndEdit *)
  edit_modify : bool;              (* its EM_SETMODIFY flag *)
  currentPath : string;            (* g_app.currentPath *)
  modified : bool;                 (* g_app.modified *)
  encoding : TextEncoding;         (* g_app.encoding *)
  files : gmap string (list byte); (* the files on disk *)
  heap_script : list bool;         (* outcome of the coming HeapAlloc calls *)
  io_script : list bool;           (* outcome of the coming file calls *)
  save_dialog : option string;     (* what the user answers to SaveFileDialog *)
  trace : list Event               (* message boxes shown, calls recorded *)
}.

Definition M (A : Type) : Type := World -> A * World.

Definition ret {A} (a : A) : M A := fun w => (a, w).

Definition bind {A B} (m : M A) (k : A -> M B) : M B :=
  fun w => let (a, w') := m w in k a w'.

Notation "x <- m ;; k" := (bind m (fun x => k))
  (at level 100, m at next level, right associativity).
Notation "m ;;; k" := (bind m (fun _ => k))
  (at level 100, right associativity).

(** The next outcome of a script: an exhausted script lets the call succeed. *)
Definition next_outcome (script : list bool) : bool * list bool :=
  match script with
  | [] => (true, [])
  | b :: rest => (b, rest)
  end.

(** HeapAlloc(GetProcessHeap(), 0, bytes): [true] for a non-NULL result. *)
Definition HeapAlloc (bytes : Z) : M bool := fun w =>
  let (ok, rest) := next_outcome (heap_script w) in
  (ok, mkWorld (edit_text w) (edit_modify w) (currentPath w) (modified w)
         (encoding w) (files w) rest (io_script w) (save_dialog w) (trace w)).

Definition record (e : Event) : M unit := fun w =>
  (tt, mkWorld (edit_text w) (edit_modify w) (currentPath w) (modified w)
         (encoding w) (files w) (heap_script w) (io_script w) (save_dialog w)
         (trace w ++ [e])).

Definition GetWindowTextLengthW : M nat := fun w => (length (edit_text w), w).

(** GetWindowTextW(hwndEdit, buffer, nMaxCount): at most [nMaxCount - 1] code
    units of the text, then the terminator. *)
Definition GetWindowTextW (nMaxCount : nat) : M (list wchar) := fun w =>
  (take (nMaxCount - 1) (edit_text w), w).

Definition SetWindowTextW (text : list wchar) : M unit := fun w =>
  (tt, mkWorld text (edit_modify w) (currentPath w) (modified w)
         (encoding w) (files w) (heap_script w) (io_script w) (save_dialog w)
         (trace w)).

(** SendMessageW(hwndEdit, EM_SETMODIFY, flag, 0) *)
Definition EM_SETMODIFY (flag : bool) : M unit := fun w =>
  (tt, mkWorld (edit_text w) flag (currentPath w) (modified w)
         (encoding w) (files w) (heap_script w) (io_script w) (save_dialog w)
         (trace w)).

Definition set_modified (flag : bool) : M unit := fun w =>
  (tt, mkWorld (edit_text w) (edit_modify w) (currentPath w) flag
         (encoding w) (files w) (heap_script w) (io_script w) (save_dialog w)
         (trace w)).

(** UpdateTitle repaints the title bar, which the world does not hold. *)
Definition UpdateTitle : M unit := ret tt.

(** StringCchCopyW(dest, cchDest, src): at most [cchDest - 1] code units. *)
Definition StringCchCopyW (cchDest : nat) (src : list wchar) : list wchar :=
  take (cchDest - 1) src.

(** ** The find/replace engine (retropad.c) *)

(** static BOOL GetEditText(HWND hwndEdit, WCHAR **bufferOut, int *lengthOut) *)
Definition GetEditText : M (option (list wchar * nat)) :=
  length <- GetWindowTextLengthW ;;
  buffer <- HeapAlloc (Z.of_nat ((length + 1) * sizeof_WCHAR)) ;;
  if negb buffer then ret None
  else
    buffer <- GetWindowTextW (length + 1) ;;
    ret (Some (buffer, length)).

(** [!needle || needle[0] == L'\0'] *)
Definition null_or_empty (s : option (list wchar)) : bool :=
  match s with
  | None => true
  | Some [] => true
  | Some (_ :: _) => false
  end.

Definition deref (s : option (list wchar)) : list wchar := default [] s.

(** [!found] for a pointer held as an offset. *)
Definition is_null (found : option nat) : bool :=
  match found with
  | None => true
  | Some _ => false
  end.

(** The first loop of the backward search: from [p], every occurrence below
    [startPos] replaces [found]; the loop ends at the first occurrence at or
    after [startPos] or when wcsstr returns NULL. *)
Fixpoint backward_scan (fuel : nat) (haystack needleBuf : list wchar)
    (startPos p : nat) (found : option nat) : option nat :=
  match fuel with
  | O => found
  | S fuel' =>
    match wcsstr_at haystack p needleBuf with
    | None => found
    | Some idx =>
      if idx <? startPos
      then backward_scan fuel' haystack needleBuf startPos (idx + 1) (Some idx)
      else found
    end
  end.

(** The second loop of the backward search: every occurrence from [p] on
    replaces [found]. *)
Fixpoint backward_wrap (fuel : nat) (haystack needleBuf : list wchar)
    (p : nat) (found : option nat) : option nat :=
  match fuel with
  | O => found
  | S fuel' =>
    match wcsstr_at haystack p needleBuf with
    | None => found
    | Some idx => backward_wrap fuel' haystack needleBuf (idx + 1) (Some idx)
    end
  end.

(** static BOOL FindInEdit(HWND hwndEdit, const WCHAR *needle, BOOL matchCase,
      BOOL searchDown, DWORD startPos, DWORD *outStart, DWORD *outEnd):
    [Some (outStart, outEnd)] for TRUE, [None] for FALSE.  The loops advance
    [p] by at least one code unit a turn, so [len + 1] turns end them. *)
Definition FindInEdit `{Locale} (needle : option (list wchar))
    (matchCase searchDown : bool) (startPos : nat) : M (option (nat * nat)) :=
  if null_or_empty needle then ret None
  else
    got <- GetEditText ;;
    match got with
    | None => ret None
    | Some (text, len) =>
      let needleLen := wcslen (deref needle) in
      let haystack := text in
      needleBuf <- HeapAlloc (Z.of_nat ((needleLen + 1) * sizeof_WCHAR)) ;;
      if negb needleBuf then ret None
      else
        let needleBuf := StringCchCopyW (needleLen + 1) (deref needle) in
        let haystack :=
          if negb matchCase then CharLowerBuffW haystack len else haystack in
        let needleBuf :=
          if negb matchCase then CharLowerBuffW needleBuf needleLen
          else needleBuf in
        let startPos := if len <? startPos then len else startPos in
        let found :=
          if searchDown then
            let found := wcsstr_at haystack startPos needleBuf in
            if is_null found && (0 <? startPos)
            then wcsstr_at haystack 0 needleBuf
            else found
          else
            let found :=
              backward_scan (S len) haystack needleBuf startPos 0 None in
            if is_null found && (startPos <? len)
            then backward_wrap (S len) haystack needleBuf startPos found
            else found in
        match found with
        | Some pos => ret (Some (pos, pos + needleLen))
        | None => ret None
        end
    end.

(** The first pass of ReplaceAllOccurrences: count the occurrences, resuming
    behind each one. *)
Fixpoint count_occurrences (fuel : nat) (searchBuf needleBuf : list wchar)
    (needleLen p count : nat) : nat :=
  match fuel with
  | O => count
  | S fuel' =>
    match wcsstr_at searchBuf p needleBuf with
    | None => count
    | Some p =>
      count_occurrences fuel' searchBuf needleBuf needleLen
        (p + needleLen) (count + 1)
    end
  end.

(** CopyMemory(dst, src + from, n * sizeof(WCHAR)) onto the end of what [dst]
    holds so far. *)
Definition CopyMemory (dst src : list wchar) (from n : nat) : list wchar :=
  dst ++ take n (drop from src).

(** The second pass: [dst] is what has been written to the result so far,
    [searchCur] and [origCur] the cursors in the comparison copy and in the
    original text.  It returns the result written and the final [origCur]. *)
Fixpoint build_result (fuel : nat) (searchBuf text needleBuf : list wchar)
    (needleLen : nat) (replacement : list wchar) (replLen : nat)
    (dst : list wchar) (searchCur origCur : nat) : list wchar * nat :=
  match fuel with
  | O => (dst, origCur)
  | S fuel' =>
    match wcsstr_at searchBuf searchCur needleBuf with
    | None => (dst, origCur)
    | Some p =>
      let delta := p - searchCur in
      let dst := CopyMemory dst text origCur delta in
      let origCur := origCur + delta in
      let searchCur := searchCur + delta in
      let dst :=
        if 0 <? replLen then CopyMemory dst replacement 0 replLen else dst in
      let origCur := origCur + needleLen in
      let searchCur := searchCur + needleLen in
      build_result fuel' searchBuf text needleBuf needleLen replacement replLen
        dst searchCur origCur
    end
  end.

(** static int ReplaceAllOccurrences(HWND hwndEdit, const WCHAR *needle,
      const WCHAR *replacement, BOOL matchCase).  The code computes [newLen]
    and the sizes of its buffers in size_t; the result that is built here is
    the one the code builds when none of these sizes wraps, that is, when the
    buffers hold what is copied into them. *)
Definition ReplaceAllOccurrences `{Locale} (needle replacement : option (list wchar))
    (matchCase : bool) : M nat :=
  if null_or_empty needle then ret 0
  else
    got <- GetEditText ;;
    match got with
    | None => ret 0
    | Some (text, len) =>
      let needleLen := wcslen (deref needle) in
      let replLen :=
        match replacement with
        | Some r => wcslen r
        | None => 0
        end in
      searchBuf <- HeapAlloc (Z.of_nat ((len + 1) * sizeof_WCHAR)) ;;
      needleBuf <- HeapAlloc (Z.of_nat ((needleLen + 1) * sizeof_WCHAR)) ;;
      if negb searchBuf || negb needleBuf then ret 0
      else
        let searchBuf := StringCchCopyW (len + 1) text in
        let needleBuf := StringCchCopyW (needleLen + 1) (deref needle) in
        let searchBuf :=
          if negb matchCase then CharLowerBuffW searchBuf len else searchBuf in
        let needleBuf :=
          if negb matchCase then CharLowerBuffW needleBuf needleLen
          else needleBuf in
        let count := count_occurrences (S len) searchBuf needleBuf needleLen 0 0 in
        if count =? 0 then ret 0
        else
          let newLen :=
            (Z.of_nat len - Z.of_nat count * Z.of_nat needleLen
             + Z.of_nat count * Z.of_nat replLen)%Z in
          result <- HeapAlloc ((newLen + 1) * Z.of_nat sizeof_WCHAR)%Z ;;
          if negb result then ret 0
          else
            let '(dst, origCur) :=
              build_result (S len) searchBuf text needleBuf needleLen
                (deref replacement) replLen [] 0 0 in
            let tail := wcslen (drop origCur text) in
            let dst := CopyMemory dst text origCur tail in
            SetWindowTextW dst ;;;
            EM_SETMODIFY true ;;;
            set_modified true ;;;
            UpdateTitle ;;;
            ret count
    end.

(** ** The platform's conversions

    MultiByteToWideChar and WideCharToMultiByte are Win32, not code of
    retropad: they are written out here as Windows documents them, for
    CP_UTF8 in full and for CP_ACP through the code page of the [Locale]. *)

Section Conversions.
Local Open Scope Z_scope.

Definition in_range (lo hi b : Z) : bool := (lo <=? b) && (b <=? hi).

Definition is_high_surrogate (u : wchar) : bool := in_range 0xD800 0xDBFF u.
Definition is_low_surrogate (u : wchar) : bool := in_range 0xDC00 0xDFFF u.

Definition REPLACEMENT_CHARACTER : Z := 0xFFFD.

(** The UTF-8 bytes of a Unicode scalar value. *)
Definition utf8_of_scalar (c : Z) : list byte :=
  if c <? 0x80 then [c]
  else if c <? 0x800 then [0xC0 + c / 64; 0x80 + c mod 64]
  else if c <? 0x10000 then
    [0xE0 + c / 4096; 0x80 + (c / 64) mod 64; 0x80 + c mod 64]
  else
    [0xF0 + c / 262144; 0x80 + (c / 4096) mod 64; 0x80 + (c / 64) mod 64;
     0x80 + c mod 64].

(** The UTF-16 code units of a Unicode scalar value. *)
Definition utf16_of_scalar (c : Z) : list wchar :=
  if c <? 0x10000 then [c]
  else [0xD800 + (c - 0x10000) / 1024; 0xDC00 + (c - 0x10000) mod 1024].

(** UTF-16 to UTF-8 as WideCharToMultiByte(CP_UTF8, 0, ...) does it: a
    surrogate pair is one scalar value, a surrogate without its partner is
    written as U+FFFD. *)
Fixpoint utf8_of_wide (text : list wchar) : list byte :=
  match text with
  | [] => []
  | u :: rest =>
    if is_high_surrogate u then
      match rest with
      | v :: rest' =>
        if is_low_surrogate v
        then utf8_of_scalar (0x10000 + (u - 0xD800) * 1024 + (v - 0xDC00))
               ++ utf8_of_wide rest'
        else utf8_of_scalar REPLACEMENT_CHARACTER ++ utf8_of_wide rest
      | [] => utf8_of_scalar REPLACEMENT_CHARACTER
      end
    else if is_low_surrogate u
    then utf8_of_scalar REPLACEMENT_CHARACTER ++ utf8_of_wide rest
    else utf8_of_scalar u ++ utf8_of_wide rest
  end.

(** The range of the second byte of a sequence, by its first byte (the
    well-formed UTF-8 byte sequences of the Unicode standard: no overlong
    form, no surrogate, nothing above U+10FFFF). *)
Definition second_byte_ok (b0 b1 : byte) : bool :=
  if b0 =? 0xE0 then in_range 0xA0 0xBF b1
  else if b0 =? 0xED then in_range 0x80 0x9F b1
  else if b0 =? 0xF0 then in_range 0x90 0xBF b1
  else if b0 =? 0xF4 then in_range 0x80 0x8F b1
  else in_range 0x80 0xBF b1.

Definition continuation (b : byte) : bool := in_range 0x80 0xBF b.

(** UTF-8 to UTF-16 as MultiByteToWideChar(CP_UTF8, ...) does it.  With
    [strict] (MB_ERR_INVALID_CHARS) an ill-formed sequence makes the call
    fail ([None]); without it the offending byte is read as U+FFFD and the
    conversion goes on behind it. *)
Fixpoint wide_of_utf8 (strict : bool) (src : list byte) : option (list wchar) :=
  match src with
  | [] => Some []
  | b0 :: r0 =>
    let ill_formed (_ : unit) :=
      if strict then None
      else cons REPLACEMENT_CHARACTER <$> wide_of_utf8 strict r0 in
    if in_range 0x00 0x7F b0 then cons b0 <$> wide_of_utf8 strict r0
    else if in_range 0xC2 0xDF b0 then
      match r0 with
      | b1 :: r1 =>
        if continuation b1
        then app (utf16_of_scalar ((b0 - 0xC0) * 64 + (b1 - 0x80)))
               <$> wide_of_utf8 strict r1
        else ill_formed ()
      | _ => ill_formed ()
      end
    else if in_range 0xE0 0xEF b0 then
      match r0 with
      | b1 :: b2 :: r2 =>
        if second_byte_ok b0 b1 && continuation b2
        then app (utf16_of_scalar
                    ((b0 - 0xE0) * 4096 + (b1 - 0x80) * 64 + (b2 - 0x80)))
               <$> wide_of_utf8 strict r2
        else ill_formed ()
      | _ => ill_formed ()
      end
    else if in_range 0xF0 0xF4 b0 then
      match r0 with
      | b1 :: b2 :: b3 :: r3 =>
        if second_byte_ok b0 b1 && continuation b2 && continuation b3
        then app (utf16_of_scalar
                    ((b0 - 0xF0) * 262144 + (b1 - 0x80) * 4096
                     + (b2 - 0x80) * 64 + (b3 - 0x80)))
               <$> wide_of_utf8 strict r3
        else ill_formed ()
      | _ => ill_formed ()
      end
    else ill_formed ()
  end.

Inductive CodePage : Set :=
  | CP_ACP
  | CP_UTF8.

Definition MB_ERR_INVALID_CHARS : Z := 0x8.

(** MultiByteToWideChar(CodePage, dwFlags, src, cbMultiByte, dst, cch): the
    code units it converts [src] to; their number is the value it returns,
    and 0 is how it reports a failure.  It fails when cbMultiByte is 0.
    cbMultiByte is an int and the callers pass a DWORD: [src] is what the
    call is given as long as an int holds its length, the one case this
    definition covers. *)
Definition MultiByteToWideChar `{Locale} (cp : CodePage) (dwFlags : Z)
    (src : list byte) : list wchar :=
  match src with
  | [] => []
  | _ :: _ =>
    match cp with
    | CP_UTF8 =>
      default [] (wide_of_utf8 (Z.testbit dwFlags 3) src)
    | CP_ACP => acp_to_wide src
    end
  end.

(** WideCharToMultiByte(CodePage, 0, src, cchWideChar, dst, cb, NULL, NULL):
    the bytes it converts [src] to; their number is the value it returns, and
    0 is how it reports a failure.  It fails when cchWideChar is 0.
    cchWideChar is an int and the callers pass a size_t: [src] is what the
    call is given as long as an int holds its length, the one case this
    definition covers. *)
Definition WideCharToMultiByte `{Locale} (cp : CodePage) (src : list wchar)
    : list byte :=
  match src with
  | [] => []
  | _ :: _ =>
    match cp with
    | CP_UTF8 => utf8_of_wide src
    | CP_ACP => wide_to_acp src
    end
  end.

End Conversions.

(** ** Files *)

(** An open file is known by its path. *)
Definition HANDLE := string.

Definition set_files (fs : gmap string (list byte)) : M unit := fun w =>
  (tt, mkWorld (edit_text w) (edit_modify w) (currentPath w) (modified w)
         (encoding w) fs (heap_script w) (io_script w) (save_dialog w)
         (trace w)).

(** The outcome the script holds for the next file call. *)
Definition io_outcome : M bool := fun w =>
  let (ok, rest) := next_outcome (io_script w) in
  (ok, mkWorld (edit_text w) (edit_modify w) (currentPath w) (modified w)
         (encoding w) (files w) (heap_script w) rest (save_dialog w)
         (trace w)).

Definition get_files : M (gmap string (list byte)) := fun w => (files w, w).

(** CreateFileW(path, GENERIC_READ, ..., OPEN_EXISTING, ...): [None] for
    INVALID_HANDLE_VALUE. *)
Definition CreateFileW_OPEN_EXISTING (path : string) : M (option HANDLE) :=
  ok <- io_outcome ;;
  fs <- get_files ;;
  match fs !! path with
  | Some _ => ret (if ok then Some path else None)
  | None => ret None
  end.

(** CreateFileW(path, GENERIC_WRITE, ..., CREATE_ALWAYS, ...): the file is
    created, or truncated to zero length. *)
Definition CreateFileW_CREATE_ALWAYS (path : string) : M (option HANDLE) :=
  ok <- io_outcome ;;
  if ok then
    fs <- get_files ;;
    set_files (<[path := []]> fs) ;;;
    ret (Some path)
  else ret None.

(** GetFileSizeEx(file, &size): [None] when the call fails. *)
Definition GetFileSizeEx (file : HANDLE) : M (option Z) :=
  ok <- io_outcome ;;
  fs <- get_files ;;
  ret (if ok then Z.of_nat <$> (length <$> fs !! file) else None).

(** ReadFile(file, buffer, bytes, &read, NULL): the bytes read, [None] when
    the call fails. *)
Definition ReadFile (file : HANDLE) (bytes : nat) : M (option (list byte)) :=
  ok <- io_outcome ;;
  fs <- get_files ;;
  ret (if ok then take bytes <$> fs !! file else None).

(** WriteFile(file, data, size, &written, NULL): appends at the file
    pointer, which SaveTextFile never moves. *)
Definition WriteFile (file : HANDLE) (data : list byte) : M bool :=
  ok <- io_outcome ;;
  if ok then
    fs <- get_files ;;
    set_files (<[file := default [] (fs !! file) ++ data]> fs) ;;;
    ret true
  else ret false.

Definition CloseHandle (file : HANDLE) : M unit := ret tt.

(** ** Encoding detection and conversion (file_io.c) *)

Section FileIO.
Context `{Locale}.
Local Open Scope Z_scope.

(** [data[i]] *)
Definition at_index (data : list byte) (i : nat) : byte := nth i data 0.

(** static TextEncoding DetectEncoding(const BYTE *data, DWORD size).  The
    three tests of a mark are those of the code for every size; the
    validating call is given [size] as an int, and is the one of the code for
    a size up to INT_MAX. *)
Definition DetectEncoding (data : list byte) : TextEncoding :=
  let size := length data in
  if (2 <=? size)%nat && (at_index data 0 =? 0xFF) && (at_index data 1 =? 0xFE)
  then ENC_UTF16LE
  else if (2 <=? size)%nat && (at_index data 0 =? 0xFE)
            && (at_index data 1 =? 0xFF)
  then ENC_UTF16BE
  else if (3 <=? size)%nat && (at_index data 0 =? 0xEF)
            && (at_index data 1 =? 0xBB) && (at_index data 2 =? 0xBF)
  then ENC_UTF8
  else
    let wlen :=
      length (MultiByteToWideChar CP_UTF8 MB_ERR_INVALID_CHARS data) in
    if (0 <? wlen)%nat then ENC_UTF8 else ENC_ANSI.

(** A buffer of bytes read as an array of WCHAR (the memory is
    little-endian); a last byte without a partner is no code unit. *)
Fixpoint wchars_of_memory (mem : list byte) : list wchar :=
  match mem with
  | lo :: hi :: rest => Z.lor lo (Z.shiftl hi 8) :: wchars_of_memory rest
  | _ => []
  end.

(** An array of WCHAR as the bytes it occupies in memory. *)
Definition memory_of_wchars (text : list wchar) : list byte :=
  flat_map (fun u => [Z.land u 0xFF; Z.land (Z.shiftr u 8) 0xFF]) text.

(** The conversion [(WCHAR)x] of an int. *)
Definition to_WCHAR (x : Z) : wchar := Z.land x 0xFFFF.

(** static BOOL DecodeToWide(const BYTE *data, DWORD size,
      TextEncoding encoding, WCHAR **outText, size_t *outLength):
    [Some (outText, outLength)] for TRUE, [None] for FALSE.  In UTF-8 and
    ANSI the converting calls are given [size] as an int, and the buffer for
    [chars + 1] code units has its size computed in size_t: these two cases
    are those of the code for a size below INT_MAX. *)
Definition DecodeToWide (data : list byte) (encoding : TextEncoding)
    : M (option (list wchar * nat)) :=
  let size := length data in
  match encoding with
  | ENC_UTF16LE =>
    if (size <? 2)%nat then ret None
    else
      let byteOffset :=
        if (at_index data 0 =? 0xFF) && (at_index data 1 =? 0xFE)
        then 2%nat else 0%nat in
      let wcharCount := ((size - byteOffset) / 2)%nat in
      buffer <- HeapAlloc (Z.of_nat ((wcharCount + 1) * sizeof_WCHAR)) ;;
      if negb buffer then ret None
      else
        let buffer :=
          wchars_of_memory
            (take (wcharCount * sizeof_WCHAR) (drop byteOffset data)) in
        ret (Some (buffer, wcharCount))
  | ENC_UTF16BE =>
    if (size <? 2)%nat then ret None
    else
      let byteOffset :=
        if (at_index data 0 =? 0xFE) && (at_index data 1 =? 0xFF)
        then 2%nat else 0%nat in
      let wcharCount := ((size - byteOffset) / 2)%nat in
      buffer <- HeapAlloc (Z.of_nat ((wcharCount + 1) * sizeof_WCHAR)) ;;
      if negb buffer then ret None
      else
        let buffer :=
          map (fun i =>
                 to_WCHAR
                   (Z.lor (Z.shiftl (at_index data (byteOffset + i * 2)) 8)
                          (at_index data (byteOffset + i * 2 + 1))))
              (seq 0 wcharCount) in
        ret (Some (buffer, wcharCount))
  | ENC_UTF8 =>
    let byteOffset :=
      if (3 <=? size)%nat && (at_index data 0 =? 0xEF)
           && (at_index data 1 =? 0xBB) && (at_index data 2 =? 0xBF)
      then 3%nat else 0%nat in
    let converted := MultiByteToWideChar CP_UTF8 0 (drop byteOffset data) in
    let chars := length converted in
    if (chars <=? 0)%nat then ret None
    else
      buffer <- HeapAlloc (Z.of_nat ((chars + 1) * sizeof_WCHAR)) ;;
      if negb buffer then ret None
      else ret (Some (converted, chars))
  | ENC_ANSI =>
    let converted := MultiByteToWideChar CP_ACP 0 data in
    let chars := length converted in
    if (chars <=? 0)%nat then ret None
    else
      buffer <- HeapAlloc (Z.of_nat ((chars + 1) * sizeof_WCHAR)) ;;
      if negb buffer then ret None
      else ret (Some (converted, chars))
  end.

(** What LoadTextFile leaves in [*textOut], [*lengthOut], [*encodingOut]. *)
Record Loaded := mkLoaded {
  textOut : option (list wchar);
  lengthOut : nat;
  encodingOut : TextEncoding
}.

(** BOOL LoadTextFile(HWND owner, LPCWSTR path, WCHAR **textOut,
      size_t *lengthOut, TextEncoding *encodingOut).  The calls of
    DetectEncoding and DecodeToWide leave a [Called] event in the trace, next
    to the message boxes. *)
Definition LoadTextFile (path : string) : M (bool * Loaded) :=
  let defaults := mkLoaded None 0 ENC_UTF8 in
  file <- CreateFileW_OPEN_EXISTING path ;;
  match file with
  | None =>
    record (MessageBoxW "Unable to open file.") ;;;
    ret (false, defaults)
  | Some file =>
    size <- GetFileSizeEx file ;;
    if match size with
       | None => true
       | Some size => size >? UINT_MAX
       end
    then
      CloseHandle file ;;;
      record (MessageBoxW "Unsupported file size.") ;;;
      ret (false, defaults)
    else
      let bytes := Z.to_nat (default 0 size) in
      buffer <- HeapAlloc (Z.of_nat (bytes + 3)) ;;
      if negb buffer then
        CloseHandle file ;;;
        record (MessageBoxW "Out of memory.") ;;;
        ret (false, defaults)
      else
        got <- ReadFile file bytes ;;
        CloseHandle file ;;;
        match got with
        | None =>
          record (MessageBoxW "Failed reading file.") ;;;
          ret (false, defaults)
        | Some buffer =>
          let read := length buffer in
          if (read =? 0)%nat then
            empty <- HeapAlloc (Z.of_nat sizeof_WCHAR) ;;
            if negb empty then ret (false, defaults)
            else ret (true, mkLoaded (Some []) 0 ENC_UTF8)
          else
            record (Called "DetectEncoding") ;;;
            let enc := DetectEncoding buffer in
            record (Called "DecodeToWide") ;;;
            decoded <- DecodeToWide buffer enc ;;
            match decoded with
            | None =>
              record (MessageBoxW "Unable to decode file.") ;;;
              ret (false, defaults)
            | Some (text, len) => ret (true, mkLoaded (Some text) len enc)
            end
        end
  end.

(** static BOOL WriteUTF8WithBOM(HANDLE file, const WCHAR *text,
      size_t length) *)
Definition WriteUTF8WithBOM (file : HANDLE) (text : list wchar) (length : nat)
    : M bool :=
  let bom := [0xEF; 0xBB; 0xBF] in
  ok <- WriteFile file bom ;;
  if negb ok then ret false
  else
    let converted := WideCharToMultiByte CP_UTF8 (take length text) in
    let bytes := List.length converted in
    if (bytes <=? 0)%nat then ret false
    else
      buffer <- HeapAlloc (Z.of_nat bytes) ;;
      if negb buffer then ret false
      else WriteFile file converted.

(** static BOOL WriteUTF16LE(HANDLE file, const WCHAR *text, size_t length) *)
Definition WriteUTF16LE (file : HANDLE) (text : list wchar) (length : nat)
    : M bool :=
  let bom := [0xFF; 0xFE] in
  ok <- WriteFile file bom ;;
  if negb ok then ret false
  else WriteFile file (memory_of_wchars (take length text)).

(** static BOOL WriteANSI(HANDLE file, const WCHAR *text, size_t length) *)
Definition WriteANSI (file : HANDLE) (text : list wchar) (length : nat)
    : M bool :=
  let converted := WideCharToMultiByte CP_ACP (take length text) in
  let bytes := List.length converted in
  if (bytes <=? 0)%nat then ret false
  else
    buffer <- HeapAlloc (Z.of_nat bytes) ;;
    if negb buffer then ret false
    else WriteFile file converted.

(** BOOL SaveTextFile(HWND owner, LPCWSTR path, LPCWSTR text, size_t length,
      TextEncoding encoding).  [encoding] is the function's own copy of its
      argument: the switch returns it next to [ok], and nothing reads it
      afterwards. *)
Definition SaveTextFile (path : string) (text : list wchar) (length : nat)
    (encoding : TextEncoding) : M bool :=
  file <- CreateFileW_CREATE_ALWAYS path ;;
  match file with
  | None =>
    record (MessageBoxW "Unable to create file.") ;;;
    ret false
  | Some file =>
    written <-
      match encoding with
      | ENC_UTF16LE =>
        ok <- WriteUTF16LE file text length ;; ret (ok, encoding)
      | ENC_ANSI =>
        ok <- WriteANSI file text length ;; ret (ok, encoding)
      | ENC_UTF16BE =>
        ok <- WriteUTF8WithBOM file text length ;; ret (ok, ENC_UTF8)
      | ENC_UTF8 =>
        ok <- WriteUTF8WithBOM file text length ;; ret (ok, encoding)
      end ;;
    let '(ok, encoding) := written in
    CloseHandle file ;;;
    (if negb ok then record (MessageBoxW "Failed writing file.") else ret tt) ;;;
    ret ok
  end.

End FileIO.

(** ** Saving the document (retropad.c) *)

Definition get_currentPath : M string := fun w => (currentPath w, w).
Definition get_encoding : M TextEncoding := fun w => (encoding w, w).

Definition set_currentPath (path : string) : M unit := fun w =>
  (tt, mkWorld (edit_text w) (edit_modify w) path (modified w)
         (encoding w) (files w) (heap_script w) (io_script w) (save_dialog w)
         (trace w)).

(** SaveFileDialog(hwnd, path, ARRAYSIZE(path)): the path the user chose,
    [None] when the dialog was cancelled. *)
Definition SaveFileDialog (path : string) : M (option string) := fun w =>
  (save_dialog w, w).

(** static BOOL DoFileSave(HWND hwnd, BOOL saveAs) *)
Definition DoFileSave `{Locale} (saveAs : bool) : M bool :=
  current <- get_currentPath ;;
  chosen <-
    (if saveAs || bool_decide (current = "") then
       answer <- SaveFileDialog current ;;
       match answer with
       | None => ret None
       | Some path => set_currentPath path ;;; ret (Some path)
       end
     else ret (Some current)) ;;
  match chosen with
  | None => ret false
  | Some path =>
    len <- GetWindowTextLengthW ;;
    buffer <- HeapAlloc (Z.of_nat ((len + 1) * sizeof_WCHAR)) ;;
    if negb buffer then ret false
    else
      buffer <- GetWindowTextW (len + 1) ;;
      enc <- get_encoding ;;
      ok <- SaveTextFile path buffer len enc ;;
      if ok then
        EM_SETMODIFY false ;;;
        set_modified false ;;;
        UpdateTitle ;;;
        ret ok
      else ret ok
  end.

(** ** Opening, closing and starting documents (retropad.c) *)

Definition get_modified : M bool := fun w => (modified w, w).

Definition set_encoding (enc : TextEncoding) : M unit := fun w =>
  (tt, mkWorld (edit_text w) (edit_modify w) (currentPath w) (modified w)
         enc (files w) (heap_script w) (io_script w) (save_dialog w)
         (trace w)).

(** UpdateStatusBar repaints the status bar, which the world does not hold. *)
Definition UpdateStatusBar : M unit := ret tt.

(** The string a buffer holds for a call that reads it up to its terminator:
    the code units before the first NUL. *)
Fixpoint c_str (buffer : list wchar) : list wchar :=
  match buffer with
  | [] => []
  | u :: rest => if (u =? 0)%Z then [] else u :: c_str rest
  end.

(** static BOOL LoadDocumentFromPath(HWND hwnd, LPCWSTR path).  The text
    LoadTextFile hands over is a buffer of [lengthOut] code units and a
    terminator, which SetWindowTextW reads as a string; [path] comes from a
    buffer of the size of g_app.currentPath, so the copy keeps all of it. *)
Definition LoadDocumentFromPath `{Locale} (path : string) : M bool :=
  loaded <- LoadTextFile path ;;
  let '(ok, out) := loaded in
  if negb ok then ret false
  else
    SetWindowTextW (c_str (deref (textOut out))) ;;;
    set_currentPath path ;;;
    set_encoding (encodingOut out) ;;;
    EM_SETMODIFY false ;;;
    set_modified false ;;;
    UpdateTitle ;;;
    UpdateStatusBar ;;;
    ret true.

(** What the user answers to a MessageBoxW with MB_YESNOCANCEL. *)
Inductive Answer : Set :=
  | IDYES
  | IDNO
  | IDCANCEL.

(** static BOOL PromptSaveChanges(HWND hwnd): [answer] is what the user
    answers if the question is asked. *)
Definition PromptSaveChanges `{Locale} (answer : Answer) : M bool :=
  changed <- get_modified ;;
  if negb changed then ret true
  else
    current <- get_currentPath ;;
    let name := if bool_decide (current = "") then "Untitled" else current in
    record (MessageBoxW
              (String.append "Do you want to save changes to "
                 (String.append name "?"))) ;;;
    match answer with
    | IDYES => DoFileSave false
    | IDNO => ret true
    | IDCANCEL => ret false
    end.

(** static BOOL DoFileOpen(HWND hwnd): [chosen] is the path the user picks in
    OpenFileDialog, [None] when the dialog is cancelled. *)
Definition DoFileOpen `{Locale} (answer : Answer) (chosen : option string)
    : M bool :=
  proceed <- PromptSaveChanges answer ;;
  if negb proceed then ret false
  else
    match chosen with
    | None => ret false
    | Some path => LoadDocumentFromPath path
    end.

(** static void DoFileNew(HWND hwnd) *)
Definition DoFileNew `{Locale} (answer : Answer) : M unit :=
  proceed <- PromptSaveChanges answer ;;
  if negb proceed then ret tt
  else
    SetWindowTextW [] ;;;
    set_currentPath "" ;;;
    set_encoding ENC_UTF8 ;;;
    EM_SETMODIFY false ;;;
    set_modified false ;;;
    UpdateTitle ;;;
    UpdateStatusBar.

(** MainWndProc, WM_DROPFILES: [dropped] is the path DragQueryFileW gives,
    [None] when it gives none. *)
Definition WM_DROPFILES `{Locale} (answer : Answer) (dropped : option string)
    : M unit :=
  match dropped with
  | None => ret tt
  | Some path =>
    proceed <- PromptSaveChanges answer ;;
    if proceed then LoadDocumentFromPath path ;;; ret tt else ret tt
  end.

(** MainWndProc, WM_COMMAND with EN_CHANGE from the edit control:
    g_app.modified takes the answer to EM_GETMODIFY. *)
Definition EM_GETMODIFY : M bool := fun w => (edit_modify w, w).

Definition EN_CHANGE : M unit :=
  flag <- EM_GETMODIFY ;;
  set_modified flag ;;;
  UpdateTitle ;;;
  UpdateStatusBar.

(** MainWndProc, WM_CLOSE: [true] when DestroyWindow is called. *)
Definition WM_CLOSE `{Locale} (answer : Answer) : M bool :=
  proceed <- PromptSaveChanges answer ;;
  if proceed then ret true else ret false.

(** ** Find Next, the Find and Replace dialogs, Go To and the title
    (retropad.c) *)

(** The flags of FINDREPLACEW that the program tests (commdlg.h). *)
Definition FR_DOWN : Z := 0x1.
Definition FR_MATCHCASE : Z := 0x4.
Definition FR_FINDNEXT : Z := 0x8.
Definition FR_REPLACE : Z := 0x10.
Definition FR_REPLACEALL : Z := 0x20.
Definition FR_DIALOGTERM : Z := 0x40.

(** [(flags & bit) != 0] *)
Definition has_flag (flags bit : Z) : bool := negb (Z.land flags bit =? 0)%Z.

(** The part of g_app that the search commands keep. *)
Record Search := mkSearch {
  findFlags : Z;            (* g_app.findFlags *)
  findText : list wchar;    (* g_app.findText, WCHAR[128] *)
  replaceText : list wchar  (* g_app.replaceText, WCHAR[128] *)
}.

(** The fields of FINDREPLACEW that HandleFindReplace reads. *)
Record FINDREPLACE := mkFINDREPLACE {
  Flags : Z;
  lpstrFindWhat : option (list wchar);
  lpstrReplaceWith : option (list wchar)
}.

(** SendMessageW(hwndEdit, EM_SETSEL, start, end) followed by
    SendMessageW(hwndEdit, EM_REPLACESEL, TRUE, text): the span is replaced
    by [text] and the control marks itself modified. *)
Definition EM_REPLACESEL (span : nat * nat) (text : list wchar) : M unit :=
  fun w =>
  (tt, mkWorld (take (fst span) (edit_text w) ++ text
                  ++ drop (snd span) (edit_text w))
         true (currentPath w) (modified w) (encoding w) (files w)
         (heap_script w) (io_script w) (save_dialog w) (trace w)).

(** static BOOL DoFindNext(BOOL reverse).  [sel] is what EM_GETSEL gives;
    next to the BOOL stands the span that is selected with EM_SETSEL, if any.
    ShowFindDialog leaves a [Called] event. *)
Definition DoFindNext `{Locale} (reverse : bool) (sel : nat * nat)
    (s : Search) : M (bool * option (nat * nat)) :=
  if null_or_empty (Some (findText s)) then
    record (Called "ShowFindDialog") ;;;
    ret (false, None)
  else
    let '(start, end_) := sel in
    let matchCase := has_flag (findFlags s) FR_MATCHCASE in
    let down := has_flag (findFlags s) FR_DOWN in
    let down := if reverse then negb down else down in
    let searchStart := if down then end_ else start in
    found <- FindInEdit (Some (findText s)) matchCase down searchStart ;;
    match found with
    | Some (outStart, outEnd) => ret (true, Some (outStart, outEnd))
    | None =>
      record (MessageBoxW "Cannot find the text.") ;;;
      ret (false, None)
    end.

(** static void HandleFindReplace(LPFINDREPLACE lpfr).  [sel] is what
    EM_GETSEL gives; the result is what g_app keeps for the next search and
    the span that is selected with EM_SETSEL, if any.  A message with
    FR_DIALOGTERM sets g_app.hFindDlg and g_app.hReplaceDlg to NULL and
    returns: window handles are no part of [Search] or of the [World], so
    that all that is seen of this message here is what it leaves alone. *)
Definition HandleFindReplace `{Locale} (lpfr : FINDREPLACE) (sel : nat * nat)
    (s : Search) : M (Search * option (nat * nat)) :=
  if has_flag (Flags lpfr) FR_DIALOGTERM then ret (s, None)
  else
    let findFlags := Flags lpfr in
    let findText :=
      if negb (null_or_empty (lpstrFindWhat lpfr))
      then StringCchCopyW 128 (deref (lpstrFindWhat lpfr))
      else findText s in
    let replaceText :=
      match lpstrReplaceWith lpfr with
      | Some replaceWith => StringCchCopyW 128 replaceWith
      | None => replaceText s
      end in
    let s := mkSearch findFlags findText replaceText in
    let matchCase := has_flag (Flags lpfr) FR_MATCHCASE in
    let down := has_flag (Flags lpfr) FR_DOWN in
    let '(start, end_) := sel in
    if has_flag (Flags lpfr) FR_FINDNEXT then
      let searchStart := if down then end_ else start in
      found <- FindInEdit (Some findText) matchCase down searchStart ;;
      match found with
      | Some (outStart, outEnd) => ret (s, Some (outStart, outEnd))
      | None =>
        record (MessageBoxW "Cannot find the text.") ;;;
        ret (s, None)
      end
    else if has_flag (Flags lpfr) FR_REPLACE then
      found <- FindInEdit (Some findText) matchCase down start ;;
      match found with
      | Some (outStart, outEnd) =>
        EM_REPLACESEL (outStart, outEnd) replaceText ;;;
        set_modified true ;;;
        UpdateTitle ;;;
        ret (s, Some (outStart, outEnd))
      | None =>
        record (MessageBoxW "Cannot find the text.") ;;;
        ret (s, None)
      end
    else if has_flag (Flags lpfr) FR_REPLACEALL then
      replaced <-
        ReplaceAllOccurrences (Some findText) (Some replaceText) matchCase ;;
      record (MessageBoxW
                (String.append "Replaced "
                   (String.append (pretty replaced)
                      (String.append " occurrence"
                         (String.append (if replaced =? 1 then "" else "s")
                            "."))))) ;;;
      ret (s, None)
    else ret (s, None).

(** The conversions [(int)x] and [(UINT)x] of a 32-bit value. *)
Definition to_int (x : Z) : Z := ((x + 2147483648) mod 4294967296 - 2147483648)%Z.
Definition to_UINT (x : Z) : Z := (x mod 4294967296)%Z.

(** static INT_PTR CALLBACK GoToDlgProc, WM_COMMAND with IDOK.  [input] is
    what GetDlgItemInt reads ([None] when it clears [ok]); [lineCount] is the
    answer of the edit control to EM_GETLINECOUNT and [lineIndex] its answer
    to EM_LINEINDEX.  The result tells whether EndDialog is called and where
    the caret is put with EM_SETSEL, if anywhere. *)
Definition GoToDlgProc_IDOK (lineCount : Z) (lineIndex : Z -> Z)
    (input : option Z) : M (bool * option Z) :=
  match input with
  | Some line =>
    if (line =? 0)%Z then
      record (MessageBoxW "Enter a valid line number.") ;;;
      ret (false, None)
    else
      let maxLine := to_int lineCount in
      let line := if (to_int line >? maxLine)%Z then to_UINT maxLine else line in
      let charIndex := to_int (lineIndex (to_UINT (line - 1))) in
      if (charIndex >=? 0)%Z then ret (true, Some charIndex)
      else ret (true, None)
  | None =>
    record (MessageBoxW "Enter a valid line number.") ;;;
    ret (false, None)
  end.

(** wcsrchr(s, c) + 1: what stands behind the last [c] of [s], [None] when
    [c] does not occur. *)
Fixpoint behind_last (c : Ascii.ascii) (s : string) : option string :=
  match s with
  | EmptyString => None
  | String a rest =>
    match behind_last c rest with
    | Some name => Some name
    | None => if Ascii.eqb a c then Some rest else None
    end
  end.

(** The separator of the parts of a path. *)
Definition backslash : Ascii.ascii := Ascii.ascii_of_nat 92.

(** The title UpdateTitle gives the window.  Neither copy cuts anything off:
    the name is part of a path of less than MAX_PATH_BUFFER code units and
    the title has room for 32 more. *)
Definition UpdateTitle_text (path : string) (changed : bool) : string :=
  let name :=
    if bool_decide (path = "") then "Untitled"
    else default path (behind_last backslash path) in
  String.append (if changed then "*" else "")
    (String.append name (String.append " - " "retropad")).

(** A locale for running the program: ASCII lower-casing and the Latin-1 code
    page (a code unit above 255 is written as '?'). *)
Definition ascii_lower (c : wchar) : wchar :=
  if ((65 <=? c) && (c <=? 90))%Z then (c + 32)%Z else c.

Definition latin1_encode (c : wchar) : byte :=
  if (c <? 256)%Z then c else 63%Z.

(** A world to run the engine in: a document, no file, no scripted failure. *)
Definition document (text : list wchar) : World :=
  mkWorld text false "" false ENC_UTF8 empty [] [] None [].

(** The document of a file that was opened with the given encoding. *)
Definition opened (path : string) (enc : TextEncoding) (text : list wchar)
    (content : list byte) : World :=
  mkWorld text false path false enc {[ path := content ]} [] [] None [].

#[export] Program Instance latin1_locale : Locale := {|
  CharLowerW := ascii_lower;
  acp_to_wide := fun data => data;
  wide_to_acp := map latin1_encode
|}.
Next Obligation.
  intros c Hc. unfold ascii_lower.
  destruct (Z.leb_spec 65 c), (Z.leb_spec c 90); simpl; lia.
Qed.
Next Obligation.
  intros c Hc Hn. unfold ascii_lower.
  destruct (Z.leb_spec 65 c), (Z.leb_spec c 90); simpl; lia.
Qed.

(** * The vocabulary of the properties *)

(** ** Occurrences, scans and worlds without failures *)

(** [needle] occurs in [hay] at offset [i]: the code units of [hay] from [i]
    on, as many as [needle] has, are those of [needle]. *)
Definition occurs_at (hay needle : list wchar) (i : nat) : Prop :=
  take (length needle) (drop i hay) = needle.

(** The copy that is searched: the text itself, or its lower-cased copy. *)
Definition comparison `{Locale} (matchCase : bool) (s : list wchar) : list wchar :=
  if matchCase then s else map CharLowerW s.

Definition first_occurrence_from (hay ndl : list wchar) (from i : nat) : Prop :=
  occurs_at hay ndl i /\ from <= i
  /\ forall j, occurs_at hay ndl j -> from <= j -> i <= j.

Definition last_occurrence_from (hay ndl : list wchar) (from i : nat) : Prop :=
  occurs_at hay ndl i /\ from <= i
  /\ forall j, occurs_at hay ndl j -> from <= j -> j <= i.

Definition last_occurrence_below (hay ndl : list wchar) (bound i : nat) : Prop :=
  occurs_at hay ndl i /\ i < bound
  /\ forall j, occurs_at hay ndl j -> j < bound -> j <= i.

(** The offset FindInEdit settles on, as a function of the two comparison
    copies. *)
Definition found_offset (haystack needleBuf : list wchar) (searchDown : bool)
    (startPos : nat) : option nat :=
  let len := length haystack in
  let startPos := if len <? startPos then len else startPos in
  if searchDown then
    let found := wcsstr_at haystack startPos needleBuf in
    if is_null found && (0 <? startPos)
    then wcsstr_at haystack 0 needleBuf
    else found
  else
    let found := backward_scan (S len) haystack needleBuf startPos 0 None in
    if is_null found && (startPos <? len)
    then backward_wrap (S len) haystack needleBuf startPos found
    else found.

(** The occurrences a left-to-right scan without overlap meets from [cursor]
    on: each is the first occurrence at or after the cursor, and the cursor
    moves behind it. *)
Inductive greedy_scan (hay ndl : list wchar) : nat -> list nat -> Prop :=
  | scan_end cursor :
      (forall j, cursor <= j -> ~ occurs_at hay ndl j) ->
      greedy_scan hay ndl cursor []
  | scan_hit cursor i rest :
      first_occurrence_from hay ndl cursor i ->
      greedy_scan hay ndl (i + length ndl) rest ->
      greedy_scan hay ndl cursor (i :: rest).

(** The text from [cursor] on in which the spans of [needleLen] code units at
    [positions] are replaced by [repl] and every other span is kept as it
    is. *)
Fixpoint splice (text : list wchar) (cursor : nat) (positions : list nat)
    (needleLen : nat) (repl : list wchar) : list wchar :=
  match positions with
  | [] => drop cursor text
  | i :: rest =>
    take (i - cursor) (drop cursor text) ++ repl
      ++ splice text (i + needleLen) rest needleLen repl
  end.

(** size_t holds the size in bytes of a buffer for [units] code units and the
    terminator: [(units + 1) * sizeof(WCHAR)] does not wrap. *)
Definition buffer_fits (units : Z) : Prop :=
  (0 <= units /\ (units + 1) * Z.of_nat sizeof_WCHAR <= SIZE_MAX)%Z.

(** No allocation that is still to come fails. *)
Definition allocations_succeed (w : World) : Prop :=
  Forall (fun ok => ok = true) (heap_script w).

(** No file call that is still to come fails. *)
Definition file_calls_succeed (w : World) : Prop :=
  Forall (fun ok => ok = true) (io_script w).

(** No file call and no allocation that is still to come fails. *)
Definition quiet (w : World) : Prop :=
  file_calls_succeed w /\ allocations_succeed w.

(** The world behind a successful allocation. *)
Definition after_alloc (w : World) : World :=
  mkWorld (edit_text w) (edit_modify w) (currentPath w) (modified w)
    (encoding w) (files w) (tl (heap_script w)) (io_script w) (save_dialog w)
    (trace w).

(** The world behind a successful file call. *)
Definition after_io (w : World) : World :=
  mkWorld (edit_text w) (edit_modify w) (currentPath w) (modified w)
    (encoding w) (files w) (heap_script w) (tl (io_script w)) (save_dialog w)
    (trace w).

(** The world in which the files are [fs]. *)
Definition with_files (fs : gmap string (list byte)) (w : World) : World :=
  mkWorld (edit_text w) (edit_modify w) (currentPath w) (modified w)
    (encoding w) fs (heap_script w) (io_script w) (save_dialog w) (trace w).

(** A computation that leaves g_app.encoding as it is. *)
Definition keeps_encoding {A} (m : M A) : Prop :=
  forall w, encoding (snd (m w)) = encoding w.

(** ** Byte order marks and well-formed sequences *)

Section Sequences.
Local Open Scope Z_scope.

Definition BOM_UTF16LE : list byte := [0xFF; 0xFE].

Definition BOM_UTF16BE : list byte := [0xFE; 0xFF].

Definition BOM_UTF8 : list byte := [0xEF; 0xBB; 0xBF].

(** The byte order mark a file of the encoding begins with. *)
Definition bom_of (enc : TextEncoding) : list byte :=
  match enc with
  | ENC_UTF16LE => BOM_UTF16LE
  | ENC_UTF16BE => BOM_UTF16BE
  | ENC_UTF8 => BOM_UTF8
  | ENC_ANSI => []
  end.

(** The code unit two bytes that follow each other stand for. *)
Definition code_unit (enc : TextEncoding) (first second : byte) : wchar :=
  match enc with
  | ENC_UTF16BE => to_WCHAR (Z.lor (Z.shiftl first 8) second)
  | _ => Z.lor first (Z.shiftl second 8)
  end.

(** The well-formed UTF-8 byte sequences, row by row as the Unicode standard
    lists them: no overlong form, no surrogate, no value above U+10FFFF, no
    sequence cut short. *)
Inductive well_formed_utf8 : list byte -> Prop :=
  | wf_empty : well_formed_utf8 []
  | wf_00_7F b rest :
      0x00 <= b <= 0x7F ->
      well_formed_utf8 rest -> well_formed_utf8 (b :: rest)
  | wf_C2_DF b0 b1 rest :
      0xC2 <= b0 <= 0xDF -> 0x80 <= b1 <= 0xBF ->
      well_formed_utf8 rest -> well_formed_utf8 (b0 :: b1 :: rest)
  | wf_E0 b0 b1 b2 rest :
      b0 = 0xE0 -> 0xA0 <= b1 <= 0xBF -> 0x80 <= b2 <= 0xBF ->
      well_formed_utf8 rest -> well_formed_utf8 (b0 :: b1 :: b2 :: rest)
  | wf_E1_EC b0 b1 b2 rest :
      0xE1 <= b0 <= 0xEC -> 0x80 <= b1 <= 0xBF -> 0x80 <= b2 <= 0xBF ->
      well_formed_utf8 rest -> well_formed_utf8 (b0 :: b1 :: b2 :: rest)
  | wf_ED b0 b1 b2 rest :
      b0 = 0xED -> 0x80 <= b1 <= 0x9F -> 0x80 <= b2 <= 0xBF ->
      well_formed_utf8 rest -> well_formed_utf8 (b0 :: b1 :: b2 :: rest)
  | wf_EE_EF b0 b1 b2 rest :
      0xEE <= b0 <= 0xEF -> 0x80 <= b1 <= 0xBF -> 0x80 <= b2 <= 0xBF ->
      well_formed_utf8 rest -> well_formed_utf8 (b0 :: b1 :: b2 :: rest)
  | wf_F0 b0 b1 b2 b3 rest :
      b0 = 0xF0 -> 0x90 <= b1 <= 0xBF -> 0x80 <= b2 <= 0xBF ->
      0x80 <= b3 <= 0xBF ->
      well_formed_utf8 rest -> well_formed_utf8 (b0 :: b1 :: b2 :: b3 :: rest)
  | wf_F1_F3 b0 b1 b2 b3 rest :
      0xF1 <= b0 <= 0xF3 -> 0x80 <= b1 <= 0xBF -> 0x80 <= b2 <= 0xBF ->
      0x80 <= b3 <= 0xBF ->
      well_formed_utf8 rest -> well_formed_utf8 (b0 :: b1 :: b2 :: b3 :: rest)
  | wf_F4 b0 b1 b2 b3 rest :
      b0 = 0xF4 -> 0x80 <= b1 <= 0x8F -> 0x80 <= b2 <= 0xBF ->
      0x80 <= b3 <= 0xBF ->
      well_formed_utf8 rest -> well_formed_utf8 (b0 :: b1 :: b2 :: b3 :: rest).

(** A code unit that fits its 16 bits. *)
Definition is_wchar (u : wchar) : Prop := 0 <= u < 0x10000.

(** A text of 16-bit code units in which every surrogate is one half of a
    pair. *)
Inductive well_formed_utf16 : list wchar -> Prop :=
  | wf16_empty : well_formed_utf16 []
  | wf16_unit u rest :
      0 <= u < 0x10000 -> ~ 0xD800 <= u <= 0xDFFF ->
      well_formed_utf16 rest -> well_formed_utf16 (u :: rest)
  | wf16_pair high low rest :
      0xD800 <= high <= 0xDBFF -> 0xDC00 <= low <= 0xDFFF ->
      well_formed_utf16 rest -> well_formed_utf16 (high :: low :: rest).

End Sequences.

(** ** Saved texts *)

(** The bytes of [data] that are skipped: the mark of [enc] when [data]
    begins with it. *)
Definition skipped (enc : TextEncoding) (data : list byte) : nat :=
  if bool_decide (bom_of enc `prefix_of` data) then 2 else 0.

(** What a text is saved as: the bytes SaveTextFile leaves in the file when
    it succeeds. *)
Definition saved_as `{Locale} (enc : TextEncoding) (text : list wchar)
    : list byte :=
  match enc with
  | ENC_UTF16LE => BOM_UTF16LE ++ memory_of_wchars text
  | ENC_ANSI => wide_to_acp text
  | ENC_UTF16BE | ENC_UTF8 => BOM_UTF8 ++ utf8_of_wide text
  end.

(** The texts a code page holds: those it converts to bytes that convert
    back to the text. *)
Definition acp_holds `{Locale} (text : list wchar) : Prop :=
  wide_to_acp text <> [] /\ acp_to_wide (wide_to_acp text) = text.

(** Saving [text] in the encoding [enc] succeeds, and decoding the bytes of
    the file in the same encoding gives [text] back. *)
Definition round_trips `{Locale} (enc : TextEncoding) (text : list wchar)
    : Prop :=
  forall (w : World) (path : string) (w2 : World),
    quiet w ->
    allocations_succeed w2 ->
    exists w' bytes,
      SaveTextFile path text (length text) enc w = (true, w')
      /\ files w' !! path = Some bytes
      /\ fst (DecodeToWide bytes enc w2) = Some (text, length text).

(** ** What a computation returns and what it leaves alone *)

(** [Q] holds of what [m] returns and of the world it leaves, when it is run
    in [w]. *)
Definition wp {A} (m : M A) (Q : A -> World -> Prop) (w : World) : Prop :=
  Q (fst (m w)) (snd (m w)).

(** The document is the same in both worlds: the text and the flag of the
    edit control, the path, the flag and the encoding of g_app. *)
Definition same_document (w w' : World) : Prop :=
  edit_text w' = edit_text w /\ edit_modify w' = edit_modify w
  /\ currentPath w' = currentPath w /\ modified w' = modified w
  /\ encoding w' = encoding w.

(** Every file but the one at [path] is the same in both worlds. *)
Definition same_files_but (path : string) (w w' : World) : Prop :=
  forall other, other <> path -> files w' !! other = files w !! other.

(** The calls still to come in [w'] are calls that were still to come in
    [w]: what lies between the two worlds has used up some of the outcomes
    and scripted none. *)
Definition consumes (w w' : World) : Prop :=
  heap_script w' `suffix_of` heap_script w
  /\ io_script w' `suffix_of` io_script w.

(** The changes made to the document of [w] are settled in [w']: there were
    none, or the user answered No to the question whether to save them, or a
    file of [w'] holds the text as it is saved in the encoding of the
    document. *)
Definition changes_settled `{Locale} (answer : Answer) (w w' : World) : Prop :=
  modified w = false \/ answer = IDNO
  \/ exists path,
       files w' !! path = Some (saved_as (encoding w) (edit_text w)).

(** Behind [m], run in [w], g_app.modified is the modification flag of the
    edit control. *)
Definition in_step {A} (m : M A) (w : World) : Prop :=
  modified (snd (m w)) = edit_modify (snd (m w)).

(** The world behind an event. *)
Definition logged (e : Event) (w : World) : World :=
  mkWorld (edit_text w) (edit_modify w) (currentPath w) (modified w)
    (encoding w) (files w) (heap_script w) (io_script w) (save_dialog w)
    (trace w ++ [e]).

(** * Properties *)

(** ** Occurrences and wcsstr *)

Lemma starts_with_true needle s :
  starts_with needle s = true <-> take (length needle) s = needle.
Proof.
  revert s. induction needle as [|a needle IH]; intros [|b s]; simpl.
  - tauto.
  - tauto.
  - split; discriminate.
  - rewrite andb_true_iff, Z.eqb_eq, IH. split.
    + intros [-> ->]. reflexivity.
    + intros Heq. injection Heq as -> ->. auto.
Qed.

Lemma starts_with_occurs hay needle :
  starts_with needle hay = true <-> occurs_at hay needle 0.
Proof. unfold occurs_at. rewrite drop_0. apply starts_with_true. Qed.

Lemma occurs_at_cons x hay needle i :
  occurs_at (x :: hay) needle (S i) <-> occurs_at hay needle i.
Proof. reflexivity. Qed.

Lemma occurs_at_bound hay needle i :
  needle <> [] -> occurs_at hay needle i -> i + length needle <= length hay.
Proof.
  unfold occurs_at. intros Hne Hocc.
  assert (Hlen : length (take (length needle) (drop i hay)) = length needle)
    by (rewrite Hocc; reflexivity).
  rewrite length_take, length_drop in Hlen.
  destruct needle; [congruence|]. cbn [length] in *. lia.
Qed.

Lemma occurs_at_drop hay needle p k :
  occurs_at (drop p hay) needle k <-> occurs_at hay needle (p + k).
Proof. unfold occurs_at. rewrite drop_drop. reflexivity. Qed.

Lemma wcsstr_Some s needle k :
  wcsstr s needle = Some k ->
  occurs_at s needle k /\ forall j, j < k -> ~ occurs_at s needle j.
Proof.
  revert k. induction s as [|x s IH]; intros k; simpl.
  - destruct (starts_with needle []) eqn:Hsw; [|discriminate].
    intros [= <-]. split; [by apply starts_with_occurs | lia].
  - destruct (starts_with needle (x :: s)) eqn:Hsw.
    + intros [= <-]. split; [by apply starts_with_occurs | lia].
    + destruct (wcsstr s needle) as [k'|] eqn:Hrec; [|discriminate].
      intros [= <-]. destruct (IH k' eq_refl) as [Hocc Hmin]. split.
      * by apply occurs_at_cons.
      * intros [|j] Hj.
        -- rewrite <- starts_with_occurs. congruence.
        -- rewrite occurs_at_cons. apply Hmin. lia.
Qed.

Lemma wcsstr_None s needle :
  wcsstr s needle = None -> forall j, ~ occurs_at s needle j.
Proof.
  induction s as [|x s IH]; simpl.
  - destruct (starts_with needle []) eqn:Hsw; [discriminate|].
    intros _ j Hocc. unfold occurs_at in Hocc. rewrite drop_nil in Hocc.
    rewrite <- starts_with_true in Hocc. congruence.
  - destruct (starts_with needle (x :: s)) eqn:Hsw; [discriminate|].
    destruct (wcsstr s needle) eqn:Hrec; [discriminate|].
    intros _ [|j].
    + rewrite <- starts_with_occurs. congruence.
    + rewrite occurs_at_cons. by apply IH.
Qed.

Lemma wcsstr_at_Some buf p needle idx :
  wcsstr_at buf p needle = Some idx ->
  p <= idx /\ occurs_at buf needle idx
  /\ forall j, p <= j -> j < idx -> ~ occurs_at buf needle j.
Proof.
  unfold wcsstr_at. destruct (wcsstr (drop p buf) needle) as [k|] eqn:Hk;
    [|discriminate].
  intros [= <-]. apply wcsstr_Some in Hk as [Hocc Hmin].
  split; [lia|]. split; [by apply occurs_at_drop|].
  intros j Hpj Hj Hoccj. apply (Hmin (j - p)); [lia|].
  apply occurs_at_drop. by replace (p + (j - p)) with j by lia.
Qed.

Lemma wcsstr_at_None buf p needle :
  wcsstr_at buf p needle = None ->
  forall j, p <= j -> ~ occurs_at buf needle j.
Proof.
  unfold wcsstr_at. destruct (wcsstr (drop p buf) needle) eqn:Hk;
    [discriminate|].
  intros _ j Hpj Hocc. apply (wcsstr_None _ _ Hk (j - p)).
  apply occurs_at_drop. by replace (p + (j - p)) with j by lia.
Qed.

(** ** Worlds without failures *)

Lemma HeapAlloc_succeeds bytes w :
  allocations_succeed w -> HeapAlloc bytes w = (true, after_alloc w).
Proof.
  unfold allocations_succeed, HeapAlloc, after_alloc.
  destruct (heap_script w) as [|b rest]; simpl; [reflexivity|].
  intros Hall. inversion Hall; subst. reflexivity.
Qed.

Lemma after_alloc_succeeds w :
  allocations_succeed w -> allocations_succeed (after_alloc w).
Proof.
  unfold allocations_succeed, after_alloc. simpl.
  destruct (heap_script w); simpl; [auto|]. by inversion 1.
Qed.

#[local] Hint Resolve after_alloc_succeeds : core.

Lemma CharLowerBuffW_all `{Locale} buf :
  CharLowerBuffW buf (length buf) = map CharLowerW buf.
Proof.
  unfold CharLowerBuffW. by rewrite firstn_all, drop_all, app_nil_r.
Qed.

Lemma StringCchCopyW_all s : StringCchCopyW (length s + 1) s = s.
Proof.
  unfold StringCchCopyW. replace (length s + 1 - 1) with (length s) by lia.
  apply firstn_all.
Qed.

Lemma GetEditText_succeeds w :
  allocations_succeed w ->
  GetEditText w = (Some (edit_text w, length (edit_text w)), after_alloc w).
Proof.
  intros Hok. unfold GetEditText, bind, GetWindowTextLengthW.
  rewrite HeapAlloc_succeeds by done. simpl.
  unfold GetWindowTextW, ret. simpl.
  replace (length (edit_text w) + 1 - 1) with (length (edit_text w)) by lia.
  by rewrite firstn_all.
Qed.

(** ** Find *)

Lemma FindInEdit_run `{Locale} w needle matchCase searchDown startPos :
  needle <> [] ->
  allocations_succeed w ->
  FindInEdit (Some needle) matchCase searchDown startPos w =
    (match found_offset (comparison matchCase (edit_text w))
             (comparison matchCase needle) searchDown startPos with
     | Some pos => Some (pos, pos + length needle)
     | None => None
     end, after_alloc (after_alloc w)).
Proof.
  intros Hne Hok. unfold FindInEdit.
  destruct needle as [|c needle]; [congruence|].
  cbn [null_or_empty]. unfold bind at 1.
  rewrite GetEditText_succeeds by done.
  unfold bind at 1. rewrite HeapAlloc_succeeds by auto.
  cbn [negb deref default wcslen].
  rewrite StringCchCopyW_all.
  assert (Hret : forall (found : option nat) (n : nat) (w' : World),
             match found with
             | Some pos => ret (Some (pos, pos + n))
             | None => ret None
             end w'
             = (match found with
                | Some pos => Some (pos, pos + n)
                | None => None
                end, w'))
    by (intros [?|] ? ?; reflexivity).
  unfold found_offset, comparison.
  destruct matchCase; cbn [negb].
  - apply Hret.
  - rewrite !CharLowerBuffW_all, length_map. apply Hret.
Qed.

Section FindLoops.
Variables hay ndl : list wchar.
Hypothesis ndl_not_empty : ndl <> [].

Lemma occurs_below_length i : occurs_at hay ndl i -> i < length hay.
Proof.
  intros Hocc. pose proof (occurs_at_bound _ _ _ ndl_not_empty Hocc).
  destruct ndl; [congruence|]. cbn [length] in *. lia.
Qed.

Lemma backward_scan_spec sp fuel : forall p found,
  length hay < p + fuel ->
  (forall f, found = Some f -> occurs_at hay ndl f /\ f < sp) ->
  (forall j, occurs_at hay ndl j -> j < sp -> j < p ->
             exists f, found = Some f /\ j <= f) ->
  (forall f, backward_scan fuel hay ndl sp p found = Some f ->
             occurs_at hay ndl f /\ f < sp)
  /\ (forall j, occurs_at hay ndl j -> j < sp ->
                exists f, backward_scan fuel hay ndl sp p found = Some f
                          /\ j <= f).
Proof.
  induction fuel as [|fuel IH]; intros p found Hfuel Hfound Hseen; simpl.
  - split; [exact Hfound|]. intros j Hocc Hj. apply Hseen; auto.
    pose proof (occurs_below_length _ Hocc). lia.
  - destruct (wcsstr_at hay p ndl) as [idx|] eqn:Hstr.
    + apply wcsstr_at_Some in Hstr as (Hle & Hocc & Hmin).
      destruct (Nat.ltb_spec idx sp) as [Hlt|Hge].
      * apply IH.
        -- lia.
        -- intros f [= <-]. auto.
        -- intros j _ _ Hj. exists idx. split; [reflexivity | lia].
      * split; [exact Hfound|]. intros j Hoccj Hj.
        destruct (Nat.lt_ge_cases j p) as [Hjp|Hjp]; [by apply Hseen|].
        exfalso. apply (Hmin j); auto. lia.
    + split; [exact Hfound|]. intros j Hoccj Hj.
      destruct (Nat.lt_ge_cases j p) as [Hjp|Hjp]; [by apply Hseen|].
      exfalso. by apply (wcsstr_at_None _ _ _ Hstr j).
Qed.

Lemma backward_wrap_spec from fuel : forall p found,
  length hay < p + fuel ->
  (forall f, found = Some f -> occurs_at hay ndl f /\ from <= f) ->
  (forall j, occurs_at hay ndl j -> from <= j -> j < p ->
             exists f, found = Some f /\ j <= f) ->
  from <= p ->
  (forall f, backward_wrap fuel hay ndl p found = Some f ->
             occurs_at hay ndl f /\ from <= f)
  /\ (forall j, occurs_at hay ndl j -> from <= j ->
                exists f, backward_wrap fuel hay ndl p found = Some f
                          /\ j <= f).
Proof.
  induction fuel as [|fuel IH]; intros p found Hfuel Hfound Hseen Hfrom; simpl.
  - split; [exact Hfound|]. intros j Hocc Hj. apply Hseen; auto.
    pose proof (occurs_below_length _ Hocc). lia.
  - destruct (wcsstr_at hay p ndl) as [idx|] eqn:Hstr.
    + apply wcsstr_at_Some in Hstr as (Hle & Hocc & Hmin).
      apply IH.
      * lia.
      * intros f [= <-]. split; [done | lia].
      * intros j _ _ Hj. exists idx. split; [reflexivity | lia].
      * lia.
    + split; [exact Hfound|]. intros j Hoccj Hj.
      destruct (Nat.lt_ge_cases j p) as [Hjp|Hjp]; [by apply Hseen|].
      exfalso. by apply (wcsstr_at_None _ _ _ Hstr j).
Qed.

Lemma wcsstr_at_beyond p : length hay < p -> wcsstr_at hay p ndl = None.
Proof.
  intros Hp. destruct (wcsstr_at hay p ndl) as [idx|] eqn:Hstr; [|done].
  apply wcsstr_at_Some in Hstr as (Hle & Hocc & _).
  pose proof (occurs_below_length _ Hocc). lia.
Qed.

(** The loops end before their fuel does: any two amounts of fuel that
    cover the rest of the text give the same result. *)
Lemma backward_scan_fuel sp fuel : forall fuel' p found,
  length hay < p + fuel -> length hay < p + fuel' ->
  backward_scan fuel hay ndl sp p found
  = backward_scan fuel' hay ndl sp p found.
Proof.
  induction fuel as [|fuel IH]; intros [|fuel'] p found Hfuel Hfuel';
    cbn [backward_scan]; try done.
  - by rewrite wcsstr_at_beyond by lia.
  - by rewrite wcsstr_at_beyond by lia.
  - destruct (wcsstr_at hay p ndl) as [idx|] eqn:Hstr; [|done].
    apply wcsstr_at_Some in Hstr as (Hle & _ & _).
    destruct (idx <? sp); [|done]. apply IH; lia.
Qed.

Lemma backward_wrap_fuel fuel : forall fuel' p found,
  length hay < p + fuel -> length hay < p + fuel' ->
  backward_wrap fuel hay ndl p found = backward_wrap fuel' hay ndl p found.
Proof.
  induction fuel as [|fuel IH]; intros [|fuel'] p found Hfuel Hfuel';
    cbn [backward_wrap]; try done.
  - by rewrite wcsstr_at_beyond by lia.
  - by rewrite wcsstr_at_beyond by lia.
  - destruct (wcsstr_at hay p ndl) as [idx|] eqn:Hstr; [|done].
    apply wcsstr_at_Some in Hstr as (Hle & _ & _). apply IH; lia.
Qed.

(** The backward search, by what it returns. *)
Lemma found_offset_backward startPos :
  (forall i, last_occurrence_below hay ndl startPos i ->
             found_offset hay ndl false startPos = Some i)
  /\ ((forall j, occurs_at hay ndl j -> ~ j < startPos) ->
      startPos < length hay ->
      forall i, last_occurrence_from hay ndl startPos i ->
                found_offset hay ndl false startPos = Some i)
  /\ ((forall j, ~ occurs_at hay ndl j) ->
      found_offset hay ndl false startPos = None).
Proof.
  unfold found_offset. cbv zeta.
  set (len := length hay).
  set (sp := if len <? startPos then len else startPos).
  assert (Hsp : sp = Nat.min startPos len)
    by (unfold sp; destruct (Nat.ltb_spec len startPos); lia).
  destruct (backward_scan_spec sp (S len) 0 None) as [Hsound Hcomplete];
    [lia | discriminate | lia |].
  destruct (backward_wrap_spec sp (S len) sp None) as [Wsound Wcomplete];
    [lia | discriminate | lia | lia |].
  split; [|split].
  - intros i (Hocc & Hi & Hmax).
    pose proof (occurs_below_length _ Hocc) as Hlen. fold len in Hlen.
    destruct (Hcomplete i Hocc) as (f & Hf & Hif); [lia|].
    rewrite Hf. cbn [is_null andb]. f_equal.
    destruct (Hsound f Hf) as [Hoccf Hfsp].
    specialize (Hmax f Hoccf). lia.
  - intros Hnone Hlt i (Hocc & Hi & Hmax).
    destruct (backward_scan (S len) hay ndl sp 0 None) as [f|] eqn:Hscan.
    { destruct (Hsound f eq_refl) as [Hoccf Hfsp].
      exfalso. apply (Hnone f Hoccf). lia. }
    cbn [is_null andb]. fold len in Hlt.
    assert (sp = startPos) as Hsp' by lia.
    destruct (Nat.ltb_spec sp len); [|lia].
    destruct (Wcomplete i Hocc) as (f & Hf & Hif); [lia|].
    rewrite Hf. f_equal.
    destruct (Wsound f Hf) as [Hoccf Hfsp].
    specialize (Hmax f Hoccf). lia.
  - intros Hnone.
    destruct (backward_scan (S len) hay ndl sp 0 None) as [f|] eqn:Hscan.
    { destruct (Hsound f eq_refl) as [Hoccf _]. by destruct (Hnone f). }
    cbn [is_null andb].
    destruct (sp <? len); [|reflexivity].
    destruct (backward_wrap (S len) hay ndl sp None) as [f|] eqn:Hwrap;
      [|reflexivity].
    destruct (Wsound f eq_refl) as [Hoccf _]. by destruct (Hnone f).
Qed.

(** The forward search, by what it returns. *)
Lemma found_offset_forward startPos :
  (forall i, first_occurrence_from hay ndl (Nat.min startPos (length hay)) i ->
             found_offset hay ndl true startPos = Some i)
  /\ ((forall j, occurs_at hay ndl j ->
                 ~ Nat.min startPos (length hay) <= j) ->
      0 < startPos ->
      forall i, first_occurrence_from hay ndl 0 i ->
                found_offset hay ndl true startPos = Some i)
  /\ ((forall j, ~ occurs_at hay ndl j) ->
      found_offset hay ndl true startPos = None).
Proof.
  unfold found_offset. cbv zeta.
  set (len := length hay).
  set (sp := if len <? startPos then len else startPos).
  assert (Hsp : sp = Nat.min startPos len)
    by (unfold sp; destruct (Nat.ltb_spec len startPos); lia).
  rewrite <- Hsp.
  split; [|split].
  - intros i (Hocc & Hi & Hmin).
    destruct (wcsstr_at hay sp ndl) as [f|] eqn:Hstr.
    + cbn [is_null andb]. f_equal.
      apply wcsstr_at_Some in Hstr as (Hle & Hoccf & Hfirst).
      specialize (Hmin f Hoccf Hle).
      destruct (Nat.lt_ge_cases i f) as [Hlt|Hge]; [|lia].
      by destruct (Hfirst i Hi Hlt).
    + by destruct (wcsstr_at_None _ _ _ Hstr i Hi).
  - intros Hnone Hpos i (Hocc & _ & Hmin).
    pose proof (occurs_below_length _ Hocc) as Hlen. fold len in Hlen.
    destruct (wcsstr_at hay sp ndl) as [f|] eqn:Hstr.
    { apply wcsstr_at_Some in Hstr as (Hle & Hoccf & _).
      by destruct (Hnone f Hoccf). }
    cbn [is_null andb].
    destruct (Nat.ltb_spec 0 sp); [|lia].
    destruct (wcsstr_at hay 0 ndl) as [f|] eqn:Hwrap.
    + f_equal. apply wcsstr_at_Some in Hwrap as (_ & Hoccf & Hfirst).
      specialize (Hmin f Hoccf ltac:(lia)).
      destruct (Nat.lt_ge_cases i f) as [Hlt|Hge]; [|lia].
      destruct (Hfirst i); auto. lia.
    + destruct (wcsstr_at_None _ _ _ Hwrap i); auto. lia.
  - intros Hnone.
    destruct (wcsstr_at hay sp ndl) as [f|] eqn:Hstr.
    { apply wcsstr_at_Some in Hstr as (_ & Hoccf & _).
      by destruct (Hnone f). }
    cbn [is_null andb].
    destruct (0 <? sp); [|reflexivity].
    destruct (wcsstr_at hay 0 ndl) as [f|] eqn:Hwrap; [|reflexivity].
    apply wcsstr_at_Some in Hwrap as (_ & Hoccf & _). by destruct (Hnone f).
Qed.

End FindLoops.

Lemma comparison_length `{Locale} matchCase s :
  length (comparison matchCase s) = length s.
Proof. destruct matchCase; simpl; [reflexivity | apply length_map]. Qed.

Lemma comparison_not_empty `{Locale} matchCase s :
  s <> [] -> comparison matchCase s <> [].
Proof. destruct matchCase, s; simpl; congruence. Qed.

Lemma document_allocations text : allocations_succeed (document text).
Proof. constructor. Qed.

#[local] Hint Resolve document_allocations : core.

(** Lower-casing of ASCII code units that are written out. *)
Ltac lower_ascii :=
  repeat first
    [ rewrite CharLowerW_other by lia
    | rewrite CharLowerW_upper by lia ].

(** The code units of the ASCII literals of the goal. *)
Ltac eval_literals :=
  repeat match goal with
  | |- context [L ?s] =>
    let v := eval vm_compute in (L s) in change (L s) with v
  end.

(** Runs FindInEdit on a document written out as an ASCII literal. *)
Ltac run_find :=
  eval_literals;
  rewrite FindInEdit_run by (auto; discriminate);
  unfold comparison, document; cbn [fst edit_text];
  match goal with
  | |- context [if ?mc then _ else _] => destruct mc
  end;
  cbn [map]; lower_ascii; reflexivity.

(** C3. Backward search ends on the last occurrence that starts below
    startPos; when there is none and startPos is inside the text, it wraps
    and ends on the last occurrence that starts at or after startPos; when
    the needle does not occur, nothing is found.  Occurrences are those of
    the comparison copy of the needle in the comparison copy of the text.
    In "xaxa", "a" searched backward from offset 3 is found at [1,2). *)
Theorem find_backward_last_match `{Locale} (w : World) (needle : list wchar)
    (matchCase : bool) (startPos : nat) :
  needle <> [] ->
  allocations_succeed w ->
  let hay := comparison matchCase (edit_text w) in
  let ndl := comparison matchCase needle in
  let result := fst (FindInEdit (Some needle) matchCase false startPos w) in
  (forall i, last_occurrence_below hay ndl startPos i ->
             result = Some (i, i + length needle))
  /\ ((forall j, occurs_at hay ndl j -> ~ j < startPos) ->
      startPos < length (edit_text w) ->
      forall i, last_occurrence_from hay ndl startPos i ->
                result = Some (i, i + length needle))
  /\ ((forall j, ~ occurs_at hay ndl j) -> result = None)
  /\ (forall mc,
        fst (FindInEdit (Some (L "a")) mc false 3 (document (L "xaxa")))
        = Some (1, 2)).
Proof.
  intros Hne Hok hay ndl result.
  assert (Hndl : ndl <> []) by by apply comparison_not_empty.
  destruct (found_offset_backward hay ndl Hndl startPos) as (Hlast & Hwrap & Hnone).
  assert (Hresult : result = match found_offset hay ndl false startPos with
                             | Some pos => Some (pos, pos + length needle)
                             | None => None
                             end)
    by (unfold result; by rewrite FindInEdit_run).
  repeat split.
  - intros i Hi. by rewrite Hresult, (Hlast i Hi).
  - intros Hno Hlt i Hi. rewrite Hresult, (Hwrap Hno) with (i := i); auto.
    unfold hay. by rewrite comparison_length.
  - intros Hno. by rewrite Hresult, (Hnone Hno).
  - intros mc. run_find.
Qed.

(** C4. Forward search clamps startPos to the length of the text and ends on
    the first occurrence at or after it; when there is none and startPos is
    above 0, it wraps and ends on the first occurrence of the text; when the
    needle does not occur, nothing is found.  In "abcabc", "abc" searched
    forward from offset 3 is found at [3,6) and from offset 4 at [0,3). *)
Theorem find_forward_first_match `{Locale} (w : World) (needle : list wchar)
    (matchCase : bool) (startPos : nat) :
  needle <> [] ->
  allocations_succeed w ->
  let hay := comparison matchCase (edit_text w) in
  let ndl := comparison matchCase needle in
  let clamped := Nat.min startPos (length (edit_text w)) in
  let result := fst (FindInEdit (Some needle) matchCase true startPos w) in
  (forall i, first_occurrence_from hay ndl clamped i ->
             result = Some (i, i + length needle))
  /\ ((forall j, occurs_at hay ndl j -> ~ clamped <= j) ->
      0 < startPos ->
      forall i, first_occurrence_from hay ndl 0 i ->
                result = Some (i, i + length needle))
  /\ ((forall j, ~ occurs_at hay ndl j) -> result = None)
  /\ (forall mc,
        fst (FindInEdit (Some (L "abc")) mc true 3 (document (L "abcabc")))
        = Some (3, 6)
        /\ fst (FindInEdit (Some (L "abc")) mc true 4 (document (L "abcabc")))
           = Some (0, 3)).
Proof.
  intros Hne Hok hay ndl clamped result.
  assert (Hndl : ndl <> []) by by apply comparison_not_empty.
  destruct (found_offset_forward hay ndl Hndl startPos) as (Hfirst & Hwrap & Hnone).
  assert (Hclamped : clamped = Nat.min startPos (length hay))
    by (unfold clamped, hay; by rewrite comparison_length).
  rewrite <- Hclamped in Hfirst, Hwrap.
  assert (Hresult : result = match found_offset hay ndl true startPos with
                             | Some pos => Some (pos, pos + length needle)
                             | None => None
                             end)
    by (unfold result; by rewrite FindInEdit_run).
  repeat split.
  - intros i Hi. by rewrite Hresult, (Hfirst i Hi).
  - intros Hno Hlt i Hi. by rewrite Hresult, (Hwrap Hno Hlt i Hi).
  - intros Hno. by rewrite Hresult, (Hnone Hno).
  - run_find.
  - run_find.
Qed.

Lemma find_backward_last_match_witness :
  L "a" <> [] /\ allocations_succeed (document (L "xaxa"))
  /\ fst (FindInEdit (Some (L "a")) true false 3 (document (L "xaxa")))
     = Some (1, 1 + length (L "a")).
Proof.
  assert (Hne : L "a" <> []) by discriminate.
  assert (Hok : allocations_succeed (document (L "xaxa"))) by constructor.
  split; [exact Hne|]. split; [exact Hok|].
  apply (proj1 (find_backward_last_match (document (L "xaxa")) (L "a") true 3
                  Hne Hok) 1).
  split; [reflexivity|]. split; [lia|].
  intros j Hocc Hj.
  do 3 (destruct j as [|j];
        [first [lia | exfalso; vm_compute in Hocc; congruence]|]).
  lia.
Defined.

Lemma find_forward_first_match_witness :
  L "abc" <> [] /\ allocations_succeed (document (L "abcabc"))
  /\ fst (FindInEdit (Some (L "abc")) true true 4 (document (L "abcabc")))
     = Some (0, 0 + length (L "abc")).
Proof.
  assert (Hne : L "abc" <> []) by discriminate.
  assert (Hok : allocations_succeed (document (L "abcabc"))) by constructor.
  split; [exact Hne|]. split; [exact Hok|].
  refine (proj1 (proj2 (find_forward_first_match (document (L "abcabc"))
                          (L "abc") true 4 Hne Hok)) _ _ 0 _).
  - intros j Hocc Hj. change (4 `min` 6 <= j) in Hj.
    pose proof (occurs_at_bound _ _ j Hne Hocc) as Hbound.
    change (j + 3 <= 6) in Hbound. lia.
  - lia.
  - split; [reflexivity|]. split; lia.
Defined.

(** C9. With an empty needle (or none) FindInEdit finds nothing and
    ReplaceAllOccurrences replaces nothing: it returns 0 and leaves the text
    and the rest of the state as they are, whatever the text, the flags, the
    direction, the start offset and the replacement. *)
Theorem empty_needle_never_matches `{Locale} (w : World)
    (matchCase searchDown : bool) (startPos : nat)
    (replacement : option (list wchar)) :
  FindInEdit (Some []) matchCase searchDown startPos w = (None, w)
  /\ FindInEdit None matchCase searchDown startPos w = (None, w)
  /\ ReplaceAllOccurrences (Some []) replacement matchCase w = (0, w)
  /\ ReplaceAllOccurrences None replacement matchCase w = (0, w).
Proof. repeat split. Qed.

(** ** Replace all *)

Section ReplaceLoops.
Variables hay ndl text repl : list wchar.
Hypothesis ndl_not_empty : ndl <> [].
Hypothesis same_length : length text = length hay.

Lemma replace_loops fuel : forall p count dst,
  length hay < p + fuel ->
  exists positions,
    greedy_scan hay ndl p positions
    /\ count_occurrences fuel hay ndl (length ndl) p count
       = count + length positions
    /\ (let '(written, origCur) :=
          build_result fuel hay text ndl (length ndl) repl (length repl)
            dst p p in
        written ++ drop origCur text
        = dst ++ splice text p positions (length ndl) repl).
Proof.
  induction fuel as [|fuel IH]; intros p count dst Hfuel; simpl.
  - exists []. split; [|split; [simpl; lia | reflexivity]].
    apply scan_end. intros j Hj Hocc.
    pose proof (occurs_below_length _ _ ndl_not_empty _ Hocc). lia.
  - destruct (wcsstr_at hay p ndl) as [idx|] eqn:Hstr.
    + apply wcsstr_at_Some in Hstr as (Hle & Hocc & Hmin).
      replace (p + (idx - p)) with idx by lia.
      destruct (IH (idx + length ndl) (count + 1)
                  (if 0 <? length repl
                   then CopyMemory (CopyMemory dst text p (idx - p)) repl 0
                          (length repl)
                   else CopyMemory dst text p (idx - p)))
        as (rest & Hscan & Hcount & Hbuild).
      { destruct ndl; [congruence|]. cbn [length]. lia. }
      exists (idx :: rest). split; [|split].
      * apply scan_hit; [|exact Hscan].
        split; [exact Hocc|]. split; [exact Hle|].
        intros j Hoccj Hj. destruct (Nat.lt_ge_cases j idx); [|lia].
        by destruct (Hmin j).
      * rewrite Hcount. cbn [length]. lia.
      * destruct (build_result _ _ _ _ _ _ _ _ _ _) as [written origCur].
        rewrite Hbuild. cbn [splice]. unfold CopyMemory.
        rewrite drop_0, firstn_all.
        destruct (Nat.ltb_spec 0 (length repl)) as [Hpos|Hzero].
        -- by rewrite <- !app_assoc.
        -- destruct repl; [|cbn [length] in Hzero; lia].
           by rewrite <- !app_assoc.
    + exists []. split; [|split; [simpl; lia | reflexivity]].
      apply scan_end. intros j Hj. by apply (wcsstr_at_None _ _ _ Hstr).
Qed.

Lemma count_occurrences_fuel fuel : forall fuel' p count,
  length hay < p + fuel -> length hay < p + fuel' ->
  count_occurrences fuel hay ndl (length ndl) p count
  = count_occurrences fuel' hay ndl (length ndl) p count.
Proof.
  assert (Hpos : 0 < length ndl) by (destruct ndl; [done | cbn; lia]).
  induction fuel as [|fuel IH]; intros [|fuel'] p count Hfuel Hfuel';
    cbn [count_occurrences]; try done.
  - by rewrite wcsstr_at_beyond by (done || lia).
  - by rewrite wcsstr_at_beyond by (done || lia).
  - destruct (wcsstr_at hay p ndl) as [idx|] eqn:Hstr; [|done].
    apply wcsstr_at_Some in Hstr as (Hle & _ & _). apply IH; lia.
Qed.

Lemma build_result_fuel fuel : forall fuel' dst p q,
  length hay < p + fuel -> length hay < p + fuel' ->
  build_result fuel hay text ndl (length ndl) repl (length repl) dst p q
  = build_result fuel' hay text ndl (length ndl) repl (length repl) dst p q.
Proof.
  assert (Hpos : 0 < length ndl) by (destruct ndl; [done | cbn; lia]).
  induction fuel as [|fuel IH]; intros [|fuel'] dst p q Hfuel Hfuel';
    cbn [build_result]; try done.
  - by rewrite wcsstr_at_beyond by (done || lia).
  - by rewrite wcsstr_at_beyond by (done || lia).
  - destruct (wcsstr_at hay p ndl) as [idx|] eqn:Hstr; [|done].
    apply wcsstr_at_Some in Hstr as (Hle & _ & _). apply IH; lia.
Qed.

Lemma greedy_scan_bound p positions :
  greedy_scan hay ndl p positions ->
  p <= length hay ->
  length positions * length ndl <= length hay - p
  /\ length (splice text p positions (length ndl) repl)
       + length positions * length ndl
     = length hay - p + length positions * length repl.
Proof.
  induction 1 as [cursor Hnone | cursor i rest (Hocc & Hle & Hfirst) Hscan IH];
    intros Hp; cbn [splice length].
  - rewrite length_drop. lia.
  - pose proof (occurs_at_bound _ _ _ ndl_not_empty Hocc) as Hbound.
    destruct IH as [IHcount IHlen]; [lia|].
    rewrite !length_app, length_take, length_drop. split; lia.
Qed.

End ReplaceLoops.

Lemma ReplaceAllOccurrences_run `{Locale} w needle replacement matchCase :
  needle <> [] ->
  allocations_succeed w ->
  exists positions w',
    greedy_scan (comparison matchCase (edit_text w))
      (comparison matchCase needle) 0 positions
    /\ ReplaceAllOccurrences (Some needle) replacement matchCase w
       = (length positions, w')
    /\ edit_text w'
       = splice (edit_text w) 0 positions (length needle) (deref replacement)
    /\ (positions <> [] -> modified w' = true).
Proof.
  intros Hne Hok.
  set (text := edit_text w).
  set (hay := comparison matchCase text).
  set (ndl := comparison matchCase needle).
  assert (Hndl : ndl <> []) by by apply comparison_not_empty.
  assert (Hlen : length text = length hay)
    by (unfold hay; by rewrite comparison_length).
  destruct (replace_loops hay ndl text (deref replacement) Hndl Hlen
              (S (length hay)) 0 0 []) as (positions & Hscan & Hcount & Hbuild);
    [lia|].
  exists positions.
  assert (Hndl_len : length ndl = length needle)
    by (unfold ndl; by rewrite comparison_length).
  rewrite Hndl_len in Hcount, Hbuild. rewrite <- Hlen in Hcount, Hbuild.
  assert (Hrepl : match replacement with
                  | Some r => wcslen r
                  | None => 0
                  end = length (deref replacement))
    by (destruct replacement; reflexivity).
  assert (Hsearch : (if negb matchCase
                     then CharLowerBuffW (StringCchCopyW (length text + 1) text)
                            (length text)
                     else StringCchCopyW (length text + 1) text) = hay).
  { rewrite StringCchCopyW_all. unfold hay, comparison.
    destruct matchCase; cbn [negb]; [reflexivity | apply CharLowerBuffW_all]. }
  assert (Hneedle : (if negb matchCase
                     then CharLowerBuffW
                            (StringCchCopyW (length needle + 1) needle)
                            (length needle)
                     else StringCchCopyW (length needle + 1) needle) = ndl).
  { rewrite StringCchCopyW_all. unfold ndl, comparison.
    destruct matchCase; cbn [negb]; [reflexivity | apply CharLowerBuffW_all]. }
  unfold ReplaceAllOccurrences.
  destruct needle as [|c needle_tl] eqn:Hneedle_eq; [congruence|].
  cbn [null_or_empty]. rewrite <- Hneedle_eq in *.
  unfold bind at 1. rewrite GetEditText_succeeds by done. fold text.
  unfold bind at 1. rewrite HeapAlloc_succeeds by auto.
  unfold bind at 1. rewrite HeapAlloc_succeeds by auto.
  cbn [negb orb deref default]. change (id needle) with needle.
  unfold wcslen in *.
  rewrite Hrepl, Hsearch, Hneedle, Hcount. cbn [Nat.add].
  destruct positions as [|i rest].
  - cbn [length Nat.eqb]. unfold ret. eexists. split; [exact Hscan|].
    split; [reflexivity|]. cbn [splice edit_text after_alloc].
    rewrite drop_0. split; [reflexivity | congruence].
  - cbn [length Nat.eqb]. unfold bind at 1.
    rewrite HeapAlloc_succeeds by auto. cbn [negb].
    destruct (build_result _ _ _ _ _ _ _ _ _ _) as [written origCur].
    cbn [app] in Hbuild. unfold CopyMemory.
    rewrite firstn_all, Hbuild.
    eexists. split; [exact Hscan|].
    split; [reflexivity|]. split; reflexivity.
Qed.

(** Runs ReplaceAllOccurrences on a document written out as an ASCII
    literal. *)
Ltac run_replace :=
  eval_literals;
  cbn -[CharLowerW count_occurrences build_result Z.of_nat Z.mul Z.add Z.sub];
  lower_ascii; split; reflexivity.

(** C5. ReplaceAllOccurrences counts the occurrences a left-to-right scan
    without overlap meets (the scan resumes behind each occurrence), the
    occurrences fit into the text, and the new text has exactly
    length - count * needleLength + count * replacementLength code units.
    This is so whenever the three buffers of the code have sizes that
    size_t holds: the copy of the text, the copy of the needle, and the
    result of [newLen] code units.  Replacing "aa" by "b" in "aaa" with
    matchCase makes 1 replacement and leaves "ba". *)
Theorem replace_all_count_and_length `{Locale} (w : World)
    (needle : list wchar) (replacement : option (list wchar))
    (matchCase : bool) :
  needle <> [] ->
  allocations_succeed w ->
  let hay := comparison matchCase (edit_text w) in
  let ndl := comparison matchCase needle in
  let run := ReplaceAllOccurrences (Some needle) replacement matchCase w in
  let count := fst run in
  let newText := edit_text (snd run) in
  let newLen :=
    (Z.of_nat (length (edit_text w)) - Z.of_nat count * Z.of_nat (length needle)
     + Z.of_nat count * Z.of_nat (length (deref replacement)))%Z in
  buffer_fits (Z.of_nat (length (edit_text w))) ->
  buffer_fits (Z.of_nat (length needle)) ->
  buffer_fits newLen ->
  (exists positions, greedy_scan hay ndl 0 positions /\ count = length positions)
  /\ count * length needle <= length (edit_text w)
  /\ Z.of_nat (length newText) = newLen
  /\ (let run :=
        ReplaceAllOccurrences (Some (L "aa")) (Some (L "b")) true
          (document (L "aaa")) in
      fst run = 1 /\ edit_text (snd run) = L "ba").
Proof.
  intros Hne Hok hay ndl run count newText newLen _ _ _.
  destruct (ReplaceAllOccurrences_run w needle replacement matchCase Hne Hok)
    as (positions & w' & Hscan & Hrun & Htext & _).
  fold hay ndl in Hscan.
  assert (Hndl : ndl <> []) by by apply comparison_not_empty.
  assert (Hlen : length (edit_text w) = length hay)
    by (unfold hay; by rewrite comparison_length).
  assert (Hndl_len : length ndl = length needle)
    by (unfold ndl; by rewrite comparison_length).
  destruct (greedy_scan_bound hay ndl (edit_text w) (deref replacement)
              Hndl Hlen 0 positions Hscan) as [Hfit Hsize]; [lia|].
  rewrite Hndl_len in Hfit, Hsize.
  unfold newLen, newText, count, run. rewrite Hrun. cbn [fst snd].
  rewrite Htext. split; [|split; [|split]].
  - by exists positions.
  - lia.
  - lia.
  - run_replace.
Qed.

Lemma replace_all_count_and_length_witness :
  let run :=
    ReplaceAllOccurrences (Some (L "aa")) (Some (L "b")) true
      (document (L "aaa")) in
  L "aa" <> [] /\ allocations_succeed (document (L "aaa"))
  /\ buffer_fits (Z.of_nat (length (L "aaa")))
  /\ buffer_fits (Z.of_nat (length (L "aa")))
  /\ buffer_fits
       (Z.of_nat (length (L "aaa"))
        - Z.of_nat (fst run) * Z.of_nat (length (L "aa"))
        + Z.of_nat (fst run) * Z.of_nat (length (L "b")))
  /\ fst run * length (L "aa") <= length (L "aaa")
  /\ Z.of_nat (length (edit_text (snd run))) = 2%Z.
Proof.
  intros run.
  assert (Hne : L "aa" <> []) by discriminate.
  assert (Hok : allocations_succeed (document (L "aaa"))) by constructor.
  assert (Htext : buffer_fits (Z.of_nat (length (L "aaa"))))
    by (vm_compute; split; discriminate).
  assert (Hneedle : buffer_fits (Z.of_nat (length (L "aa"))))
    by (vm_compute; split; discriminate).
  assert (Hresult : buffer_fits
            (Z.of_nat (length (L "aaa"))
             - Z.of_nat (fst run) * Z.of_nat (length (L "aa"))
             + Z.of_nat (fst run) * Z.of_nat (length (L "b"))))
    by (vm_compute; split; discriminate).
  split; [exact Hne|]. split; [exact Hok|]. split; [exact Htext|].
  split; [exact Hneedle|]. split; [exact Hresult|].
  destruct (replace_all_count_and_length (document (L "aaa")) (L "aa")
              (Some (L "b")) true Hne Hok Htext Hneedle Hresult)
    as (_ & Hfit & Hlen & _).
  split; [exact Hfit|]. exact Hlen.
Defined.

(** C6. Without matchCase the occurrences are those of the lower-cased needle
    in the lower-cased copy of the text, and the new text is the original
    text in which those spans are replaced: every span between them, and
    the tail, is copied from the original text as it is.  This is so
    whenever the three buffers of the code have sizes that size_t holds: the
    copy of the text, the copy of the needle, and the result of [newLen]
    code units.  Replacing "Foo" by "X" in "foo FOO bar" leaves "X X bar". *)
Theorem replace_all_keeps_original_case `{Locale} (w : World)
    (needle : list wchar) (replacement : option (list wchar)) :
  needle <> [] ->
  allocations_succeed w ->
  let run := ReplaceAllOccurrences (Some needle) replacement false w in
  let count := fst run in
  let newLen :=
    (Z.of_nat (length (edit_text w)) - Z.of_nat count * Z.of_nat (length needle)
     + Z.of_nat count * Z.of_nat (length (deref replacement)))%Z in
  buffer_fits (Z.of_nat (length (edit_text w))) ->
  buffer_fits (Z.of_nat (length needle)) ->
  buffer_fits newLen ->
  (exists positions,
     greedy_scan (map CharLowerW (edit_text w)) (map CharLowerW needle) 0
       positions
     /\ fst run = length positions
     /\ edit_text (snd run)
        = splice (edit_text w) 0 positions (length needle) (deref replacement))
  /\ (let run :=
        ReplaceAllOccurrences (Some (L "Foo")) (Some (L "X")) false
          (document (L "foo FOO bar")) in
      fst run = 2 /\ edit_text (snd run) = L "X X bar").
Proof.
  intros Hne Hok run count newLen _ _ _.
  destruct (ReplaceAllOccurrences_run w needle replacement false Hne Hok)
    as (positions & w' & Hscan & Hrun & Htext & _).
  split.
  - exists positions. unfold run. rewrite Hrun. by repeat split.
  - run_replace.
Qed.

Lemma replace_all_keeps_original_case_witness :
  let run :=
    ReplaceAllOccurrences (Some (L "Foo")) (Some (L "X")) false
      (document (L "foo FOO bar")) in
  L "Foo" <> [] /\ allocations_succeed (document (L "foo FOO bar"))
  /\ buffer_fits (Z.of_nat (length (L "foo FOO bar")))
  /\ buffer_fits (Z.of_nat (length (L "Foo")))
  /\ buffer_fits
       (Z.of_nat (length (L "foo FOO bar"))
        - Z.of_nat (fst run) * Z.of_nat (length (L "Foo"))
        + Z.of_nat (fst run) * Z.of_nat (length (L "X")))
  /\ exists positions,
       greedy_scan (map CharLowerW (L "foo FOO bar")) (map CharLowerW (L "Foo"))
         0 positions
       /\ fst (ReplaceAllOccurrences (Some (L "Foo")) (Some (L "X")) false
                 (document (L "foo FOO bar"))) = length positions
       /\ edit_text (snd (ReplaceAllOccurrences (Some (L "Foo")) (Some (L "X"))
                            false (document (L "foo FOO bar"))))
          = splice (L "foo FOO bar") 0 positions (length (L "Foo")) (L "X").
Proof.
  intros run.
  assert (Hne : L "Foo" <> []) by discriminate.
  assert (Hok : allocations_succeed (document (L "foo FOO bar")))
    by constructor.
  assert (Htext : buffer_fits (Z.of_nat (length (L "foo FOO bar"))))
    by (vm_compute; split; discriminate).
  assert (Hneedle : buffer_fits (Z.of_nat (length (L "Foo"))))
    by (vm_compute; split; discriminate).
  assert (Hresult : buffer_fits
            (Z.of_nat (length (L "foo FOO bar"))
             - Z.of_nat (fst run) * Z.of_nat (length (L "Foo"))
             + Z.of_nat (fst run) * Z.of_nat (length (L "X"))))
    by (vm_compute; split; discriminate).
  split; [exact Hne|]. split; [exact Hok|]. split; [exact Htext|].
  split; [exact Hneedle|]. split; [exact Hresult|].
  exact (proj1 (replace_all_keeps_original_case (document (L "foo FOO bar"))
                  (L "Foo") (Some (L "X")) Hne Hok Htext Hneedle Hresult)).
Defined.

(** ** Well-formed UTF-8 *)

Lemma in_range_reflect lo hi b :
  BoolSpec ((lo <= b <= hi)%Z) (~ (lo <= b <= hi)%Z) (in_range lo hi b).
Proof.
  unfold in_range.
  destruct (Z.leb_spec lo b), (Z.leb_spec b hi); constructor; lia.
Qed.

(** Decides the range tests of the goal, discarding the impossible cases. *)
Ltac range_cases :=
  unfold continuation, second_byte_ok, is_high_surrogate, is_low_surrogate;
  repeat match goal with
  | |- context [in_range ?lo ?hi ?b] =>
    destruct (in_range_reflect lo hi b); try lia
  | |- context [Z.eqb ?a ?b] => destruct (Z.eqb_spec a b); try lia
  | |- context [Z.ltb ?a ?b] => destruct (Z.ltb_spec a b); try lia
  end;
  cbn [andb].

Section Utf8.
Local Open Scope Z_scope.

Lemma well_formed_utf8_decodes data :
  well_formed_utf8 data -> is_Some (wide_of_utf8 true data).
Proof.
  induction 1; cbn [wide_of_utf8]; subst;
    try (range_cases; by apply fmap_is_Some).
  by exists [].
Qed.

Lemma decodes_well_formed_utf8 n : forall data,
  (length data <= n)%nat ->
  is_Some (wide_of_utf8 true data) -> well_formed_utf8 data.
Proof.
  induction n as [|n IH]; intros [|b0 r0] Hlen; cbn [length] in Hlen;
    try lia; try (intros; apply wf_empty).
  cbn [wide_of_utf8].
  destruct (in_range_reflect 0x00 0x7F b0).
  { rewrite fmap_is_Some. intros Hrest. apply wf_00_7F; [done|].
    apply IH; [lia | done]. }
  destruct (in_range_reflect 0xC2 0xDF b0).
  { destruct r0 as [|b1 r1]; [by intros [? [=]]|].
    unfold continuation. destruct (in_range_reflect 0x80 0xBF b1);
      [|by intros [? [=]]].
    rewrite fmap_is_Some. intros Hrest. apply wf_C2_DF; [done..|].
    apply IH; [cbn [length] in *; lia | done]. }
  destruct (in_range_reflect 0xE0 0xEF b0).
  { destruct r0 as [|b1 [|b2 r2]]; [by intros [? [=]]..|].
    destruct (second_byte_ok b0 b1 && continuation b2) eqn:Hok;
      [|by intros [? [=]]].
    rewrite fmap_is_Some. intros Hrest.
    assert (Hwf : well_formed_utf8 r2)
      by (apply IH; [cbn [length] in *; lia | done]).
    revert Hok. range_cases; intros; try discriminate;
      destruct (Z.le_gt_cases b0 0xEC);
      first [ by apply wf_E0 | by apply wf_ED
            | apply wf_E1_EC; [lia | done..]
            | apply wf_EE_EF; [lia | done..] ]. }
  destruct (in_range_reflect 0xF0 0xF4 b0).
  { destruct r0 as [|b1 [|b2 [|b3 r3]]]; [by intros [? [=]]..|].
    destruct (second_byte_ok b0 b1 && continuation b2 && continuation b3)
      eqn:Hok; [|by intros [? [=]]].
    rewrite fmap_is_Some. intros Hrest.
    assert (Hwf : well_formed_utf8 r3)
      by (apply IH; [cbn [length] in *; lia | done]).
    revert Hok. range_cases; intros; try discriminate;
      first [ by apply wf_F0 | by apply wf_F4
            | apply wf_F1_F3; [lia | done..] ]. }
  by intros [? [=]].
Qed.

(** Strict conversion succeeds on the well-formed sequences and on no
    other. *)
Lemma strict_utf8_well_formed data :
  is_Some (wide_of_utf8 true data) <-> well_formed_utf8 data.
Proof.
  split.
  - by apply (decodes_well_formed_utf8 (length data)).
  - apply well_formed_utf8_decodes.
Qed.

End Utf8.

(** ** Detection *)

Section Detection.
Context `{Locale}.
Local Open Scope Z_scope.

Lemma utf16_of_scalar_not_empty c rest : utf16_of_scalar c ++ rest <> [].
Proof. unfold utf16_of_scalar. by destruct (c <? 0x10000). Qed.

Lemma wide_of_utf8_not_empty strict b r text :
  wide_of_utf8 strict (b :: r) = Some text -> text <> [].
Proof.
  cbn [wide_of_utf8].
  repeat match goal with
  | |- context [if ?c then _ else _] => destruct c
  | |- context [match ?l with [] => _ | _ :: _ => _ end] => destruct l
  end;
  try discriminate;
  match goal with
  | |- _ <$> ?o = Some _ -> _ =>
    destruct o; cbn [fmap option_fmap option_map]; intros [= <-];
    first [done | apply utf16_of_scalar_not_empty]
  end.
Qed.

(** The validating call of DetectEncoding returns a positive length on the
    non-empty well-formed sequences and on no other. *)
Lemma validation_call data :
  (0 <? length (MultiByteToWideChar CP_UTF8 MB_ERR_INVALID_CHARS data))%nat
  = true
  <-> data <> [] /\ well_formed_utf8 data.
Proof.
  destruct data as [|b r]; cbn [MultiByteToWideChar].
  - split; [discriminate | by intros [? _]].
  - change (Z.testbit MB_ERR_INVALID_CHARS 3) with true.
    rewrite <- strict_utf8_well_formed.
    destruct (wide_of_utf8 true (b :: r)) as [text|] eqn:Hdec; cbn [default].
    + apply wide_of_utf8_not_empty in Hdec.
      destruct text; [done|]. split; [by intros _; split; eauto | done].
    + split; [discriminate | by intros [_ [? [=]]]].
Qed.

Lemma prefix_two (a b : byte) data :
  [a; b] `prefix_of` data
  <-> (2 <=? length data)%nat && (at_index data 0 =? a) && (at_index data 1 =? b)
      = true.
Proof.
  destruct data as [|x [|y rest]]; cbn [length at_index nth Nat.leb andb].
  - split; [intros [k [=]] | discriminate].
  - split; [intros [k [=]] | discriminate].
  - rewrite andb_true_iff, !Z.eqb_eq. split.
    + intros [k [= -> -> _]]. done.
    + intros [-> ->]. by exists rest.
Qed.

Lemma prefix_three (a b c : byte) data :
  [a; b; c] `prefix_of` data
  <-> (3 <=? length data)%nat && (at_index data 0 =? a) && (at_index data 1 =? b)
        && (at_index data 2 =? c)
      = true.
Proof.
  destruct data as [|x [|y [|z rest]]]; cbn [length at_index nth Nat.leb andb].
  - split; [intros [k [=]] | discriminate].
  - split; [intros [k [=]] | discriminate].
  - split; [intros [k [=]] | discriminate].
  - rewrite !andb_true_iff, !Z.eqb_eq. split.
    + intros [k [= -> -> -> _]]. done.
    + intros [[-> ->] ->]. by exists rest.
Qed.

(** DetectEncoding as the cascade it runs through. *)
Lemma DetectEncoding_cascade data :
  (BOM_UTF16LE `prefix_of` data -> DetectEncoding data = ENC_UTF16LE)
  /\ (BOM_UTF16BE `prefix_of` data -> DetectEncoding data = ENC_UTF16BE)
  /\ (BOM_UTF8 `prefix_of` data -> DetectEncoding data = ENC_UTF8)
  /\ (~ BOM_UTF16LE `prefix_of` data -> ~ BOM_UTF16BE `prefix_of` data ->
      ~ BOM_UTF8 `prefix_of` data ->
      (data <> [] /\ well_formed_utf8 data -> DetectEncoding data = ENC_UTF8)
      /\ (~ (data <> [] /\ well_formed_utf8 data) ->
          DetectEncoding data = ENC_ANSI)).
Proof.
  unfold BOM_UTF16LE, BOM_UTF16BE, BOM_UTF8.
  rewrite !prefix_two, prefix_three, <- validation_call.
  unfold DetectEncoding.
  destruct ((2 <=? length data)%nat && (at_index data 0 =? 0xFF)
            && (at_index data 1 =? 0xFE)) eqn:Hle.
  { repeat split; try done.
    - apply andb_true_iff in Hle as [Hle _].
      apply andb_true_iff in Hle as [_ Hle]. apply Z.eqb_eq in Hle.
      rewrite Hle. cbn. by rewrite !andb_false_r.
    - apply andb_true_iff in Hle as [Hle _].
      apply andb_true_iff in Hle as [_ Hle]. apply Z.eqb_eq in Hle.
      rewrite Hle. cbn. by rewrite !andb_false_r. }
  destruct ((2 <=? length data)%nat && (at_index data 0 =? 0xFE)
            && (at_index data 1 =? 0xFF)) eqn:Hbe.
  { repeat split; try done.
    apply andb_true_iff in Hbe as [Hbe _].
    apply andb_true_iff in Hbe as [_ Hbe]. apply Z.eqb_eq in Hbe.
    rewrite Hbe. cbn. by rewrite !andb_false_r. }
  destruct ((3 <=? length data)%nat && (at_index data 0 =? 0xEF)
            && (at_index data 1 =? 0xBB) && (at_index data 2 =? 0xBF)) eqn:H8.
  { repeat split; done. }
  repeat split; try done.
  - by intros ->.
  - intros Hno. by destruct (0 <? _)%nat.
Qed.

End Detection.

(** The empty sequence has no byte order mark and is well-formed UTF-8, and
    DetectEncoding classifies it as ANSI: its validating call returns 0 on an
    input of zero bytes. *)
Lemma empty_sequence_is_classified_ansi :
  well_formed_utf8 []
  /\ ~ BOM_UTF16LE `prefix_of` []
  /\ ~ BOM_UTF16BE `prefix_of` []
  /\ ~ BOM_UTF8 `prefix_of` []
  /\ DetectEncoding [] = ENC_ANSI
  /\ DetectEncoding [] <> ENC_UTF8.
Proof.
  split; [apply wf_empty|].
  repeat split; try (intros [k Hk]; discriminate); discriminate.
Qed.

(** C7. DetectEncoding runs a fixed cascade: a sequence that begins with
    FF FE is UTF-16LE, one that begins with FE FF is UTF-16BE, one that begins
    with EF BB BF is UTF-8; a sequence without any of these marks, of a
    length that the int of the validating call holds, is UTF-8 when it is not
    empty and well-formed UTF-8, and ANSI otherwise (so the empty sequence is
    ANSI).  A sequence that begins with FF FE EF BB BF is UTF-16LE. *)
Theorem detect_cascade `{Locale} (data : list byte) :
  (BOM_UTF16LE `prefix_of` data -> DetectEncoding data = ENC_UTF16LE)
  /\ (BOM_UTF16BE `prefix_of` data -> DetectEncoding data = ENC_UTF16BE)
  /\ (BOM_UTF8 `prefix_of` data -> DetectEncoding data = ENC_UTF8)
  /\ (~ BOM_UTF16LE `prefix_of` data -> ~ BOM_UTF16BE `prefix_of` data ->
      ~ BOM_UTF8 `prefix_of` data ->
      (Z.of_nat (length data) <= INT_MAX)%Z ->
      (data <> [] -> well_formed_utf8 data -> DetectEncoding data = ENC_UTF8)
      /\ (data = [] \/ ~ well_formed_utf8 data ->
          DetectEncoding data = ENC_ANSI))
  /\ (forall rest,
        DetectEncoding (0xFF :: 0xFE :: 0xEF :: 0xBB :: 0xBF :: rest)%Z
        = ENC_UTF16LE).
Proof.
  destruct (DetectEncoding_cascade data) as (Hle & Hbe & H8 & Hrest).
  split; [exact Hle|]. split; [exact Hbe|]. split; [exact H8|]. split.
  - intros Hno_le Hno_be Hno_8 _.
    destruct (Hrest Hno_le Hno_be Hno_8) as [Hutf8 Hansi]. split.
    + intros Hne Hwf. by apply Hutf8.
    + intros Hbad. apply Hansi. intros [Hne Hwf]. by destruct Hbad.
  - intros rest.
    apply (proj1 (DetectEncoding_cascade _)). by exists (0xEF :: 0xBB :: 0xBF :: rest)%Z.
Qed.

Lemma detect_cascade_witness :
  (BOM_UTF16BE `prefix_of` [0xFE; 0xFF; 0x00; 0x41]%Z
   /\ DetectEncoding [0xFE; 0xFF; 0x00; 0x41]%Z = ENC_UTF16BE)
  /\ ((Z.of_nat (length [0xC3; 0xA9]%Z) <= INT_MAX)%Z
      /\ [0xC3; 0xA9]%Z <> [] /\ well_formed_utf8 [0xC3; 0xA9]%Z
      /\ DetectEncoding [0xC3; 0xA9]%Z = ENC_UTF8)
  /\ ((Z.of_nat (length [0xC3]%Z) <= INT_MAX)%Z
      /\ ~ well_formed_utf8 [0xC3]%Z /\ DetectEncoding [0xC3]%Z = ENC_ANSI).
Proof.
  assert (Hsize2 : (Z.of_nat (length [0xC3; 0xA9]%Z) <= INT_MAX)%Z)
    by (vm_compute; discriminate).
  assert (Hsize1 : (Z.of_nat (length [0xC3]%Z) <= INT_MAX)%Z)
    by (vm_compute; discriminate).
  assert (Hbom : BOM_UTF16BE `prefix_of` [0xFE; 0xFF; 0x00; 0x41]%Z)
    by (by exists [0x00; 0x41]%Z).
  assert (Hwf : well_formed_utf8 [0xC3; 0xA9]%Z)
    by (apply wf_C2_DF; [lia | lia | apply wf_empty]).
  assert (Hbad : ~ well_formed_utf8 [0xC3]%Z)
    by (intros Hwf1; inversion Hwf1; lia).
  assert (Hno : forall (b : byte) (bom data : list byte),
            Some b <> head data -> ~ (b :: bom) `prefix_of` data)
    by (intros b bom data Hhd [k ->]; by destruct Hhd).
  split; [|split].
  - split; [exact Hbom|].
    exact (proj1 (proj2 (detect_cascade [0xFE; 0xFF; 0x00; 0x41]%Z)) Hbom).
  - split; [exact Hsize2|]. split; [discriminate|]. split; [exact Hwf|].
    refine (proj1 (proj1 (proj2 (proj2 (proj2
              (detect_cascade [0xC3; 0xA9]%Z)))) _ _ _ Hsize2) _ Hwf);
      try (apply Hno; discriminate).
    discriminate.
  - split; [exact Hsize1|]. split; [exact Hbad|].
    refine (proj2 (proj1 (proj2 (proj2 (proj2
              (detect_cascade [0xC3]%Z)))) _ _ _ Hsize1) (or_intror Hbad));
      apply Hno; discriminate.
Defined.

(** ** Decoding UTF-16 *)

Section DecodeUtf16.
Context `{Locale}.

Lemma half_bounds a : 2 * (a / 2) <= a < 2 * (a / 2) + 2.
Proof.
  pose proof (Nat.div_mod_eq a 2). pose proof (Nat.mod_upper_bound a 2). lia.
Qed.

Lemma wchars_of_memory_length n : forall mem,
  length mem <= n -> length (wchars_of_memory mem) = length mem / 2.
Proof.
  induction n as [|n IH]; intros [|lo [|hi rest]] Hlen;
    cbn [length wchars_of_memory] in *; try reflexivity; try lia.
  rewrite IH by lia.
  change (S (S (length rest))) with (1 * 2 + length rest).
  rewrite Nat.div_add_l by lia. lia.
Qed.

Lemma wchars_of_memory_lookup i : forall mem lo hi,
  mem !! (i * 2) = Some lo -> mem !! (i * 2 + 1) = Some hi ->
  wchars_of_memory mem !! i = Some (Z.lor lo (Z.shiftl hi 8)).
Proof.
  induction i as [|i IH]; intros [|a [|b rest]] lo hi Hlo Hhi;
    cbn in Hlo, Hhi; try discriminate.
  - by injection Hlo as ->; injection Hhi as ->.
  - cbn [wchars_of_memory]. by apply IH.
Qed.

Lemma at_index_lookup (data : list byte) i b :
  data !! i = Some b -> at_index data i = b.
Proof.
  unfold at_index. revert i. induction data as [|x data IH]; intros [|i];
    cbn; try discriminate; [by intros [= ->] | apply IH].
Qed.

Lemma skipped_test enc a b data :
  bom_of enc = [a; b] ->
  2 <= length data ->
  (if (at_index data 0 =? a)%Z && (at_index data 1 =? b)%Z then 2 else 0)
  = skipped enc data.
Proof.
  intros Hbom Hlen. unfold skipped. rewrite Hbom.
  pose proof (prefix_two a b data) as Hprefix.
  destruct (Nat.leb_spec 2 (length data)); [|lia]. cbn [andb] in Hprefix.
  case_bool_decide as Hdec.
  - apply Hprefix in Hdec. by rewrite Hdec.
  - destruct (_ && _); [|done]. by destruct Hdec; apply Hprefix.
Qed.

(** DecodeToWide on the two UTF-16 encodings, when no allocation fails. *)
Lemma DecodeToWide_utf16 w data enc :
  enc = ENC_UTF16LE \/ enc = ENC_UTF16BE ->
  2 <= length data ->
  allocations_succeed w ->
  exists text,
    DecodeToWide data enc w = (Some (text, length text), after_alloc w)
    /\ length text = (length data - skipped enc data) / 2
    /\ forall i first second,
         data !! (skipped enc data + i * 2) = Some first ->
         data !! (skipped enc data + i * 2 + 1) = Some second ->
         text !! i = Some (code_unit enc first second).
Proof.
  intros Henc Hlen Hok.
  destruct Henc as [-> | ->]; unfold DecodeToWide;
    (destruct (Nat.ltb_spec (length data) 2); [lia|]).
  - rewrite (skipped_test ENC_UTF16LE) by done.
    set (off := skipped ENC_UTF16LE data).
    assert (Hoff : off <= 2) by (unfold off, skipped; case_bool_decide; lia).
    unfold bind. rewrite HeapAlloc_succeeds by done. cbn [negb]. unfold ret.
    set (count := (length data - off) / 2).
    pose proof (half_bounds (length data - off)) as Hhalf. fold count in Hhalf.
    assert (Hcount : count * 2 <= length data - off) by lia.
    set (text := wchars_of_memory _).
    assert (Htext : length text = count).
    { unfold text. rewrite (wchars_of_memory_length _ _ (Nat.le_refl _)).
      rewrite length_take, length_drop. unfold sizeof_WCHAR.
      rewrite Nat.min_l by lia. by rewrite Nat.div_mul. }
    exists text. rewrite Htext. split; [done|]. split; [done|].
    intros i lo hi Hlo Hhi.
    assert (Hi : i * 2 + 1 < count * 2).
    { apply lookup_lt_Some in Hhi. lia. }
    apply wchars_of_memory_lookup.
    + rewrite lookup_take_lt by (unfold sizeof_WCHAR; lia).
      by rewrite lookup_drop.
    + rewrite lookup_take_lt by (unfold sizeof_WCHAR; lia).
      by rewrite lookup_drop, Nat.add_assoc.
  - rewrite (skipped_test ENC_UTF16BE) by done.
    set (off := skipped ENC_UTF16BE data).
    unfold bind. rewrite HeapAlloc_succeeds by done. cbn [negb]. unfold ret.
    set (count := (length data - off) / 2).
    pose proof (half_bounds (length data - off)) as Hhalf. fold count in Hhalf.
    eexists. rewrite length_map, length_seq. split; [done|]. split; [done|].
    intros i b0 b1 Hb0 Hb1.
    assert (Hi : i < count).
    { apply lookup_lt_Some in Hb1. lia. }
    rewrite list_lookup_fmap, lookup_seq_lt by done. cbn.
    by rewrite (at_index_lookup _ _ _ Hb0), (at_index_lookup _ _ _ Hb1).
Qed.

End DecodeUtf16.

Section DecodeUtf16Total.
Context `{Locale}.

Lemma skipped_app enc data extra :
  enc = ENC_UTF16LE \/ enc = ENC_UTF16BE ->
  2 <= length data ->
  skipped enc (data ++ extra) = skipped enc data.
Proof.
  intros Henc Hlen. unfold skipped.
  destruct data as [|a [|b rest]]; cbn [length] in Hlen; try lia.
  assert (Hiff : bom_of enc `prefix_of` (a :: b :: rest) ++ extra
                 <-> bom_of enc `prefix_of` a :: b :: rest).
  { destruct Henc as [-> | ->]; cbn [bom_of];
      unfold BOM_UTF16LE, BOM_UTF16BE; split.
    all: intros [k Hk]; cbn in Hk; injection Hk as -> -> _; by eexists. }
  do 2 case_bool_decide; tauto.
Qed.

Lemma skipped_le_2 enc data : skipped enc data <= 2.
Proof. unfold skipped. case_bool_decide; lia. Qed.

(** C8. On UTF-16LE and UTF-16BE, with no allocation failing, DecodeToWide
    fails exactly on the inputs shorter than 2 bytes.  On a longer input it
    skips the mark of the encoding when the input begins with it, and returns
    floor(usable bytes / 2) code units, each made of two bytes that follow
    each other; a last byte without a partner is dropped, and an input that
    is the mark alone gives the empty text. *)
Theorem decode_utf16_total (w : World) (data : list byte) (enc : TextEncoding) :
  enc = ENC_UTF16LE \/ enc = ENC_UTF16BE ->
  allocations_succeed w ->
  let result := fst (DecodeToWide data enc w) in
  (result = None <-> length data < 2)
  /\ (2 <= length data ->
      exists text,
        result = Some (text, length text)
        /\ length text = (length data - skipped enc data) / 2
        /\ forall i first second,
             data !! (skipped enc data + i * 2) = Some first ->
             data !! (skipped enc data + i * 2 + 1) = Some second ->
             text !! i = Some (code_unit enc first second))
  /\ (forall extra,
        2 <= length data ->
        Nat.Even (length data - skipped enc data) ->
        fst (DecodeToWide (data ++ [extra]) enc w) = result)
  /\ fst (DecodeToWide (bom_of enc) enc w) = Some ([], 0).
Proof.
  intros Henc Hok result.
  assert (Hshort : length data < 2 -> result = None).
  { intros Hlt. unfold result, DecodeToWide.
    destruct Henc as [-> | ->];
      by destruct (Nat.ltb_spec (length data) 2); [|lia]. }
  assert (Hlong : 2 <= length data ->
            exists text,
              result = Some (text, length text)
              /\ length text = (length data - skipped enc data) / 2
              /\ forall i first second,
                   data !! (skipped enc data + i * 2) = Some first ->
                   data !! (skipped enc data + i * 2 + 1) = Some second ->
                   text !! i = Some (code_unit enc first second)).
  { intros Hlen.
    destruct (DecodeToWide_utf16 w data enc Henc Hlen Hok)
      as (text & Hrun & Hrest).
    exists text. unfold result. by rewrite Hrun. }
  split; [|split; [exact Hlong|split]].
  - split; [|exact Hshort].
    intros Hnone. destruct (Nat.lt_ge_cases (length data) 2) as [|Hge]; [done|].
    destruct (Hlong Hge) as (text & Hsome & _). congruence.
  - intros extra Hlen [half Heven].
    destruct (Hlong Hlen) as (text & -> & Htext & Hunits).
    destruct (DecodeToWide_utf16 w (data ++ [extra]) enc Henc) as
      (text' & -> & Htext' & Hunits'); [rewrite length_app; lia | done |].
    rewrite skipped_app in Htext', Hunits' by done.
    pose proof (skipped_le_2 enc data) as Hoff.
    rewrite length_app in Htext'. cbn [length fst] in *.
    assert (Hsame : length text' = length text).
    { rewrite Htext, Htext'.
      replace (length data + 1 - skipped enc data) with (1 + half * 2) by lia.
      replace (length data - skipped enc data) with (half * 2) by lia.
      rewrite Nat.div_add, Nat.div_mul by lia. reflexivity. }
    assert (Htexts : text' = text); [|by rewrite Htexts].
    apply list_eq. intros i.
    destruct (Nat.lt_ge_cases i (length text)) as [Hi|Hi].
    + pose proof (half_bounds (length data - skipped enc data)) as Hhalf.
      rewrite <- Htext in Hhalf.
      destruct (lookup_lt_is_Some_2 data (skipped enc data + i * 2))
        as [first Hfirst]; [lia|].
      destruct (lookup_lt_is_Some_2 data (skipped enc data + i * 2 + 1))
        as [second Hsecond]; [lia|].
      rewrite (Hunits i first second) by done.
      apply Hunits'; by apply lookup_app_l_Some.
    + rewrite !lookup_ge_None_2 by lia. reflexivity.
  - destruct (DecodeToWide_utf16 w (bom_of enc) enc Henc) as
      (text & -> & Htext & _); [by destruct Henc as [-> | ->] | done |].
    assert (Hskip : skipped enc (bom_of enc) = 2)
      by (unfold skipped; by rewrite bool_decide_eq_true_2).
    rewrite Hskip in Htext.
    assert (Hzero : length text = 0)
      by (rewrite Htext; by destruct Henc as [-> | ->]).
    destruct text; [done | discriminate].
Qed.

End DecodeUtf16Total.

Lemma decode_utf16_total_witness :
  (ENC_UTF16BE = ENC_UTF16LE \/ ENC_UTF16BE = ENC_UTF16BE)
  /\ allocations_succeed (document [])
  /\ (fst (DecodeToWide [0xFE%Z] ENC_UTF16BE (document [])) = None
      <-> length [0xFE%Z] < 2)
  /\ fst (DecodeToWide (bom_of ENC_UTF16BE) ENC_UTF16BE (document []))
     = Some ([], 0).
Proof.
  assert (Henc : ENC_UTF16BE = ENC_UTF16LE \/ ENC_UTF16BE = ENC_UTF16BE)
    by (by right).
  assert (Hok : allocations_succeed (document [])) by constructor.
  split; [exact Henc|]. split; [exact Hok|]. split.
  - exact (proj1 (decode_utf16_total (document []) [0xFE%Z] ENC_UTF16BE
                    Henc Hok)).
  - exact (proj2 (proj2 (proj2 (decode_utf16_total (document []) [0xFE%Z]
                                  ENC_UTF16BE Henc Hok)))).
Defined.

(** ** Files without failures *)

Lemma io_outcome_succeeds w :
  file_calls_succeed w -> io_outcome w = (true, after_io w).
Proof.
  unfold file_calls_succeed, io_outcome, after_io.
  destruct (io_script w) as [|b rest]; simpl; [reflexivity|].
  intros Hall. inversion Hall; subst. reflexivity.
Qed.

Lemma after_io_succeeds w :
  file_calls_succeed w -> file_calls_succeed (after_io w).
Proof.
  unfold file_calls_succeed, after_io. simpl.
  destruct (io_script w); simpl; [auto|]. by inversion 1.
Qed.

Lemma after_io_allocations w :
  allocations_succeed w -> allocations_succeed (after_io w).
Proof. done. Qed.

Lemma after_alloc_file_calls w :
  file_calls_succeed w -> file_calls_succeed (after_alloc w).
Proof. done. Qed.

Lemma with_files_allocations fs w :
  allocations_succeed w -> allocations_succeed (with_files fs w).
Proof. done. Qed.

Lemma with_files_file_calls fs w :
  file_calls_succeed w -> file_calls_succeed (with_files fs w).
Proof. done. Qed.

Create HintDb worlds.
#[local] Hint Resolve after_alloc_succeeds after_io_succeeds
  after_io_allocations after_alloc_file_calls with_files_allocations
  with_files_file_calls : worlds.

Lemma CreateFileW_OPEN_EXISTING_succeeds w path content :
  files w !! path = Some content ->
  file_calls_succeed w ->
  CreateFileW_OPEN_EXISTING path w = (Some path, after_io w).
Proof.
  intros Hfile Hio. unfold CreateFileW_OPEN_EXISTING, bind.
  rewrite io_outcome_succeeds by done. unfold get_files.
  cbn [files after_io]. by rewrite Hfile.
Qed.

Lemma GetFileSizeEx_succeeds w file content :
  files w !! file = Some content ->
  file_calls_succeed w ->
  GetFileSizeEx file w = (Some (Z.of_nat (length content)), after_io w).
Proof.
  intros Hfile Hio. unfold GetFileSizeEx, bind.
  rewrite io_outcome_succeeds by done. unfold get_files, ret.
  cbn [files after_io]. by rewrite Hfile.
Qed.

Lemma ReadFile_succeeds w file bytes content :
  files w !! file = Some content ->
  file_calls_succeed w ->
  ReadFile file bytes w = (Some (take bytes content), after_io w).
Proof.
  intros Hfile Hio. unfold ReadFile, bind.
  rewrite io_outcome_succeeds by done. unfold get_files, ret.
  cbn [files after_io]. by rewrite Hfile.
Qed.

Lemma CreateFileW_CREATE_ALWAYS_succeeds w path :
  file_calls_succeed w ->
  CreateFileW_CREATE_ALWAYS path w
  = (Some path, with_files (<[path := []]> (files w)) (after_io w)).
Proof.
  intros Hio. unfold CreateFileW_CREATE_ALWAYS, bind.
  by rewrite io_outcome_succeeds by done.
Qed.

Lemma WriteFile_succeeds w file data :
  file_calls_succeed w ->
  WriteFile file data w
  = (true,
     with_files (<[file := default [] (files w !! file) ++ data]> (files w))
       (after_io w)).
Proof.
  intros Hio. unfold WriteFile, bind.
  by rewrite io_outcome_succeeds by done.
Qed.

Lemma HeapAlloc_trace bytes w : trace (snd (HeapAlloc bytes w)) = trace w.
Proof. unfold HeapAlloc. by destruct (next_outcome _). Qed.

Lemma DecodeToWide_trace `{Locale} data enc w :
  trace (snd (DecodeToWide data enc w)) = trace w.
Proof.
  unfold DecodeToWide, bind, ret.
  destruct enc;
    repeat match goal with
    | |- context [if ?c then _ else _] => destruct c
    | |- context [HeapAlloc ?n ?w] =>
      pose proof (HeapAlloc_trace n w); destruct (HeapAlloc n w) as [[] ?]
    end; done.
Qed.

(** ** Loading *)

(** LoadTextFile up to the point where the file has been read. *)
Lemma LoadTextFile_reads `{Locale} w path content :
  files w !! path = Some content ->
  (Z.of_nat (length content) <= UINT_MAX)%Z ->
  file_calls_succeed w ->
  allocations_succeed w ->
  exists w',
    trace w' = trace w /\ allocations_succeed w'
    /\ LoadTextFile path w =
       (if length content =? 0 then
          empty <- HeapAlloc (Z.of_nat sizeof_WCHAR) ;;
          if negb empty then ret (false, mkLoaded None 0 ENC_UTF8)
          else ret (true, mkLoaded (Some []) 0 ENC_UTF8)
        else
          record (Called "DetectEncoding") ;;;
          record (Called "DecodeToWide") ;;;
          decoded <- DecodeToWide content (DetectEncoding content) ;;
          match decoded with
          | None =>
            record (MessageBoxW "Unable to decode file.") ;;;
            ret (false, mkLoaded None 0 ENC_UTF8)
          | Some (text, len) =>
            ret (true, mkLoaded (Some text) len (DetectEncoding content))
          end) w'.
Proof.
  intros Hfile Hsize Hio Hok.
  exists (after_io (after_alloc (after_io (after_io w)))).
  split; [reflexivity|]. split; [auto 10 with worlds|].
  unfold LoadTextFile.
  unfold bind at 1.
  rewrite (CreateFileW_OPEN_EXISTING_succeeds _ _ _ Hfile Hio).
  unfold bind at 1.
  rewrite (GetFileSizeEx_succeeds _ _ content) by auto with worlds.
  destruct (Z.gtb_spec (Z.of_nat (length content)) UINT_MAX) as [|_]; [lia|].
  cbn [default from_option id]. rewrite Nat2Z.id.
  unfold bind at 1. rewrite HeapAlloc_succeeds by auto with worlds.
  cbn [negb].
  unfold bind at 1.
  rewrite (ReadFile_succeeds _ _ _ content) by auto with worlds.
  rewrite firstn_all. reflexivity.
Qed.

(** C10. Loading a file of zero bytes, with no file call and no allocation
    failing, succeeds with the empty text and the encoding UTF-8, and nothing
    is recorded on the way: DetectEncoding is not called.  (On a file that is
    not empty the call is recorded.)  DetectEncoding itself, applied to the
    empty sequence, answers ANSI, because its validating call returns 0 on
    an input of zero bytes. *)
Theorem load_empty_file `{Locale} (w : World) (path : string) :
  file_calls_succeed w ->
  allocations_succeed w ->
  (files w !! path = Some [] ->
   fst (LoadTextFile path w) = (true, mkLoaded (Some []) 0 ENC_UTF8)
   /\ trace (snd (LoadTextFile path w)) = trace w)
  /\ (forall content,
        files w !! path = Some content ->
        content <> [] ->
        (Z.of_nat (length content) <= UINT_MAX)%Z ->
        Called "DetectEncoding" ∈ trace (snd (LoadTextFile path w)))
  /\ length (MultiByteToWideChar CP_UTF8 MB_ERR_INVALID_CHARS []) = 0
  /\ DetectEncoding [] = ENC_ANSI.
Proof.
  intros Hio Hok. split; [|split; [|split; reflexivity]].
  - intros Hfile.
    destruct (LoadTextFile_reads w path [] Hfile) as (w' & Htrace & Hok' & ->);
      [done..|].
    cbn [length Nat.eqb]. unfold bind.
    rewrite HeapAlloc_succeeds by done. cbn. by rewrite Htrace.
  - intros content Hfile Hne Hsize.
    destruct (LoadTextFile_reads w path content Hfile)
      as (w' & Htrace & Hok' & ->); [done..|].
    destruct content as [|b content]; [done|]. cbn [length Nat.eqb].
    unfold bind at 1. unfold bind at 1.
    set (w2 := snd (record (Called "DecodeToWide")
                      (snd (record (Called "DetectEncoding") w')))).
    assert (Htrace2 : Called "DetectEncoding" ∈ trace w2).
    { cbn. rewrite <- app_assoc. apply elem_of_app. right. by left. }
    change (Called "DetectEncoding" ∈
            trace (snd ((decoded <- DecodeToWide (b :: content)
                                      (DetectEncoding (b :: content)) ;;
                         match decoded with
                         | None =>
                           record (MessageBoxW "Unable to decode file.") ;;;
                           ret (false, mkLoaded None 0 ENC_UTF8)
                         | Some (text, len) =>
                           ret (true, mkLoaded (Some text) len
                                        (DetectEncoding (b :: content)))
                         end) w2))).
    unfold bind at 1.
    pose proof (DecodeToWide_trace (b :: content)
                  (DetectEncoding (b :: content)) w2) as Hdec.
    destruct (DecodeToWide _ _ w2) as [[[text len]|] w3]; cbn in Hdec |- *.
    + by rewrite Hdec.
    + rewrite Hdec. apply elem_of_app. by left.
Qed.

Lemma load_empty_file_witness :
  file_calls_succeed (opened "empty.txt" ENC_ANSI (L "old") [])
  /\ allocations_succeed (opened "empty.txt" ENC_ANSI (L "old") [])
  /\ fst (LoadTextFile "empty.txt" (opened "empty.txt" ENC_ANSI (L "old") []))
     = (true, mkLoaded (Some []) 0 ENC_UTF8).
Proof.
  assert (Hio : file_calls_succeed (opened "empty.txt" ENC_ANSI (L "old") []))
    by constructor.
  assert (Hok : allocations_succeed (opened "empty.txt" ENC_ANSI (L "old") []))
    by constructor.
  split; [exact Hio|]. split; [exact Hok|].
  refine (proj1 (proj1 (load_empty_file
                          (opened "empty.txt" ENC_ANSI (L "old") [])
                          "empty.txt" Hio Hok) _)).
  apply lookup_singleton_eq.
Defined.

(** ** UTF-8 there and back *)

Section Utf8RoundTrip.
Local Open Scope Z_scope.

Lemma in_range_true lo hi b : lo <= b <= hi -> in_range lo hi b = true.
Proof. intros. by destruct (in_range_reflect lo hi b). Qed.

Lemma in_range_false lo hi b : ~ lo <= b <= hi -> in_range lo hi b = false.
Proof. intros. by destruct (in_range_reflect lo hi b). Qed.

Lemma second_byte_ok_true b0 b1 :
  0x80 <= b1 <= 0xBF ->
  (b0 = 0xE0 -> 0xA0 <= b1) -> (b0 = 0xED -> b1 <= 0x9F) ->
  (b0 = 0xF0 -> 0x90 <= b1) -> (b0 = 0xF4 -> b1 <= 0x8F) ->
  second_byte_ok b0 b1 = true.
Proof.
  intros. unfold second_byte_ok.
  repeat match goal with
  | |- context [Z.eqb ?a ?b] => destruct (Z.eqb_spec a b)
  end; apply in_range_true; lia.
Qed.

Lemma decode_one strict b rest :
  0x00 <= b <= 0x7F ->
  wide_of_utf8 strict (b :: rest) = cons b <$> wide_of_utf8 strict rest.
Proof. intros. cbn [wide_of_utf8]. by rewrite in_range_true. Qed.

Lemma decode_two strict b0 b1 rest :
  0xC2 <= b0 <= 0xDF -> 0x80 <= b1 <= 0xBF ->
  wide_of_utf8 strict (b0 :: b1 :: rest)
  = app (utf16_of_scalar ((b0 - 0xC0) * 64 + (b1 - 0x80)))
      <$> wide_of_utf8 strict rest.
Proof.
  intros. cbn [wide_of_utf8]. unfold continuation.
  rewrite (in_range_false 0x00 0x7F b0) by lia.
  by rewrite (in_range_true 0xC2 0xDF b0), (in_range_true 0x80 0xBF b1).
Qed.

Lemma decode_three strict b0 b1 b2 rest :
  0xE0 <= b0 <= 0xEF -> 0x80 <= b1 <= 0xBF -> 0x80 <= b2 <= 0xBF ->
  (b0 = 0xE0 -> 0xA0 <= b1) -> (b0 = 0xED -> b1 <= 0x9F) ->
  wide_of_utf8 strict (b0 :: b1 :: b2 :: rest)
  = app (utf16_of_scalar
           ((b0 - 0xE0) * 4096 + (b1 - 0x80) * 64 + (b2 - 0x80)))
      <$> wide_of_utf8 strict rest.
Proof.
  intros. cbn [wide_of_utf8]. unfold continuation.
  rewrite (in_range_false 0x00 0x7F b0), (in_range_false 0xC2 0xDF b0) by lia.
  rewrite (in_range_true 0xE0 0xEF b0), (in_range_true 0x80 0xBF b2) by done.
  by rewrite second_byte_ok_true by (done || lia).
Qed.

Lemma decode_four strict b0 b1 b2 b3 rest :
  0xF0 <= b0 <= 0xF4 -> 0x80 <= b1 <= 0xBF -> 0x80 <= b2 <= 0xBF ->
  0x80 <= b3 <= 0xBF ->
  (b0 = 0xF0 -> 0x90 <= b1) -> (b0 = 0xF4 -> b1 <= 0x8F) ->
  wide_of_utf8 strict (b0 :: b1 :: b2 :: b3 :: rest)
  = app (utf16_of_scalar
           ((b0 - 0xF0) * 262144 + (b1 - 0x80) * 4096 + (b2 - 0x80) * 64
            + (b3 - 0x80)))
      <$> wide_of_utf8 strict rest.
Proof.
  intros. cbn [wide_of_utf8]. unfold continuation.
  rewrite (in_range_false 0x00 0x7F b0), (in_range_false 0xC2 0xDF b0),
    (in_range_false 0xE0 0xEF b0) by lia.
  rewrite (in_range_true 0xF0 0xF4 b0), (in_range_true 0x80 0xBF b2),
    (in_range_true 0x80 0xBF b3) by done.
  by rewrite second_byte_ok_true by (done || lia).
Qed.

Lemma scalar_round_trip strict c rest :
  0 <= c < 0x110000 -> ~ 0xD800 <= c <= 0xDFFF ->
  wide_of_utf8 strict (utf8_of_scalar c ++ rest)
  = app (utf16_of_scalar c) <$> wide_of_utf8 strict rest.
Proof.
  intros Hc Hsur. unfold utf8_of_scalar.
  destruct (Z.ltb_spec c 0x80); [|destruct (Z.ltb_spec c 0x800);
    [|destruct (Z.ltb_spec c 0x10000)]]; cbn [app].
  - rewrite decode_one by lia. unfold utf16_of_scalar.
    by destruct (Z.ltb_spec c 0x10000); [|lia].
  - rewrite decode_two by (Z.div_mod_to_equations; lia).
    do 3 f_equal. Z.div_mod_to_equations; lia.
  - rewrite decode_three by (Z.div_mod_to_equations; lia).
    do 3 f_equal. Z.div_mod_to_equations; lia.
  - rewrite decode_four by (Z.div_mod_to_equations; lia).
    do 3 f_equal. Z.div_mod_to_equations; lia.
Qed.

Lemma pair_round_trip high low :
  0xD800 <= high <= 0xDBFF -> 0xDC00 <= low <= 0xDFFF ->
  utf16_of_scalar (0x10000 + (high - 0xD800) * 1024 + (low - 0xDC00))
  = [high; low].
Proof.
  intros Hhigh Hlow. unfold utf16_of_scalar.
  destruct (Z.ltb_spec (0x10000 + (high - 0xD800) * 1024 + (low - 0xDC00))
              0x10000); [lia|].
  f_equal; [|f_equal]; Z.div_mod_to_equations; lia.
Qed.

(** Converting a well-formed text to UTF-8 and back gives the text, with or
    without MB_ERR_INVALID_CHARS. *)
Lemma utf8_round_trip strict text :
  well_formed_utf16 text ->
  wide_of_utf8 strict (utf8_of_wide text) = Some text.
Proof.
  induction 1 as [|u rest Hu Hsur Hrest IH|high low rest Hhigh Hlow Hrest IH];
    [reflexivity|..]; cbn [utf8_of_wide].
  - range_cases. rewrite scalar_round_trip, IH by lia.
    unfold utf16_of_scalar. by destruct (Z.ltb_spec u 0x10000); [|lia].
  - range_cases. rewrite scalar_round_trip, IH by lia.
    cbn [fmap option_fmap option_map]. by rewrite pair_round_trip.
Qed.

Lemma utf8_of_scalar_not_empty c rest : utf8_of_scalar c ++ rest <> [].
Proof.
  unfold utf8_of_scalar.
  by destruct (c <? 0x80), (c <? 0x800), (c <? 0x10000).
Qed.

Lemma utf8_of_wide_not_empty u text : utf8_of_wide (u :: text) <> [].
Proof.
  cbn [utf8_of_wide].
  destruct (is_high_surrogate u); [destruct text as [|v text];
    [|destruct (is_low_surrogate v)]|destruct (is_low_surrogate u)];
    first [apply utf8_of_scalar_not_empty | discriminate].
Qed.

End Utf8RoundTrip.

(** ** UTF-16LE there and back *)

Section Utf16RoundTrip.
Local Open Scope Z_scope.

Lemma high_bits_zero u n : is_wchar u -> 16 <= n -> Z.testbit u n = false.
Proof.
  intros [Hlo Hhi] Hn.
  destruct (Z.eq_dec u 0) as [-> | Hnz]; [apply Z.bits_0|].
  apply Z.bits_above_log2; [lia|].
  assert (Z.log2 u < 16) by (apply Z.log2_lt_pow2; lia). lia.
Qed.

Lemma unit_of_its_bytes u :
  is_wchar u ->
  Z.lor (Z.land u 0xFF) (Z.shiftl (Z.land (Z.shiftr u 8) 0xFF) 8) = u.
Proof.
  intros Hu. apply Z.bits_inj'. intros n Hn.
  rewrite Z.lor_spec, Z.land_spec, Z.shiftl_spec by lia.
  change 0xFF with (Z.ones 8). rewrite Z.testbit_ones by lia.
  destruct (Z.lt_ge_cases n 8) as [Hlow | Hhigh].
  - rewrite (Z.testbit_neg_r _ (n - 8)) by lia.
    destruct (Z.leb_spec 0 n), (Z.ltb_spec n 8); try lia.
    by rewrite andb_true_r, orb_false_r.
  - rewrite Z.land_spec, Z.shiftr_spec, Z.testbit_ones by lia.
    replace (n - 8 + 8) with n by lia.
    destruct (Z.ltb_spec n 8); [lia|]. rewrite andb_false_r, andb_false_r.
    cbn [orb].
    destruct (Z.lt_ge_cases n 16).
    + destruct (Z.leb_spec 0 (n - 8)), (Z.ltb_spec (n - 8) 8); try lia.
      by rewrite andb_true_r.
    + rewrite (high_bits_zero u n) by done. reflexivity.
Qed.

Lemma memory_round_trip text :
  Forall is_wchar text -> wchars_of_memory (memory_of_wchars text) = text.
Proof.
  induction 1 as [|u text Hu Htext IH]; [reflexivity|].
  unfold memory_of_wchars in *. cbn [flat_map app wchars_of_memory].
  by rewrite unit_of_its_bytes, IH.
Qed.

Lemma memory_of_wchars_length text :
  length (memory_of_wchars text) = (length text * 2)%nat.
Proof.
  unfold memory_of_wchars.
  induction text as [|u text IH]; [reflexivity|].
  cbn [flat_map app length]. rewrite IH. lia.
Qed.

End Utf16RoundTrip.

(** ** Saving *)

Lemma WriteFile_appends w file old data :
  quiet w ->
  files w !! file = Some old ->
  exists w',
    WriteFile file data w = (true, w') /\ quiet w'
    /\ files w' !! file = Some (old ++ data).
Proof.
  intros [Hio Hok] Hfile. eexists. split; [by apply WriteFile_succeeds|].
  split; [split; auto with worlds|].
  cbn [files with_files]. rewrite Hfile. apply lookup_insert_eq.
Qed.

Lemma CreateFileW_CREATE_ALWAYS_truncates w path :
  quiet w ->
  exists w',
    CreateFileW_CREATE_ALWAYS path w = (Some path, w') /\ quiet w'
    /\ files w' !! path = Some [].
Proof.
  intros [Hio Hok]. eexists.
  split; [by apply CreateFileW_CREATE_ALWAYS_succeeds|].
  split; [split; auto with worlds|]. apply lookup_insert_eq.
Qed.

Lemma HeapAlloc_quiet bytes w :
  quiet w ->
  exists w',
    HeapAlloc bytes w = (true, w') /\ quiet w' /\ files w' = files w.
Proof.
  intros [Hio Hok]. eexists. split; [by apply HeapAlloc_succeeds|].
  split; [split; auto with worlds|]. reflexivity.
Qed.

Section Saving.
Context `{Locale}.

Lemma WriteUTF8WithBOM_writes w file old text :
  quiet w ->
  files w !! file = Some old ->
  text <> [] ->
  exists w',
    WriteUTF8WithBOM file text (length text) w = (true, w')
    /\ files w' !! file = Some (old ++ BOM_UTF8 ++ utf8_of_wide text).
Proof.
  intros Hq Hfile Hne. unfold WriteUTF8WithBOM.
  destruct (WriteFile_appends w file old BOM_UTF8 Hq Hfile)
    as (w1 & Hw1 & Hq1 & Hf1).
  unfold bind at 1. unfold BOM_UTF8 in Hw1. rewrite Hw1. cbn [negb].
  rewrite firstn_all.
  destruct text as [|u text]; [done|]. cbn [WideCharToMultiByte].
  pose proof (utf8_of_wide_not_empty u text) as Hbytes.
  destruct (utf8_of_wide (u :: text)) as [|b bytes] eqn:Hconv; [done|].
  cbn [length Nat.leb].
  destruct (HeapAlloc_quiet (Z.of_nat (S (length bytes))) w1 Hq1)
    as (w2 & Hw2 & Hq2 & Hf2).
  unfold bind at 1. rewrite Hw2. cbn [negb].
  rewrite <- Hf2 in Hf1.
  destruct (WriteFile_appends w2 file _ (b :: bytes) Hq2 Hf1)
    as (w3 & Hw3 & Hq3 & Hf3).
  exists w3. split; [done|]. by rewrite Hf3, <- app_assoc.
Qed.

Lemma WriteUTF16LE_writes w file old text :
  quiet w ->
  files w !! file = Some old ->
  exists w',
    WriteUTF16LE file text (length text) w = (true, w')
    /\ files w' !! file = Some (old ++ BOM_UTF16LE ++ memory_of_wchars text).
Proof.
  intros Hq Hfile. unfold WriteUTF16LE.
  destruct (WriteFile_appends w file old BOM_UTF16LE Hq Hfile)
    as (w1 & Hw1 & Hq1 & Hf1).
  unfold bind at 1. unfold BOM_UTF16LE in Hw1. rewrite Hw1. cbn [negb].
  rewrite firstn_all.
  destruct (WriteFile_appends w1 file _ (memory_of_wchars text) Hq1 Hf1)
    as (w2 & Hw2 & Hq2 & Hf2).
  exists w2. split; [done|]. by rewrite Hf2, <- app_assoc.
Qed.

Lemma WriteANSI_writes w file old text :
  quiet w ->
  files w !! file = Some old ->
  text <> [] ->
  wide_to_acp text <> [] ->
  exists w',
    WriteANSI file text (length text) w = (true, w')
    /\ files w' !! file = Some (old ++ wide_to_acp text).
Proof.
  intros Hq Hfile Hne Hbytes. unfold WriteANSI. rewrite firstn_all.
  destruct text as [|u text]; [done|]. cbn [WideCharToMultiByte].
  destruct (wide_to_acp (u :: text)) as [|b bytes] eqn:Hconv; [done|].
  cbn [length Nat.leb].
  destruct (HeapAlloc_quiet (Z.of_nat (S (length bytes))) w Hq)
    as (w1 & Hw1 & Hq1 & Hf1).
  unfold bind at 1. rewrite Hw1. cbn [negb].
  rewrite <- Hf1 in Hfile.
  destruct (WriteFile_appends w1 file _ (b :: bytes) Hq1 Hfile)
    as (w2 & Hw2 & Hq2 & Hf2).
  by exists w2.
Qed.

Lemma SaveTextFile_writes w path text enc :
  quiet w ->
  (enc = ENC_UTF16LE \/ text <> []) ->
  (enc = ENC_ANSI -> wide_to_acp text <> []) ->
  exists w',
    SaveTextFile path text (length text) enc w = (true, w')
    /\ files w' !! path = Some (saved_as enc text).
Proof.
  intros Hq Hne Hacp. unfold SaveTextFile.
  destruct (CreateFileW_CREATE_ALWAYS_truncates w path Hq)
    as (w1 & Hw1 & Hq1 & Hf1).
  unfold bind at 1. rewrite Hw1.
  destruct enc; cbn [saved_as].
  - destruct (WriteUTF8WithBOM_writes w1 path [] text Hq1 Hf1)
      as (w2 & Hw2 & Hf2); [by destruct Hne|].
    unfold bind at 1. unfold bind at 1. rewrite Hw2. by exists w2.
  - destruct (WriteUTF16LE_writes w1 path [] text Hq1 Hf1)
      as (w2 & Hw2 & Hf2).
    unfold bind at 1. unfold bind at 1. rewrite Hw2. by exists w2.
  - destruct (WriteUTF8WithBOM_writes w1 path [] text Hq1 Hf1)
      as (w2 & Hw2 & Hf2); [by destruct Hne|].
    unfold bind at 1. unfold bind at 1. rewrite Hw2. by exists w2.
  - destruct (WriteANSI_writes w1 path [] text Hq1 Hf1)
      as (w2 & Hw2 & Hf2); [by destruct Hne | by apply Hacp |].
    unfold bind at 1. unfold bind at 1. rewrite Hw2. by exists w2.
Qed.

End Saving.

(** ** Round trip *)

Section RoundTrip.
Context `{Locale}.

Lemma well_formed_utf16_is_wchar text :
  well_formed_utf16 text -> Forall is_wchar text.
Proof.
  induction 1; repeat constructor; unfold is_wchar; try done; lia.
Qed.

Lemma DecodeToWide_saved_UTF8 w text :
  allocations_succeed w ->
  text <> [] ->
  well_formed_utf16 text ->
  DecodeToWide (saved_as ENC_UTF8 text) ENC_UTF8 w
  = (Some (text, length text), after_alloc w).
Proof.
  intros Hok Hne Hwf. unfold DecodeToWide. cbn [saved_as].
  assert (Htest : (3 <=? length (BOM_UTF8 ++ utf8_of_wide text))
                  && (at_index (BOM_UTF8 ++ utf8_of_wide text) 0 =? 0xEF)%Z
                  && (at_index (BOM_UTF8 ++ utf8_of_wide text) 1 =? 0xBB)%Z
                  && (at_index (BOM_UTF8 ++ utf8_of_wide text) 2 =? 0xBF)%Z
                  = true)
    by (apply prefix_three; by eexists).
  rewrite Htest. change (drop 3 (BOM_UTF8 ++ utf8_of_wide text))
    with (utf8_of_wide text).
  destruct text as [|u text]; [done|].
  pose proof (utf8_of_wide_not_empty u text) as Hbytes.
  pose proof (utf8_round_trip false (u :: text) Hwf) as Hback.
  destruct (utf8_of_wide (u :: text)) as [|b bytes]; [done|].
  cbn [MultiByteToWideChar]. change (Z.testbit 0 3) with false.
  rewrite Hback. cbn [default from_option id length Nat.leb].
  unfold bind. by rewrite HeapAlloc_succeeds.
Qed.

Lemma DecodeToWide_saved_UTF16LE w text :
  allocations_succeed w ->
  Forall is_wchar text ->
  DecodeToWide (saved_as ENC_UTF16LE text) ENC_UTF16LE w
  = (Some (text, length text), after_alloc w).
Proof.
  intros Hok Hunits. unfold DecodeToWide. cbn [saved_as].
  rewrite length_app, memory_of_wchars_length. unfold BOM_UTF16LE.
  cbn [length].
  destruct (Nat.ltb_spec (2 + length text * 2) 2) as [|_]; [lia|].
  cbn [app at_index nth Z.eqb Pos.eqb andb drop].
  replace ((2 + length text * 2 - 2) / 2) with (length text)
    by (rewrite Nat.add_comm, Nat.add_sub, Nat.div_mul; lia).
  unfold bind. rewrite HeapAlloc_succeeds by done. cbn [negb].
  unfold sizeof_WCHAR. rewrite <- memory_of_wchars_length, firstn_all.
  by rewrite drop_0, memory_round_trip.
Qed.

Lemma DecodeToWide_saved_ANSI w text :
  allocations_succeed w ->
  text <> [] ->
  wide_to_acp text <> [] ->
  acp_to_wide (wide_to_acp text) = text ->
  DecodeToWide (saved_as ENC_ANSI text) ENC_ANSI w
  = (Some (text, length text), after_alloc w).
Proof.
  intros Hok Hne Hbytes Hback. unfold DecodeToWide. cbn [saved_as].
  destruct (wide_to_acp text) as [|b bytes]; [done|].
  cbn [MultiByteToWideChar]. rewrite Hback.
  destruct text as [|u text]; [done|]. cbn [length Nat.leb].
  unfold bind. by rewrite HeapAlloc_succeeds.
Qed.

(** C2. A text of 16-bit code units that is saved and then decoded in the
    same encoding comes back as it was: in UTF-16LE always; in UTF-8 when it
    is not empty and every surrogate in it is one half of a pair; in ANSI
    when it is not empty and the active code page holds it.  The text has
    fewer than INT_MAX code units and is saved as at most INT_MAX bytes, so
    that the lengths the code passes as int are the lengths, and the buffer
    of the decoded text has a size that size_t holds.  A save as UTF-16BE is
    the save as UTF-8. *)
Theorem save_then_decode (text : list wchar) (enc : TextEncoding) :
  Forall is_wchar text ->
  (Z.of_nat (length text) < INT_MAX)%Z ->
  (Z.of_nat (length (saved_as enc text)) <= INT_MAX)%Z ->
  match enc with
  | ENC_UTF16LE => True
  | ENC_UTF8 => text <> [] /\ well_formed_utf16 text
  | ENC_ANSI => text <> [] /\ acp_holds text
  | ENC_UTF16BE => False
  end ->
  round_trips enc text
  /\ forall w path,
       SaveTextFile path text (length text) ENC_UTF16BE w
       = SaveTextFile path text (length text) ENC_UTF8 w.
Proof.
  intros Hunits _ _ Henc. split; [|reflexivity].
  intros w path w2 Hq Hok.
  destruct enc; try done.
  - destruct Henc as [Hne Hwf].
    destruct (SaveTextFile_writes w path text ENC_UTF8 Hq)
      as (w' & Hsave & Hfile); [by right | done |].
    exists w', (saved_as ENC_UTF8 text). split; [done|]. split; [done|].
    by rewrite DecodeToWide_saved_UTF8.
  - destruct (SaveTextFile_writes w path text ENC_UTF16LE Hq)
      as (w' & Hsave & Hfile); [by left | done |].
    exists w', (saved_as ENC_UTF16LE text). split; [done|]. split; [done|].
    by rewrite DecodeToWide_saved_UTF16LE.
  - destruct Henc as (Hne & Hbytes & Hback).
    destruct (SaveTextFile_writes w path text ENC_ANSI Hq)
      as (w' & Hsave & Hfile); [by right | done |].
    exists w', (saved_as ENC_ANSI text). split; [done|]. split; [done|].
    by rewrite DecodeToWide_saved_ANSI.
Qed.

End RoundTrip.

(** Texts of one code unit that do not come back, on the platform of
    [latin1_locale]: the conversions of the platform put another character
    in the place of what the encoding cannot hold.  A surrogate without its
    partner is saved in UTF-8 as U+FFFD, and a code unit the code page does
    not hold is saved in ANSI as '?'. *)
Lemma texts_that_do_not_round_trip :
  ~ round_trips ENC_UTF8 [0xD800%Z]
  /\ ~ round_trips ENC_ANSI [0x4E2D%Z].
Proof.
  assert (Hq : quiet (document [])) by (split; constructor).
  assert (Hok : allocations_succeed (document [])) by constructor.
  repeat split; intros Hclaim;
    destruct (Hclaim (document []) "a.txt"%string (document []) Hq Hok)
      as (w' & bytes & Hsave & Hfile & Hdecode);
    vm_compute in Hsave; try discriminate Hsave;
    injection Hsave as <-;
    vm_compute in Hfile; injection Hfile as <-;
    vm_compute in Hdecode; discriminate Hdecode.
Qed.

Lemma save_then_decode_witness :
  Forall is_wchar (L "A")
  /\ (Z.of_nat (length (L "A")) < INT_MAX)%Z
  /\ (Z.of_nat (length (saved_as ENC_UTF8 (L "A"))) <= INT_MAX)%Z
  /\ (L "A" <> [] /\ well_formed_utf16 (L "A"))
  /\ round_trips ENC_UTF8 (L "A").
Proof.
  assert (Hunits : Forall is_wchar (L "A"))
    by (repeat constructor; vm_compute; congruence).
  assert (Hlen : (Z.of_nat (length (L "A")) < INT_MAX)%Z)
    by (vm_compute; reflexivity).
  assert (Hsize : (Z.of_nat (length (saved_as ENC_UTF8 (L "A"))) <= INT_MAX)%Z)
    by (vm_compute; discriminate).
  assert (Hwf : L "A" <> [] /\ well_formed_utf16 (L "A")).
  { split; [discriminate|].
    apply wf16_unit; [vm_compute; split; congruence | | apply wf16_empty].
    intros [Hlow _]. vm_compute in Hlow. by apply Hlow. }
  split; [exact Hunits|]. split; [exact Hlen|]. split; [exact Hsize|].
  split; [exact Hwf|].
  exact (proj1 (save_then_decode (L "A") ENC_UTF8 Hunits Hlen Hsize Hwf)).
Defined.

(** The empty text, which the round trip leaves out: its save as UTF-8
    reports a failure and leaves the mark alone in the file, and DecodeToWide
    rejects that file. *)
Lemma empty_text_save_and_decode :
  fst (SaveTextFile "a.txt" [] 0 ENC_UTF8 (document [])) = false
  /\ files (snd (SaveTextFile "a.txt" [] 0 ENC_UTF8 (document []))) !! "a.txt"
     = Some BOM_UTF8
  /\ fst (DecodeToWide BOM_UTF8 ENC_UTF8 (document [])) = None.
Proof. by vm_compute. Qed.

(** ** The encoding of the document across a save *)

Lemma keeps_encoding_ret {A} (a : A) : keeps_encoding (ret a).
Proof. done. Qed.

Lemma keeps_encoding_bind {A B} (m : M A) (k : A -> M B) :
  keeps_encoding m -> (forall a, keeps_encoding (k a)) ->
  keeps_encoding (bind m k).
Proof.
  intros Hm Hk w. unfold bind. specialize (Hm w).
  destruct (m w) as [a w']. by rewrite Hk.
Qed.

Lemma keeps_encoding_HeapAlloc bytes : keeps_encoding (HeapAlloc bytes).
Proof. intros w. unfold HeapAlloc. by destruct (next_outcome _). Qed.

Lemma keeps_encoding_io_outcome : keeps_encoding io_outcome.
Proof. intros w. unfold io_outcome. by destruct (next_outcome _). Qed.

(** Breaks a computation down to the calls it is made of. *)
Ltac keeps_encoding_steps known :=
  repeat first
    [ known
    | apply keeps_encoding_ret
    | apply keeps_encoding_HeapAlloc
    | apply keeps_encoding_io_outcome
    | apply keeps_encoding_bind; [|intros]
    | match goal with
      | |- keeps_encoding (if ?c then _ else _) => destruct c
      | |- keeps_encoding (match ?x with _ => _ end) => destruct x
      end
    | done ].

Lemma keeps_encoding_WriteFile file data : keeps_encoding (WriteFile file data).
Proof. unfold WriteFile. keeps_encoding_steps fail. Qed.

Lemma keeps_encoding_SaveTextFile `{Locale} path text len enc :
  keeps_encoding (SaveTextFile path text len enc).
Proof.
  unfold SaveTextFile, CreateFileW_CREATE_ALWAYS, WriteUTF16LE, WriteANSI,
    WriteUTF8WithBOM, CloseHandle.
  keeps_encoding_steps ltac:(apply keeps_encoding_WriteFile).
Qed.

Lemma keeps_encoding_DoFileSave `{Locale} saveAs :
  keeps_encoding (DoFileSave saveAs).
Proof.
  unfold DoFileSave, UpdateTitle.
  keeps_encoding_steps ltac:(apply keeps_encoding_SaveTextFile).
Qed.

(** C1. A save as UTF-16BE is the save as UTF-8: the same calls, the same
    bytes, the same result.  The encoding of the document is not touched by
    it: DoFileSave leaves g_app.encoding as it was, so after the save of a
    document opened as UTF-16BE the file holds EF BB BF and the UTF-8 bytes
    of the text while the document is still marked UTF-16BE. *)
Theorem save_utf16be_leaves_encoding `{Locale} :
  (forall w path text len,
     SaveTextFile path text len ENC_UTF16BE w
     = SaveTextFile path text len ENC_UTF8 w)
  /\ (forall w saveAs, encoding (snd (DoFileSave saveAs w)) = encoding w)
  /\ (let w := opened "a.txt" ENC_UTF16BE (L "A") [0xFE; 0xFF; 0x00; 0x41]%Z in
      fst (DoFileSave false w) = true
      /\ files (snd (DoFileSave false w)) !! "a.txt"
         = Some [0xEF; 0xBB; 0xBF; 0x41]%Z
      /\ encoding (snd (DoFileSave false w)) = ENC_UTF16BE).
Proof.
  split; [reflexivity|]. split.
  - intros w saveAs. apply keeps_encoding_DoFileSave.
  - by vm_compute.
Qed.
(** * Further properties of the code *)

(** ** Running a computation in any world *)

Lemma wp_ret {A} (a : A) (Q : A -> World -> Prop) w : Q a w -> wp (ret a) Q w.
Proof. done. Qed.

Lemma wp_bind {A B} (m : M A) (k : A -> M B) (Q : B -> World -> Prop) w :
  wp m (fun a w' => wp (k a) Q w') w -> wp (bind m k) Q w.
Proof. unfold wp, bind. by destruct (m w). Qed.

Lemma wp_weaken {A} (m : M A) (Q Q' : A -> World -> Prop) w :
  wp m Q w -> (forall a w', Q a w' -> Q' a w') -> wp m Q' w.
Proof. unfold wp. auto. Qed.


Lemma HeapAlloc_run bytes w :
  HeapAlloc bytes w = (hd true (heap_script w), after_alloc w).
Proof. unfold HeapAlloc, after_alloc. by destruct (heap_script w). Qed.

Lemma io_outcome_run w : io_outcome w = (hd true (io_script w), after_io w).
Proof. unfold io_outcome, after_io. by destruct (io_script w). Qed.

Lemma wp_HeapAlloc bytes (Q : bool -> World -> Prop) w :
  (forall ok, Q ok (after_alloc w)) -> wp (HeapAlloc bytes) Q w.
Proof. intros HQ. unfold wp. rewrite HeapAlloc_run. apply HQ. Qed.

Lemma wp_HeapAlloc_succeeds bytes (Q : bool -> World -> Prop) w :
  allocations_succeed w -> Q true (after_alloc w) -> wp (HeapAlloc bytes) Q w.
Proof. intros Hok HQ. unfold wp. by rewrite HeapAlloc_succeeds. Qed.

Lemma wp_io_outcome (Q : bool -> World -> Prop) w :
  (forall ok, Q ok (after_io w)) -> wp io_outcome Q w.
Proof. intros HQ. unfold wp. rewrite io_outcome_run. apply HQ. Qed.

Lemma wp_record e (Q : unit -> World -> Prop) w :
  Q tt (logged e w) -> wp (record e) Q w.
Proof. done. Qed.

Lemma wp_set_files fs (Q : unit -> World -> Prop) w :
  Q tt (with_files fs w) -> wp (set_files fs) Q w.
Proof. done. Qed.

Ltac head_of t :=
  lazymatch t with
  | ?f _ => head_of f
  | _ => t
  end.

Ltac is_constructor_app t :=
  let h := head_of t in is_constructor h.

(** One step of a computation: a call of the platform, a branch, or the
    body of a function of the program. *)
Ltac wp_step :=
  lazymatch goal with
  | |- wp (ret _) _ _ => apply wp_ret
  | |- wp (bind _ _) _ _ => apply wp_bind
  | |- wp (HeapAlloc _) _ _ => apply wp_HeapAlloc; intros ?
  | |- wp io_outcome _ _ => apply wp_io_outcome; intros ?
  | |- wp (record _) _ _ => apply wp_record
  | |- wp (set_files _) _ _ => apply wp_set_files
  | |- wp (if negb ?b then _ else _) _ _ =>
    first [ progress cbn [negb]
          | destruct b eqn:?; cbn [negb]; cbv iota ]
  | |- wp (if ?c then _ else _) _ _ =>
    first [ progress cbn [negb andb orb]
          | is_constructor c; cbv iota
          | destruct c eqn:? ]
  | |- wp (match ?x with _ => _ end) _ _ =>
    first [ is_constructor_app x; cbv iota
          | destruct x eqn:? ]
  | |- wp (fun _ => _) _ _ =>
    unfold wp at 1; cbv beta;
    cbn [fst snd edit_text edit_modify currentPath modified encoding files
         heap_script io_script save_dialog trace]
  | |- wp ?m _ _ => let f := head_of m in unfold f
  end; cbv beta.

Ltac wp_steps := repeat wp_step.

Ltac wp_steps_using known := repeat first [known | wp_step].

(** Uses what is known of a call in the middle of a computation. *)
Ltac wp_call lemma :=
  lazymatch goal with
  | |- wp (bind _ _) _ _ =>
    apply wp_bind; eapply wp_weaken; [apply lemma | cbv beta; intros ? ?]
  | |- wp _ _ _ => eapply wp_weaken; [apply lemma | cbv beta; intros ? ?]
  end.

(** The fields of the worlds a computation goes through. *)
Ltac fields :=
  cbn [edit_text edit_modify currentPath modified encoding files heap_script
       io_script save_dialog trace after_alloc after_io with_files logged] in *.

(** ** Scripts that are used up *)

Lemma suffix_tl {A} (l : list A) : tl l `suffix_of` l.
Proof. destruct l as [|x l]; [done|]. by apply suffix_cons_r. Qed.

Lemma Forall_suffix {A} (P : A -> Prop) (l l' : list A) :
  l' `suffix_of` l -> Forall P l -> Forall P l'.
Proof. intros [k ->] Hall. by apply Forall_app in Hall as [_ ?]. Qed.

Lemma consumes_quiet w w' : consumes w w' -> quiet w -> quiet w'.
Proof.
  intros [Hheap Hio] [Hfiles Halloc]. split.
  - by apply (Forall_suffix _ _ _ Hio).
  - by apply (Forall_suffix _ _ _ Hheap).
Qed.

Lemma consumes_allocations w w' :
  consumes w w' -> allocations_succeed w -> allocations_succeed w'.
Proof. intros [Hheap _]. by apply Forall_suffix. Qed.

Lemma consumes_file_calls w w' :
  consumes w w' -> file_calls_succeed w -> file_calls_succeed w'.
Proof. intros [_ Hio]. by apply Forall_suffix. Qed.

(** Proves that a world reached from [w] has used up outcomes of [w]. *)
Ltac consumed :=
  unfold consumes in *; fields;
  repeat match goal with
  | Hc : _ /\ _ |- _ => destruct Hc
  end;
  repeat split;
  repeat first
    [ reflexivity
    | assumption
    | etrans; [apply suffix_tl|]
    | etrans; [eassumption|] ].

(** Proves that the calls still to come in a world reached from one without
    failures do not fail. *)
Ltac scripts_ok :=
  lazymatch goal with
  | Hq : quiet ?w |- quiet _ => apply (consumes_quiet w); [consumed | exact Hq]
  | Hq : quiet ?w |- allocations_succeed _ =>
    apply (consumes_allocations w); [consumed | exact (proj2 Hq)]
  | Hq : quiet ?w |- file_calls_succeed _ =>
    apply (consumes_file_calls w); [consumed | exact (proj1 Hq)]
  end.

Lemma wp_io_outcome_succeeds (Q : bool -> World -> Prop) w :
  file_calls_succeed w -> Q true (after_io w) -> wp io_outcome Q w.
Proof. intros Hok HQ. unfold wp. by rewrite io_outcome_succeeds. Qed.

(** One step of a computation in a world without failures. *)
Ltac wp_quiet_step :=
  lazymatch goal with
  | |- wp (HeapAlloc _) _ _ => apply wp_HeapAlloc_succeeds; [scripts_ok|]
  | |- wp io_outcome _ _ => apply wp_io_outcome_succeeds; [scripts_ok|]
  | |- _ => wp_step
  end.

(** ** DecodeToWide *)

Section DecodeContract.
Context `{Locale}.

Lemma wide_of_utf8_total n : forall src,
  length src <= n -> is_Some (wide_of_utf8 false src).
Proof.
  induction n as [|n IH]; intros [|b0 r0] Hlen; cbn [length] in Hlen;
    try (by eexists); try lia.
  assert (H0 : is_Some (wide_of_utf8 false r0)) by (apply IH; lia).
  cbn [wide_of_utf8].
  repeat match goal with
  | |- context [if ?c then _ else _] => destruct c
  | |- context [match ?l with [] => _ | _ :: _ => _ end] =>
    destruct l; cbn [length] in Hlen
  end;
  apply fmap_is_Some; first [exact H0 | apply IH; lia].
Qed.

(** The lenient conversion from UTF-8 gives at least one code unit for at
    least one byte. *)
Lemma lenient_conversion_not_empty b data :
  MultiByteToWideChar CP_UTF8 0 (b :: data) <> [].
Proof.
  cbn [MultiByteToWideChar]. change (Z.testbit 0 3) with false.
  destruct (wide_of_utf8_total _ (b :: data) (Nat.le_refl _)) as [text Htext].
  rewrite Htext. cbn [default from_option id].
  by apply wide_of_utf8_not_empty in Htext.
Qed.

End DecodeContract.

Section DecodeResult.
Context `{Locale}.

Lemma not_empty_length {A} (l : list A) : (length l <=? 0) = false -> l <> [].
Proof. by destruct l. Qed.

Lemma converted_input cp flags data :
  (length (MultiByteToWideChar cp flags data) <=? 0) = false -> data <> [].
Proof. by destruct data. Qed.

(** What DecodeToWide returns and leaves, whatever the world. *)
Lemma DecodeToWide_result data enc w :
  wp (DecodeToWide data enc)
    (fun r w' =>
       (w' = w \/ w' = after_alloc w)
       /\ match r with
          | Some (text, len) =>
            len = length text /\ data <> []
            /\ (enc = ENC_UTF8 \/ enc = ENC_ANSI -> text <> [])
          | None => True
          end) w.
Proof.
  unfold DecodeToWide. destruct enc; wp_steps.
  all: try (split; [auto|]; exact I).
  all: split; [auto|].
  - split; [reflexivity|]. split.
    + intros ->. by rewrite drop_nil in *.
    + intros _. by apply not_empty_length.
  - match goal with
    | Hsize : (length data <? 2) = false |- _ =>
      apply Nat.ltb_ge in Hsize; rename Hsize into Hlen
    end.
    split; [|split; [intros ->; cbn in Hlen; lia | by intros [|]]].
    set (off := if _ && _ then 2 else 0).
    assert (Hoff : off <= 2) by (unfold off; destruct (_ && _); lia).
    pose proof (half_bounds (length data - off)) as Hhalf.
    rewrite (wchars_of_memory_length _ _ (Nat.le_refl _)).
    rewrite length_take, length_drop. unfold sizeof_WCHAR.
    rewrite Nat.min_l by lia. by rewrite Nat.div_mul.
  - match goal with
    | Hsize : (length data <? 2) = false |- _ =>
      apply Nat.ltb_ge in Hsize; rename Hsize into Hlen
    end.
    split; [|split; [intros ->; cbn in Hlen; lia | by intros [|]]].
    by rewrite length_map, length_seq.
  - split; [reflexivity|]. split.
    + by eapply converted_input.
    + intros _. by apply not_empty_length.
Qed.

End DecodeResult.

Section DecodeSucceeds.
Context `{Locale}.

(** When DecodeToWide succeeds, if its allocation does. *)
Lemma DecodeToWide_succeeds data enc w :
  allocations_succeed w ->
  fst (DecodeToWide data enc w) <> None
  <-> match enc with
      | ENC_UTF16LE | ENC_UTF16BE => 2 <= length data
      | ENC_UTF8 => data <> [] /\ data <> BOM_UTF8
      | ENC_ANSI => data <> [] /\ acp_to_wide data <> []
      end.
Proof.
  intros Hok. destruct enc.
  - unfold DecodeToWide.
    destruct ((3 <=? length data) && (at_index data 0 =? 0xEF)%Z
              && (at_index data 1 =? 0xBB)%Z && (at_index data 2 =? 0xBF)%Z)
      eqn:Htest.
    + apply prefix_three in Htest as [rest ->].
      change (drop 3 ([0xEF; 0xBB; 0xBF]%Z ++ rest)) with rest.
      destruct rest as [|b rest].
      * cbn. split; [done | by intros [_ ?]].
      * pose proof (lenient_conversion_not_empty b rest) as Hconv.
        destruct (MultiByteToWideChar CP_UTF8 0 (b :: rest)) as [|u text];
          [done|].
        cbn [length Nat.leb]. unfold bind.
        rewrite HeapAlloc_succeeds by done. cbn. by split.
    + rewrite drop_0. destruct data as [|b rest].
      * cbn. split; [done | by intros [? _]].
      * pose proof (lenient_conversion_not_empty b rest) as Hconv.
        destruct (MultiByteToWideChar CP_UTF8 0 (b :: rest)) as [|u text];
          [done|].
        cbn [length Nat.leb]. unfold bind.
        rewrite HeapAlloc_succeeds by done. cbn. split; [|done]. intros _.
        split; [done|]. intros Heq. rewrite Heq in Htest. done.
  - destruct (Nat.le_gt_cases 2 (length data)) as [Hlen|Hlen].
    + destruct (DecodeToWide_utf16 w data ENC_UTF16LE) as (text & -> & _);
        [by left | done..|]. by split.
    + unfold DecodeToWide. destruct (Nat.ltb_spec (length data) 2); [|lia].
      split; [done | lia].
  - destruct (Nat.le_gt_cases 2 (length data)) as [Hlen|Hlen].
    + destruct (DecodeToWide_utf16 w data ENC_UTF16BE) as (text & -> & _);
        [by right | done..|]. by split.
    + unfold DecodeToWide. destruct (Nat.ltb_spec (length data) 2); [|lia].
      split; [done | lia].
  - unfold DecodeToWide. destruct data as [|b rest].
    + cbn. split; [done | by intros [? _]].
    + cbn [MultiByteToWideChar].
      destruct (acp_to_wide (b :: rest)) as [|u text].
      * cbn. split; [done | by intros [_ ?]].
      * cbn [length Nat.leb]. unfold bind.
        rewrite HeapAlloc_succeeds by done. cbn. by split.
Qed.

End DecodeSucceeds.

(** X1. Whenever DecodeToWide succeeds, the length it reports is the number
    of code units of the text it hands over, the data it was given is not
    empty, and in UTF-8 and ANSI the text is not empty either; this holds for
    every input, every encoding and every outcome of its allocation.  When
    the allocation does not fail and the data have fewer than INT_MAX bytes
    (so that the int of the converting calls holds their size and size_t the
    size of the buffer for the text), it succeeds exactly on: data of two
    bytes or more in UTF-16; data that are not empty and not the UTF-8 mark
    alone in UTF-8; data that are not empty and that the code page converts
    to something in ANSI. *)
Theorem decode_reports_its_length `{Locale} (w : World) (data : list byte)
    (enc : TextEncoding) :
  match fst (DecodeToWide data enc w) with
  | Some (text, len) =>
    len = length text /\ data <> []
    /\ (enc = ENC_UTF8 \/ enc = ENC_ANSI -> text <> [])
  | None => True
  end
  /\ (allocations_succeed w ->
      (Z.of_nat (length data) < INT_MAX)%Z ->
      fst (DecodeToWide data enc w) <> None
      <-> match enc with
          | ENC_UTF16LE | ENC_UTF16BE => 2 <= length data
          | ENC_UTF8 => data <> [] /\ data <> BOM_UTF8
          | ENC_ANSI => data <> [] /\ acp_to_wide data <> []
          end).
Proof.
  split.
  - exact (proj2 (DecodeToWide_result data enc w)).
  - intros Hok _. by apply DecodeToWide_succeeds.
Qed.

Lemma decode_reports_its_length_witness :
  allocations_succeed (document [])
  /\ (Z.of_nat (length [0xC3; 0xA9]%Z) < INT_MAX)%Z
  /\ fst (DecodeToWide [0xC3; 0xA9]%Z ENC_UTF8 (document [])) <> None.
Proof.
  assert (Hok : allocations_succeed (document [])) by constructor.
  assert (Hsize : (Z.of_nat (length [0xC3; 0xA9]%Z) < INT_MAX)%Z)
    by (vm_compute; reflexivity).
  split; [exact Hok|]. split; [exact Hsize|].
  apply (proj2 (decode_reports_its_length (document []) [0xC3; 0xA9]%Z
                  ENC_UTF8) Hok Hsize).
  split; discriminate.
Defined.

(** ** LoadTextFile *)

Section LoadResult.
Context `{Locale}.

(** What LoadTextFile returns and leaves, whatever the world: it changes
    neither the document nor any file. *)
Lemma LoadTextFile_result path w :
  wp (LoadTextFile path)
    (fun r w' =>
       same_document w w' /\ files w' = files w /\ consumes w w'
       /\ match r with
          | (true, out) =>
            exists text,
              textOut out = Some text /\ lengthOut out = length text
          | (false, out) => out = mkLoaded None 0 ENC_UTF8
          end) w.
Proof.
  unfold LoadTextFile, CreateFileW_OPEN_EXISTING, GetFileSizeEx, ReadFile.
  wp_steps_using ltac:(wp_call DecodeToWide_result; intros [Hw Hr]).
  all: try (split; [|split; [|split]];
            [done | done | consumed | first [done | by eexists]]).
  all: destruct Hw as [-> | ->];
    (split; [|split; [|split]]; [done | done | consumed |]).
  all: first [done | destruct Hr as [-> _]; by eexists].
Qed.

End LoadResult.

(** X2. LoadTextFile never changes the document or a file, whatever fails on
    the way; when it returns FALSE its three outputs are NULL, 0 and UTF-8,
    and when it returns TRUE the text is there and the length it reports is
    the number of its code units. *)
Theorem load_outputs `{Locale} (w : World) (path : string) :
  let result := fst (LoadTextFile path w) in
  let w' := snd (LoadTextFile path w) in
  same_document w w' /\ files w' = files w
  /\ (fst result = false -> snd result = mkLoaded None 0 ENC_UTF8)
  /\ (fst result = true ->
      exists text,
        textOut (snd result) = Some text
        /\ lengthOut (snd result) = length text).
Proof.
  intros result w'. pose proof (LoadTextFile_result path w) as Hload.
  unfold wp in Hload. fold result w' in Hload.
  destruct Hload as (Hdoc & Hfiles & _ & Hout).
  split; [done|]. split; [done|].
  destruct result as [[] out]; cbn [fst snd]; by split.
Qed.

(** X3. Loading a file that does not exist fails with the one message
    "Unable to open file.": the outputs are NULL, 0 and UTF-8, no allocation
    is made and nothing else is recorded, whatever the outcome of the
    call. *)
Theorem load_missing_file `{Locale} (w : World) (path : string) :
  files w !! path = None ->
  LoadTextFile path w
  = ((false, mkLoaded None 0 ENC_UTF8),
     logged (MessageBoxW "Unable to open file.") (after_io w)).
Proof.
  intros Hfile. unfold LoadTextFile, CreateFileW_OPEN_EXISTING.
  unfold bind at 1. unfold bind at 1. rewrite io_outcome_run.
  unfold get_files, bind at 1. cbn [files after_io]. by rewrite Hfile.
Qed.

Lemma load_missing_file_witness :
  files (document (L "text")) !! "nowhere.txt" = None
  /\ LoadTextFile "nowhere.txt" (document (L "text"))
     = ((false, mkLoaded None 0 ENC_UTF8),
        logged (MessageBoxW "Unable to open file.")
          (after_io (document (L "text")))).
Proof.
  assert (Hfile : files (document (L "text")) !! "nowhere.txt" = None)
    by reflexivity.
  split; [exact Hfile|].
  exact (load_missing_file (document (L "text")) "nowhere.txt" Hfile).
Defined.


(** ** Which files can be loaded *)

Section Loadable.
Context `{Locale}.



End Loadable.




(** ** SaveTextFile in any world *)

Lemma same_document_refl w : same_document w w.
Proof. by repeat split. Qed.

Lemma same_document_trans w1 w2 w3 :
  same_document w1 w2 -> same_document w2 w3 -> same_document w1 w3.
Proof.
  unfold same_document. intros (? & ? & ? & ? & ?) (? & ? & ? & ? & ?).
  repeat split; congruence.
Qed.

(** A write behind the writes that made a file [old]. *)
Lemma write_behind (fs : gmap string (list byte)) path old data :
  <[path := default [] (<[path := old]> fs !! path) ++ data]>
    (<[path := old]> fs)
  = <[path := old ++ data]> fs.
Proof. by rewrite lookup_insert_eq, insert_insert_eq. Qed.

Lemma same_files_but_insert path bytes w w' :
  files w' = <[path := bytes]> (files w) -> same_files_but path w w'.
Proof. intros Heq other Hother. rewrite Heq. by apply lookup_insert_ne. Qed.

Lemma same_files_but_same path w w' :
  files w' = files w -> same_files_but path w w'.
Proof. intros Heq other _. by rewrite Heq. Qed.

Section SaveResult.
Context `{Locale}.

Lemma WideCharToMultiByte_utf8 text :
  WideCharToMultiByte CP_UTF8 text = utf8_of_wide text.
Proof. by destruct text. Qed.

Lemma WideCharToMultiByte_acp text :
  (length (WideCharToMultiByte CP_ACP text) <=? 0) = false ->
  WideCharToMultiByte CP_ACP text = wide_to_acp text.
Proof. by destruct text. Qed.

(** What SaveTextFile returns and leaves, whatever the world. *)
Lemma SaveTextFile_result path text len enc w :
  wp (SaveTextFile path text len enc)
    (fun ok w' =>
       same_document w w' /\ consumes w w'
       /\ (if ok
           then files w' = <[path := saved_as enc (take len text)]> (files w)
                /\ trace w' = trace w
           else (files w' = files w
                 \/ exists written,
                      files w' = <[path := written]> (files w)
                      /\ written `prefix_of` saved_as enc (take len text))
                /\ exists message, trace w' = trace w ++ [MessageBoxW message]))
    w.
Proof.
  unfold SaveTextFile, CreateFileW_CREATE_ALWAYS, WriteUTF8WithBOM,
    WriteUTF16LE, WriteANSI, WriteFile.
  destruct enc; wp_steps; (split; [done|]); (split; [consumed|]); fields.
  all: rewrite ?(write_behind (files w)); cbn [app saved_as].
  all: (split; [|first [done | by eexists]]).
  all: try (by left).
  all: try (right; eexists; split; [reflexivity|];
            first [apply prefix_nil | by apply prefix_app_r]).
  all: f_equal.
  - by rewrite WideCharToMultiByte_utf8.
  - by rewrite WideCharToMultiByte_utf8.
  - by apply WideCharToMultiByte_acp.
Qed.

End SaveResult.

(** X5. A save touches the file it is given and nothing else: the document
    and every other file are as before, whatever fails.  When SaveTextFile
    returns TRUE the file holds exactly the bytes the text is saved as and no
    message was shown; when it returns FALSE exactly one message was shown and
    the file is untouched or holds a beginning of those bytes. *)
Theorem save_touches_one_file `{Locale} (w : World) (path : string)
    (text : list wchar) (len : nat) (enc : TextEncoding) :
  let ok := fst (SaveTextFile path text len enc w) in
  let w' := snd (SaveTextFile path text len enc w) in
  same_document w w' /\ same_files_but path w w'
  /\ (ok = true ->
      files w' !! path = Some (saved_as enc (take len text))
      /\ trace w' = trace w)
  /\ (ok = false ->
      (files w' !! path = files w !! path
       \/ exists written,
            files w' !! path = Some written
            /\ written `prefix_of` saved_as enc (take len text))
      /\ exists message, trace w' = trace w ++ [MessageBoxW message]).
Proof.
  intros ok w'. pose proof (SaveTextFile_result path text len enc w) as Hsave.
  unfold wp in Hsave. fold ok w' in Hsave.
  destruct Hsave as (Hdoc & _ & Hsave).
  split; [done|]. destruct ok.
  - destruct Hsave as [Hfiles Htrace]. split; [|split]; [| |done].
    + by eapply same_files_but_insert.
    + intros _. split; [|done]. rewrite Hfiles. apply lookup_insert_eq.
  - destruct Hsave as [Hfiles Htrace]. split; [|split]; [|done|].
    + destruct Hfiles as [Hfiles | (written & Hfiles & _)].
      * by apply same_files_but_same.
      * by eapply same_files_but_insert.
    + intros _. split; [|done].
      destruct Hfiles as [Hfiles | (written & Hfiles & Hprefix)].
      * left. by rewrite Hfiles.
      * right. exists written. split; [|done]. rewrite Hfiles.
        apply lookup_insert_eq.
Qed.


(** ** DoFileSave in any world *)

Section DoFileSaveResult.
Context `{Locale}.

Lemma take_length_plus_one {A} (l : list A) : take (length l + 1 - 1) l = l.
Proof.
  replace (length l + 1 - 1) with (length l) by lia. apply firstn_all.
Qed.

(** What DoFileSave returns and leaves, whatever the world. *)
Lemma DoFileSave_result saveAs w :
  wp (DoFileSave saveAs)
    (fun ok w' =>
       edit_text w' = edit_text w /\ encoding w' = encoding w
       /\ consumes w w' /\ trace w `prefix_of` trace w'
       /\ same_files_but (currentPath w') w w'
       /\ currentPath w'
          = (if saveAs || bool_decide (currentPath w = "")
             then default (currentPath w) (save_dialog w)
             else currentPath w)
       /\ (if ok
           then edit_modify w' = false /\ modified w' = false
                /\ files w' !! currentPath w'
                   = Some (saved_as (encoding w) (edit_text w))
           else edit_modify w' = edit_modify w /\ modified w' = modified w))
    w.
Proof.
  unfold DoFileSave.
  wp_steps_using
    ltac:(wp_call SaveTextFile_result; intros (Hdoc & Hused & Hsave)).
  all: fields.
  all: try (unfold same_files_but; fields;
            by (repeat split; try consumed)).
  all: destruct Hdoc as (Htext & Hflag & Hpath & Hmod & Henc); fields.
  all: rewrite take_length_plus_one, firstn_all in Hsave.
  all: rewrite Htext, Hpath, Henc.
  all: destruct Hsave as [Hfiles Htrace].
  all: split; [done|]; split; [done|]; split; [consumed|].
  all: split;
    [ first [ by rewrite Htrace
            | destruct Htrace as [message ->]; by apply prefix_app_r ] |].
  all: split;
    [ unfold same_files_but; fields; intros other Hother;
      first [ rewrite Hfiles; by apply lookup_insert_ne
            | destruct Hfiles as [Hfiles | (written & Hfiles & _)];
              rewrite Hfiles; [done | by apply lookup_insert_ne] ]
    | repeat split; try done; rewrite Hfiles; apply lookup_insert_eq ].
Qed.

End DoFileSaveResult.

(** X6. DoFileSave never changes the text or the encoding of the document
    and touches no file but the one at the path it leaves in
    g_app.currentPath.  When it returns TRUE that file holds the bytes the
    text is saved as in the encoding of the document and both modified flags
    are cleared; when it returns FALSE both flags are as they were. *)
Theorem save_outcome `{Locale} (w : World) (saveAs : bool) :
  let ok := fst (DoFileSave saveAs w) in
  let w' := snd (DoFileSave saveAs w) in
  edit_text w' = edit_text w /\ encoding w' = encoding w
  /\ same_files_but (currentPath w') w w'
  /\ (ok = true ->
      files w' !! currentPath w' = Some (saved_as (encoding w) (edit_text w))
      /\ modified w' = false /\ edit_modify w' = false)
  /\ (ok = false ->
      modified w' = modified w /\ edit_modify w' = edit_modify w).
Proof.
  intros ok w'. pose proof (DoFileSave_result saveAs w) as Hsave.
  unfold wp in Hsave. fold ok w' in Hsave.
  destruct Hsave as (Htext & Henc & _ & _ & Hfiles & _ & Hok).
  split; [done|]. split; [done|]. split; [done|].
  destruct ok.
  - split; [|done]. intros _. by destruct Hok as (? & ? & ?).
  - split; [done|]. intros _. by destruct Hok.
Qed.

(** X7. Save As (and the save of an untitled document) makes the path the
    user chose the path of the document before anything is written: the
    document carries the new path even when the save then fails.  When the
    dialog is cancelled nothing at all changes. *)
Theorem save_as_renames_first `{Locale} (w : World) (saveAs : bool) :
  saveAs = true \/ currentPath w = "" ->
  match save_dialog w with
  | Some path => currentPath (snd (DoFileSave saveAs w)) = path
  | None => DoFileSave saveAs w = (false, w)
  end.
Proof.
  intros Hdialog.
  assert (Htest : saveAs || bool_decide (currentPath w = "") = true).
  { destruct Hdialog as [-> | Hpath]; [done|].
    rewrite bool_decide_eq_true_2 by done. apply orb_true_r. }
  destruct (save_dialog w) as [path|] eqn:Hanswer.
  - pose proof (DoFileSave_result saveAs w) as Hsave.
    unfold wp in Hsave. destruct Hsave as (_ & _ & _ & _ & _ & Hpath & _).
    by rewrite Hpath, Htest, Hanswer.
  - unfold DoFileSave, bind, get_currentPath, SaveFileDialog.
    by rewrite Htest, Hanswer.
Qed.

Lemma save_as_renames_first_witness :
  let w := mkWorld (L "text") true "old.txt" true ENC_UTF8 empty [] [false]
             (Some "new.txt") [] in
  (true = true \/ currentPath w = "")
  /\ fst (DoFileSave true w) = false
  /\ currentPath (snd (DoFileSave true w)) = "new.txt".
Proof.
  intros w.
  assert (Hdialog : true = true \/ currentPath w = "") by (by left).
  split; [exact Hdialog|]. split; [reflexivity|].
  exact (save_as_renames_first w true Hdialog).
Defined.


(** ** Saving in a world without failures *)

Section QuietSave.
Context `{Locale}.

(** The save of a document that has a path, when nothing fails. *)
Lemma DoFileSave_succeeds w :
  quiet w ->
  currentPath w <> "" ->
  (encoding w = ENC_UTF16LE \/ edit_text w <> []) ->
  (encoding w = ENC_ANSI -> wide_to_acp (edit_text w) <> []) ->
  fst (DoFileSave false w) = true.
Proof.
  intros Hq Hpath Hne Hacp.
  change (wp (DoFileSave false) (fun ok _ => ok = true) w).
  unfold DoFileSave. do 3 wp_quiet_step.
  cbn [orb]. rewrite bool_decide_eq_false_2 by done.
  repeat lazymatch goal with
         | |- wp (SaveTextFile _ _ _ _) _ _ => fail
         | |- _ => wp_quiet_step; cbn [negb]
         end.
  fields. rewrite take_length_plus_one.
  match goal with
  | |- wp (SaveTextFile ?p ?t ?l ?e) _ ?w1 =>
    destruct (SaveTextFile_writes w1 p t e) as (w' & Hrun & _);
      [split; scripts_ok | done | done |]
  end.
  unfold wp at 1. rewrite Hrun. cbn [fst snd]. by wp_steps.
Qed.

End QuietSave.

(** X8. A document without text cannot be saved in UTF-8, UTF-16BE or ANSI:
    with no call failing, the save creates the file, writes the UTF-8 mark
    (nothing for ANSI), stops at the conversion of zero code units, shows
    "Failed writing file." and returns FALSE.  What the file held before is
    gone and the document keeps its modified flag. *)
Theorem empty_document_is_not_saved `{Locale} (w : World) :
  quiet w ->
  currentPath w <> "" ->
  edit_text w = [] ->
  encoding w <> ENC_UTF16LE ->
  let ok := fst (DoFileSave false w) in
  let w' := snd (DoFileSave false w) in
  ok = false
  /\ files w' !! currentPath w
     = Some (match encoding w with
             | ENC_ANSI => []
             | _ => BOM_UTF8
             end)
  /\ trace w' = trace w ++ [MessageBoxW "Failed writing file."]
  /\ modified w' = modified w.
Proof.
  intros Hq Hpath Htext Henc ok w'.
  change (wp (DoFileSave false)
            (fun ok w' =>
               ok = false
               /\ files w' !! currentPath w
                  = Some (match encoding w with
                          | ENC_ANSI => []
                          | _ => BOM_UTF8
                          end)
               /\ trace w' = trace w ++ [MessageBoxW "Failed writing file."]
               /\ modified w' = modified w) w).
  clear ok w'.
  destruct w as [text flag path changed enc fs heap io dialog events].
  fields. subst text.
  unfold DoFileSave. do 3 wp_quiet_step.
  cbn [orb]. rewrite bool_decide_eq_false_2 by done.
  destruct enc; [|done|..];
    repeat (wp_quiet_step; fields; cbn [negb length take firstn]);
    fields; rewrite ?(write_behind fs), ?lookup_insert_eq; done.
Qed.

Lemma empty_document_is_not_saved_witness :
  let w := opened "a.txt" ENC_UTF8 [] [0x41%Z] in
  quiet w /\ currentPath w <> "" /\ edit_text w = []
  /\ encoding w <> ENC_UTF16LE
  /\ fst (DoFileSave false w) = false
  /\ files (snd (DoFileSave false w)) !! "a.txt" = Some BOM_UTF8.
Proof.
  intros w.
  assert (Hq : quiet w) by (split; constructor).
  assert (Hpath : currentPath w <> "") by discriminate.
  assert (Htext : edit_text w = []) by reflexivity.
  assert (Henc : encoding w <> ENC_UTF16LE) by discriminate.
  split; [exact Hq|]. split; [exact Hpath|]. split; [exact Htext|].
  split; [exact Henc|].
  pose proof (empty_document_is_not_saved w Hq Hpath Htext Henc) as Hsave.
  split; [exact (proj1 Hsave) | exact (proj1 (proj2 Hsave))].
Defined.

(** ** Opening a document *)

Lemma c_str_all text : Forall (fun u => u <> 0%Z) text -> c_str text = text.
Proof.
  induction 1 as [|u text Hu _ IH]; [done|]. cbn [c_str].
  destruct (Z.eqb_spec u 0); [done|]. by rewrite IH.
Qed.

Lemma c_str_no_NUL text : Forall (fun u => u <> 0%Z) (c_str text).
Proof.
  induction text as [|u text IH]; cbn [c_str]; [constructor|].
  destruct (Z.eqb_spec u 0); by constructor.
Qed.

Lemma c_str_stops before rest :
  Forall (fun u => u <> 0%Z) before -> c_str (before ++ 0%Z :: rest) = before.
Proof.
  induction 1 as [|u before Hu _ IH]; [done|]. cbn [app c_str].
  destruct (Z.eqb_spec u 0); [done|]. by rewrite IH.
Qed.

Lemma c_str_prefix text : c_str text `prefix_of` text.
Proof.
  induction text as [|u text IH]; cbn [c_str]; [done|].
  destruct (u =? 0)%Z; [apply prefix_nil | by apply prefix_cons].
Qed.

Section OpenResult.
Context `{Locale}.

(** What LoadDocumentFromPath returns and leaves, whatever the world. *)
Lemma LoadDocumentFromPath_result path w :
  wp (LoadDocumentFromPath path)
    (fun ok w' =>
       files w' = files w /\ consumes w w'
       /\ (if ok
           then currentPath w' = path /\ modified w' = false
                /\ edit_modify w' = false
                /\ Forall (fun u => u <> 0%Z) (edit_text w')
           else same_document w w')) w.
Proof.
  unfold LoadDocumentFromPath.
  wp_steps_using
    ltac:(wp_call LoadTextFile_result; intros (Hdoc & Hfiles & Hused & Hout)).
  all: fields; (split; [done|]); (split; [consumed|]).
  - repeat split. apply c_str_no_NUL.
  - done.
Qed.

(** The load of a file that holds a saved text, when nothing fails. *)
Lemma LoadTextFile_saved w path enc text :
  quiet w ->
  files w !! path = Some (saved_as enc text) ->
  (Z.of_nat (length (saved_as enc text)) <= UINT_MAX)%Z ->
  Forall is_wchar text ->
  match enc with
  | ENC_UTF16LE => True
  | ENC_ANSI => False
  | ENC_UTF8 | ENC_UTF16BE => text <> [] /\ well_formed_utf16 text
  end ->
  fst (LoadTextFile path w)
  = (true,
     mkLoaded (Some text) (length text)
       (match enc with
        | ENC_UTF16LE => ENC_UTF16LE
        | _ => ENC_UTF8
        end)).
Proof.
  intros [Hio Hok] Hfile Hsize Hunits Henc.
  destruct (LoadTextFile_reads w path _ Hfile)
    as (w' & Htrace & Hok' & ->); [done..|].
  destruct (DetectEncoding_cascade (saved_as enc text)) as (Hle & _ & H8 & _).
  assert (Hlen : (length (saved_as enc text) =? 0) = false)
    by (by destruct enc).
  rewrite Hlen. unfold bind at 1. unfold bind at 1. unfold bind at 1.
  cbn [record fst snd].
  destruct enc; [| |..|done].
  - rewrite H8 by (by eexists). destruct Henc as [Hne Hwf].
    by rewrite DecodeToWide_saved_UTF8.
  - rewrite Hle by (by eexists).
    by rewrite DecodeToWide_saved_UTF16LE.
  - rewrite H8 by (by eexists). destruct Henc as [Hne Hwf].
    change (saved_as ENC_UTF16BE text) with (saved_as ENC_UTF8 text).
    by rewrite DecodeToWide_saved_UTF8.
Qed.

End OpenResult.

(** X9. LoadDocumentFromPath never changes a file.  When it fails, the
    document is exactly as it was: text, path, encoding and both modified
    flags.  When it succeeds, the document carries the path, both flags are
    cleared and the text of the edit control holds no NUL. *)
Theorem open_outcome `{Locale} (w : World) (path : string) :
  let ok := fst (LoadDocumentFromPath path w) in
  let w' := snd (LoadDocumentFromPath path w) in
  files w' = files w
  /\ (ok = false -> same_document w w')
  /\ (ok = true ->
      currentPath w' = path /\ modified w' = false /\ edit_modify w' = false
      /\ Forall (fun u => u <> 0%Z) (edit_text w')).
Proof.
  intros ok w'. pose proof (LoadDocumentFromPath_result path w) as Hopen.
  unfold wp in Hopen. fold ok w' in Hopen.
  destruct Hopen as (Hfiles & _ & Hdoc). split; [done|].
  by destruct ok.
Qed.

(** X10. Save and open again.  A document with a path whose text holds
    16-bit code units and no NUL is saved, with no call failing; opening the
    saved file gives the text back.  This holds for every text in UTF-16LE,
    and in UTF-8 and UTF-16BE for the texts that are not empty and pair their
    surrogates.  The document opened again is UTF-16LE where it was
    UTF-16LE and UTF-8 otherwise: a UTF-16BE document comes back as UTF-8. *)
Theorem save_then_open `{Locale} (w : World) :
  quiet w ->
  currentPath w <> "" ->
  Forall is_wchar (edit_text w) ->
  Forall (fun u => u <> 0%Z) (edit_text w) ->
  match encoding w with
  | ENC_UTF16LE => True
  | ENC_ANSI => False
  | ENC_UTF8 | ENC_UTF16BE =>
    edit_text w <> [] /\ well_formed_utf16 (edit_text w)
  end ->
  (Z.of_nat (length (saved_as (encoding w) (edit_text w))) <= INT_MAX)%Z ->
  let saved := DoFileSave false w in
  let reopened := LoadDocumentFromPath (currentPath w) (snd saved) in
  fst saved = true /\ fst reopened = true
  /\ edit_text (snd reopened) = edit_text w
  /\ encoding (snd reopened)
     = match encoding w with
       | ENC_UTF16LE => ENC_UTF16LE
       | _ => ENC_UTF8
       end
  /\ currentPath (snd reopened) = currentPath w
  /\ modified (snd reopened) = false.
Proof.
  intros Hq Hpath Hunits Hnul Henc Hsize saved reopened.
  assert (Hsaved : fst saved = true).
  { apply DoFileSave_succeeds; try done.
    - destruct (encoding w); try tauto.
    - by intros Hansi; rewrite Hansi in Henc. }
  pose proof (DoFileSave_result false w) as Hsave.
  unfold wp in Hsave. fold saved in Hsave. rewrite Hsaved in Hsave.
  destruct Hsave as (_ & _ & Hused & _ & _ & Hsame & _ & _ & Hfile).
  cbn [orb] in Hsame. rewrite bool_decide_eq_false_2 in Hsame by done.
  rewrite Hsame in Hfile.
  assert (Hq1 : quiet (snd saved)) by (by apply (consumes_quiet w)).
  assert (Hfits : (Z.of_nat (length (saved_as (encoding w) (edit_text w)))
                   <= UINT_MAX)%Z)
    by (unfold INT_MAX, UINT_MAX in *; lia).
  pose proof (LoadTextFile_saved (snd saved) (currentPath w) (encoding w)
                (edit_text w) Hq1 Hfile Hfits Hunits Henc) as Hload.
  split; [done|].
  change (wp (LoadDocumentFromPath (currentPath w))
            (fun ok w' =>
               ok = true /\ edit_text w' = edit_text w
               /\ encoding w'
                  = match encoding w with
                    | ENC_UTF16LE => ENC_UTF16LE
                    | _ => ENC_UTF8
                    end
               /\ currentPath w' = currentPath w /\ modified w' = false)
            (snd saved)).
  unfold LoadDocumentFromPath. apply wp_bind. unfold wp at 1.
  destruct (LoadTextFile (currentPath w) (snd saved)) as [loaded w2].
  cbn [fst snd] in Hload |- *. subst loaded. wp_steps. fields.
  cbn [textOut encodingOut deref default from_option id].
  by rewrite c_str_all.
Qed.

Lemma save_then_open_witness :
  let w := opened "a.txt" ENC_UTF16BE (L "A") [0xFE; 0xFF; 0x00; 0x41]%Z in
  quiet w /\ currentPath w <> "" /\ Forall is_wchar (edit_text w)
  /\ edit_text (snd (LoadDocumentFromPath "a.txt" (snd (DoFileSave false w))))
     = L "A"
  /\ encoding (snd (LoadDocumentFromPath "a.txt" (snd (DoFileSave false w))))
     = ENC_UTF8.
Proof.
  intros w.
  assert (Hq : quiet w) by (split; constructor).
  assert (Hpath : currentPath w <> "") by discriminate.
  assert (Hunits : Forall is_wchar (edit_text w))
    by (repeat constructor; vm_compute; congruence).
  assert (Hnul : Forall (fun u => u <> 0%Z) (edit_text w))
    by (repeat constructor; discriminate).
  assert (Hwf : edit_text w <> [] /\ well_formed_utf16 (edit_text w)).
  { split; [discriminate|].
    apply wf16_unit; [vm_compute; split; congruence | | apply wf16_empty].
    intros [Hlow _]. vm_compute in Hlow. by apply Hlow. }
  assert (Hsize : (Z.of_nat (length (saved_as (encoding w) (edit_text w)))
                   <= INT_MAX)%Z) by (vm_compute; congruence).
  split; [exact Hq|]. split; [exact Hpath|]. split; [exact Hunits|].
  pose proof (save_then_open w Hq Hpath Hunits Hnul Hwf Hsize) as Hround.
  split; [exact (proj1 (proj2 (proj2 Hround)))
         | exact (proj1 (proj2 (proj2 (proj2 Hround))))].
Defined.

(** ** What is detected *)

Section Detected.
Context `{Locale}.



(** DetectEncoding answers UTF-8 or ANSI on data without a UTF-16 mark. *)
Lemma DetectEncoding_without_mark data :
  ~ BOM_UTF16LE `prefix_of` data -> ~ BOM_UTF16BE `prefix_of` data ->
  DetectEncoding data = ENC_UTF8 \/ DetectEncoding data = ENC_ANSI.
Proof.
  intros Nle Nbe.
  destruct (DetectEncoding_cascade data) as (_ & _ & H8 & Hrest).
  destruct (decide (BOM_UTF8 `prefix_of` data)) as [P8|N8]; [by left; apply H8|].
  destruct (Hrest Nle Nbe N8) as [Hutf8 Hansi].
  destruct (0 <? length (MultiByteToWideChar CP_UTF8 MB_ERR_INVALID_CHARS data))
    eqn:Hvalid.
  - left. by apply Hutf8, validation_call.
  - right. apply Hansi. intros Hwf. apply validation_call in Hwf. congruence.
Qed.

End Detected.

(** X11. DetectEncoding answers UTF-16LE exactly for the data that begin with
    FF FE and UTF-16BE exactly for the data that begin with FE FF: UTF-16
    text without its mark is never taken for UTF-16. *)
Theorem utf16_is_known_by_its_mark `{Locale} (data : list byte) :
  (DetectEncoding data = ENC_UTF16LE <-> BOM_UTF16LE `prefix_of` data)
  /\ (DetectEncoding data = ENC_UTF16BE <-> BOM_UTF16BE `prefix_of` data).
Proof.
  destruct (DetectEncoding_cascade data) as (Hle & Hbe & _).
  destruct (decide (BOM_UTF16LE `prefix_of` data)) as [Ple|Nle].
  { split; [by split|]. rewrite (Hle Ple). split; [done|].
    intros Pbe. destruct Ple as [k ->]. by destruct Pbe as [k' [=]]. }
  destruct (decide (BOM_UTF16BE `prefix_of` data)) as [Pbe|Nbe].
  { split; [|by split]. rewrite (Hbe Pbe). by split. }
  destruct (DetectEncoding_without_mark data Nle Nbe) as [-> | ->];
    by repeat split.
Qed.



(** ** Leaving a document *)

Section LeaveResult.
Context `{Locale}.

(** What PromptSaveChanges returns and leaves, whatever the world: it says
    to go on when the document was not modified, when the user answered No,
    or when the user answered Yes and the document is saved. *)
Lemma PromptSaveChanges_result answer w :
  wp (PromptSaveChanges answer)
    (fun proceed w' =>
       edit_text w' = edit_text w /\ encoding w' = encoding w
       /\ consumes w w' /\ trace w `prefix_of` trace w'
       /\ same_files_but (currentPath w') w w'
       /\ (if proceed
           then (modified w = false /\ w' = w)
                \/ (modified w = true /\ answer = IDNO
                    /\ same_document w w' /\ files w' = files w)
                \/ (modified w = true /\ answer = IDYES
                    /\ modified w' = false /\ edit_modify w' = false
                    /\ files w' !! currentPath w'
                       = Some (saved_as (encoding w) (edit_text w)))
           else modified w = true /\ modified w' = true /\ answer <> IDNO
                /\ edit_modify w' = edit_modify w)) w.
Proof.
  unfold PromptSaveChanges.
  wp_steps_using
    ltac:(wp_call DoFileSave_result;
          intros (Htext & Henc & Hused & Htrace & Hfiles & Hpath & Hok)).
  all: fields.
  - split; [done|]. split; [done|]. split; [consumed|].
    split; [by etrans; [apply prefix_app_r|]|].
    split; [done|]. destruct a.
    + right. right. destruct Hok as (? & ? & ?). by repeat split.
    + destruct Hok as [? ?]. repeat split; try done; congruence.
  - repeat split; try done; try consumed.
    + by apply prefix_app_r.
    + right. left. by repeat split.
  - repeat split; try done; try consumed.
    by apply prefix_app_r.
  - repeat split; try done. by left.
Qed.

End LeaveResult.


Section LeaveOutcome.
Context `{Locale}.

Lemma PromptSaveChanges_settles answer w :
  wp (PromptSaveChanges answer)
    (fun proceed w' =>
       edit_text w' = edit_text w /\ consumes w w'
       /\ (if proceed then changes_settled answer w w'
           else modified w' = true /\ encoding w' = encoding w
                /\ answer <> IDNO)) w.
Proof.
  wp_call PromptSaveChanges_result.
  intros (Htext & Henc & Hused & _ & _ & Hcase).
  split; [done|]. split; [done|]. destruct a.
  - destruct Hcase as [[Hmod _] | [(_ & Hno & _) | (_ & _ & _ & _ & Hfile)]].
    + by left.
    + by right; left.
    + right. right. by eexists.
  - by destruct Hcase as (_ & ? & ? & _).
Qed.

(** What DoFileNew leaves, whatever the world. *)
Lemma DoFileNew_result answer w :
  wp (DoFileNew answer)
    (fun _ w' =>
       (edit_text w' = [] /\ currentPath w' = "" /\ encoding w' = ENC_UTF8
        /\ modified w' = false /\ edit_modify w' = false
        /\ changes_settled answer w w')
       \/ (edit_text w' = edit_text w /\ encoding w' = encoding w
           /\ modified w' = true /\ answer <> IDNO)) w.
Proof.
  unfold DoFileNew.
  wp_steps_using
    ltac:(wp_call PromptSaveChanges_settles; intros (Htext & Hused & Hcase)).
  - left. by repeat split.
  - right. by destruct Hcase as (? & ? & ?).
Qed.

(** What DoFileOpen returns and leaves, whatever the world. *)
Lemma DoFileOpen_result answer chosen w :
  wp (DoFileOpen answer chosen)
    (fun ok w' =>
       if ok
       then Some (currentPath w') = chosen /\ modified w' = false
            /\ edit_modify w' = false /\ changes_settled answer w w'
       else edit_text w' = edit_text w) w.
Proof.
  unfold DoFileOpen.
  wp_steps_using
    ltac:(first
            [ wp_call PromptSaveChanges_settles;
              intros (Htext & Hused & Hcase)
            | wp_call LoadDocumentFromPath_result;
              intros (Hfiles & Hused' & Hopen) ]).
  - destruct a0.
    + destruct Hopen as (-> & ? & ? & _). repeat split; try done.
      destruct Hcase as [? | [? | [path Hfile]]];
        [by left | by right; left | right; right].
      exists path. by rewrite Hfiles.
    + destruct Hopen as (? & _). congruence.
  - done.
  - done.
Qed.

(** What the drop of a file leaves, whatever the world. *)
Lemma WM_DROPFILES_result answer dropped w :
  wp (WM_DROPFILES answer dropped)
    (fun _ w' =>
       edit_text w' = edit_text w
       \/ (Some (currentPath w') = dropped /\ modified w' = false
           /\ changes_settled answer w w')) w.
Proof.
  unfold WM_DROPFILES.
  wp_steps_using
    ltac:(first
            [ wp_call PromptSaveChanges_settles;
              intros (Htext & Hused & Hcase)
            | wp_call LoadDocumentFromPath_result;
              intros (Hfiles & Hused' & Hopen) ]).
  - destruct a0.
    + right. destruct Hopen as (-> & ? & ? & _). repeat split; try done.
      destruct Hcase as [? | [? | [path Hfile]]];
        [by left | by right; left | right; right].
      exists path. by rewrite Hfiles.
    + left. destruct Hopen as (? & _). congruence.
  - by left.
  - by left.
Qed.

End LeaveOutcome.

(** X13. PromptSaveChanges never changes the text.  An unmodified document
    is left without a question: the call returns TRUE and nothing at all
    changes.  It returns TRUE for a modified document only when the user
    answered No, or answered Yes and the save succeeded, in which case the
    file at the path of the document holds the text and the document is
    no longer modified; and the window is destroyed on WM_CLOSE only
    then. *)
Theorem prompt_protects_changes `{Locale} (w : World) (answer : Answer) :
  let proceed := fst (PromptSaveChanges answer w) in
  let w' := snd (PromptSaveChanges answer w) in
  edit_text w' = edit_text w
  /\ (modified w = false -> PromptSaveChanges answer w = (true, w))
  /\ (modified w = true -> proceed = true ->
      answer = IDNO
      \/ (answer = IDYES /\ modified w' = false
          /\ files w' !! currentPath w'
             = Some (saved_as (encoding w) (edit_text w))))
  /\ (proceed = false -> answer <> IDNO /\ modified w' = true)
  /\ WM_CLOSE answer w = (proceed, w').
Proof.
  intros proceed w'.
  pose proof (PromptSaveChanges_result answer w) as Hprompt.
  unfold wp in Hprompt. fold proceed w' in Hprompt.
  destruct Hprompt as (Htext & _ & _ & _ & _ & Hcase).
  split; [done|]. split; [|split; [|split]].
  - intros Hmod. unfold PromptSaveChanges, bind, get_modified.
    by rewrite Hmod.
  - intros Hmod Hgo. rewrite Hgo in Hcase.
    destruct Hcase as [[? _] | [(_ & ? & _) | (_ & ? & ? & _ & ?)]];
      [congruence | by left | by right].
  - intros Hstop. rewrite Hstop in Hcase. by destruct Hcase as (_ & ? & ? & _).
  - unfold WM_CLOSE, bind. unfold proceed, w'.
    by destruct (PromptSaveChanges answer w) as [[] ?].
Qed.

(** X14. DoFileNew either starts the empty UTF-8 document (no text, no path,
    both modified flags cleared) or leaves the text and the encoding as they
    are.  It starts the new document only when the changes of the old one are
    settled: there were none, or the user answered No, or a file holds the
    old text; it leaves the old one, still modified, when the user cancelled
    or the save failed. *)
Theorem new_document_outcome `{Locale} (w : World) (answer : Answer) :
  let w' := snd (DoFileNew answer w) in
  (edit_text w' = [] /\ currentPath w' = "" /\ encoding w' = ENC_UTF8
   /\ modified w' = false /\ edit_modify w' = false
   /\ changes_settled answer w w')
  \/ (edit_text w' = edit_text w /\ encoding w' = encoding w
      /\ modified w' = true /\ answer <> IDNO).
Proof. exact (DoFileNew_result answer w). Qed.

(** X15. DoFileOpen (and the drop of a file on the window) replaces the
    document only when the changes of the old one are settled.  When
    DoFileOpen returns TRUE the document carries the chosen path and is not
    modified; when it returns FALSE (the question or the dialog was
    cancelled, the save or the load failed) the text is the one that was
    there. *)
Theorem open_document_outcome `{Locale} (w : World) (answer : Answer)
    (chosen : option string) :
  (let ok := fst (DoFileOpen answer chosen w) in
   let w' := snd (DoFileOpen answer chosen w) in
   (ok = true ->
    Some (currentPath w') = chosen /\ modified w' = false
    /\ edit_modify w' = false /\ changes_settled answer w w')
   /\ (ok = false -> edit_text w' = edit_text w))
  /\ (let w' := snd (WM_DROPFILES answer chosen w) in
      edit_text w' = edit_text w
      \/ (Some (currentPath w') = chosen /\ modified w' = false
          /\ changes_settled answer w w')).
Proof.
  split; [|exact (WM_DROPFILES_result answer chosen w)].
  intros ok w'. pose proof (DoFileOpen_result answer chosen w) as Hopen.
  unfold wp in Hopen. fold ok w' in Hopen. by destruct ok.
Qed.

(** ** What a search finds *)

Section FoundOffset.
Variables hay ndl : list wchar.
Hypothesis ndl_not_empty : ndl <> [].

(** The offset FindInEdit settles on is an occurrence, and it settles on
    none only when there is none: the wrap makes the search complete. *)
Lemma found_offset_complete searchDown startPos :
  match found_offset hay ndl searchDown startPos with
  | Some i => occurs_at hay ndl i
  | None => forall j, ~ occurs_at hay ndl j
  end.
Proof.
  unfold found_offset. cbv zeta.
  set (len := length hay).
  set (sp := if len <? startPos then len else startPos).
  assert (Hsp : sp <= len)
    by (unfold sp; destruct (Nat.ltb_spec len startPos); lia).
  destruct searchDown.
  - destruct (wcsstr_at hay sp ndl) as [f|] eqn:Hstr; cbn [is_null andb].
    { by apply wcsstr_at_Some in Hstr as (_ & ? & _). }
    destruct (Nat.ltb_spec 0 sp) as [Hpos|Hzero].
    + destruct (wcsstr_at hay 0 ndl) as [f|] eqn:Hwrap.
      * by apply wcsstr_at_Some in Hwrap as (_ & ? & _).
      * intros j. apply (wcsstr_at_None _ _ _ Hwrap). lia.
    + intros j. apply (wcsstr_at_None _ _ _ Hstr). lia.
  - destruct (backward_scan_spec hay ndl ndl_not_empty sp (S len) 0 None)
      as [Hsound Hcomplete]; [lia | discriminate | lia |].
    destruct (backward_wrap_spec hay ndl ndl_not_empty sp (S len) sp None)
      as [Wsound Wcomplete]; [lia | discriminate | lia | lia |].
    destruct (backward_scan (S len) hay ndl sp 0 None) as [f|] eqn:Hscan;
      cbn [is_null andb].
    { by destruct (Hsound f eq_refl). }
    assert (Hbelow : forall j, occurs_at hay ndl j -> ~ j < sp).
    { intros j Hocc Hj. by destruct (Hcomplete j Hocc Hj) as (f & [=] & _). }
    destruct (Nat.ltb_spec sp len) as [Hlt|Hge].
    + destruct (backward_wrap (S len) hay ndl sp None) as [f|] eqn:Hwrap.
      * by destruct (Wsound f eq_refl).
      * intros j Hocc. destruct (Nat.lt_ge_cases j sp) as [Hj|Hj].
        -- by apply (Hbelow j).
        -- by destruct (Wcomplete j Hocc Hj) as (f & [=] & _).
    + intros j Hocc. apply (Hbelow j Hocc).
      pose proof (occurs_below_length _ _ ndl_not_empty _ Hocc). lia.
Qed.

End FoundOffset.

Lemma occurs_at_map (f : wchar -> wchar) hay needle i :
  occurs_at hay needle i -> occurs_at (map f hay) (map f needle) i.
Proof.
  unfold occurs_at. intros Hocc.
  by rewrite length_map, <- fmap_drop, <- fmap_take, Hocc.
Qed.

(** X16. Whatever the direction and the start, what FindInEdit returns is an
    occurrence of the needle that lies within the text, with the end of the
    match a needle's length behind its start; and it returns nothing only
    when the needle occurs nowhere in the text, so the wrap leaves no
    occurrence unfound.  Occurrences are those of the comparison copies. *)
Theorem find_is_sound_and_complete `{Locale} (w : World) (needle : list wchar)
    (matchCase searchDown : bool) (startPos : nat) :
  needle <> [] ->
  allocations_succeed w ->
  let hay := comparison matchCase (edit_text w) in
  let ndl := comparison matchCase needle in
  match fst (FindInEdit (Some needle) matchCase searchDown startPos w) with
  | Some (outStart, outEnd) =>
    occurs_at hay ndl outStart /\ outEnd = outStart + length needle
    /\ outEnd <= length (edit_text w)
  | None => forall j, ~ occurs_at hay ndl j
  end.
Proof.
  intros Hne Hok hay ndl.
  assert (Hndl : ndl <> []) by by apply comparison_not_empty.
  rewrite FindInEdit_run by done. cbn [fst]. fold hay ndl.
  pose proof (found_offset_complete hay ndl Hndl searchDown startPos) as Hfound.
  destruct (found_offset hay ndl searchDown startPos) as [i|]; [|done].
  split; [done|]. split; [done|].
  pose proof (occurs_at_bound _ _ _ Hndl Hfound) as Hbound.
  unfold hay, ndl in Hbound. by rewrite !comparison_length in Hbound.
Qed.

Lemma find_is_sound_and_complete_witness :
  L "a" <> [] /\ allocations_succeed (document (L "xaxa"))
  /\ match fst (FindInEdit (Some (L "a")) true false 3 (document (L "xaxa")))
     with
     | Some (outStart, outEnd) =>
       occurs_at (L "xaxa") (L "a") outStart /\ outEnd = outStart + 1
       /\ outEnd <= 4
     | None => forall j, ~ occurs_at (L "xaxa") (L "a") j
     end.
Proof.
  assert (Hne : L "a" <> []) by discriminate.
  assert (Hok : allocations_succeed (document (L "xaxa"))) by constructor.
  split; [exact Hne|]. split; [exact Hok|].
  exact (find_is_sound_and_complete (document (L "xaxa")) (L "a") true false 3
           Hne Hok).
Defined.

(** X17. A search that ignores case finds something whenever the search
    that matches case does, whatever the directions and the starts of the two
    searches. *)
Theorem ignoring_case_finds_more `{Locale} (w : World) (needle : list wchar)
    (down down' : bool) (startPos startPos' : nat) :
  needle <> [] ->
  allocations_succeed w ->
  fst (FindInEdit (Some needle) true down startPos w) <> None ->
  fst (FindInEdit (Some needle) false down' startPos' w) <> None.
Proof.
  intros Hne Hok Hfound Hnone.
  rewrite FindInEdit_run in Hfound, Hnone by done. cbn [fst] in *.
  pose proof (found_offset_complete (edit_text w) needle Hne down startPos)
    as Hcase.
  assert (Hlow : map CharLowerW needle <> []) by (by destruct needle).
  pose proof (found_offset_complete (map CharLowerW (edit_text w))
                (map CharLowerW needle) Hlow down' startPos') as Hblind.
  cbn [comparison] in *.
  destruct (found_offset (edit_text w) needle down startPos) as [i|]; [|done].
  destruct (found_offset (map CharLowerW (edit_text w))
              (map CharLowerW needle) down' startPos') as [i'|]; [done|].
  apply (Hblind i). by apply occurs_at_map.
Qed.

Lemma ignoring_case_finds_more_witness :
  L "a" <> [] /\ allocations_succeed (document (L "xaxa"))
  /\ fst (FindInEdit (Some (L "a")) true true 0 (document (L "xaxa"))) <> None
  /\ fst (FindInEdit (Some (L "a")) false false 4 (document (L "xaxa")))
     <> None.
Proof.
  assert (Hne : L "a" <> []) by discriminate.
  assert (Hok : allocations_succeed (document (L "xaxa"))) by constructor.
  assert (Hfound : fst (FindInEdit (Some (L "a")) true true 0
                          (document (L "xaxa"))) <> None) by discriminate.
  split; [exact Hne|]. split; [exact Hok|]. split; [exact Hfound|].
  exact (ignoring_case_finds_more (document (L "xaxa")) (L "a") true false 0 4
           Hne Hok Hfound).
Defined.

(** ** What Replace All changes *)

Section ReplaceResult.
Context `{Locale}.

(** What ReplaceAllOccurrences returns and leaves, whatever the world. *)
Lemma ReplaceAllOccurrences_result needle replacement matchCase w :
  wp (ReplaceAllOccurrences needle replacement matchCase)
    (fun count w' =>
       files w' = files w /\ currentPath w' = currentPath w
       /\ encoding w' = encoding w /\ trace w' = trace w
       /\ (if count =? 0 then same_document w w'
           else modified w' = true /\ edit_modify w' = true)) w.
Proof.
  unfold ReplaceAllOccurrences, GetEditText.
  wp_steps; fields; try by repeat split.
  repeat (split; [done|]).
  match goal with
  | Hcount : (?c =? 0) = false |- _ => by rewrite Hcount
  end.
Qed.

Lemma greedy_scan_empty hay ndl cursor positions :
  greedy_scan hay ndl cursor positions ->
  positions = [] <-> forall j, cursor <= j -> ~ occurs_at hay ndl j.
Proof.
  destruct 1 as [cursor Hnone | cursor i rest (Hocc & Hle & _) _].
  - by split.
  - split; [done|]. intros Hnone. by destruct (Hnone i Hle).
Qed.

Lemma splice_same text ndl cursor positions :
  greedy_scan text ndl cursor positions ->
  splice text cursor positions (length ndl) ndl = drop cursor text.
Proof.
  induction 1 as [cursor Hnone | cursor i rest (Hocc & Hle & _) _ IH];
    cbn [splice]; [done|].
  rewrite IH. unfold occurs_at in Hocc.
  symmetry. rewrite <- (take_drop (i - cursor) (drop cursor text)) at 1.
  f_equal. rewrite drop_drop. replace (cursor + (i - cursor)) with i by lia.
  rewrite <- (take_drop (length ndl) (drop i text)) at 1.
  by rewrite Hocc, drop_drop.
Qed.

End ReplaceResult.

(** X18. Replace All changes the document completely or not at all.  When
    ReplaceAllOccurrences returns 0 (no needle, no occurrence, no memory) the
    text, the path, the encoding and both modified flags are as they were;
    when it returns a count above 0 both modified flags are set.  It never
    touches a file and never shows a message. *)
Theorem replace_all_or_nothing `{Locale} (w : World)
    (needle replacement : option (list wchar)) (matchCase : bool) :
  let count := fst (ReplaceAllOccurrences needle replacement matchCase w) in
  let w' := snd (ReplaceAllOccurrences needle replacement matchCase w) in
  files w' = files w /\ trace w' = trace w
  /\ (count = 0 -> same_document w w')
  /\ (count <> 0 -> modified w' = true /\ edit_modify w' = true).
Proof.
  intros count w'.
  pose proof (ReplaceAllOccurrences_result needle replacement matchCase w)
    as Hrun.
  unfold wp in Hrun. fold count w' in Hrun.
  destruct Hrun as (Hfiles & _ & _ & Htrace & Hcase).
  split; [done|]. split; [done|].
  destruct (Nat.eqb_spec count 0); by split.
Qed.

(** X19. Replace All and Find agree: with a needle that is not empty and no
    allocation failing, ReplaceAllOccurrences returns 0 exactly when
    FindInEdit finds nothing, whatever the direction and the start of the
    search. *)
Theorem replace_all_agrees_with_find `{Locale} (w : World)
    (needle : list wchar) (replacement : option (list wchar))
    (matchCase searchDown : bool) (startPos : nat) :
  needle <> [] ->
  allocations_succeed w ->
  fst (ReplaceAllOccurrences (Some needle) replacement matchCase w) = 0
  <-> fst (FindInEdit (Some needle) matchCase searchDown startPos w) = None.
Proof.
  intros Hne Hok.
  destruct (ReplaceAllOccurrences_run w needle replacement matchCase Hne Hok)
    as (positions & w' & Hscan & -> & _).
  rewrite FindInEdit_run by done. cbn [fst].
  assert (Hndl : comparison matchCase needle <> [])
    by by apply comparison_not_empty.
  pose proof (found_offset_complete (comparison matchCase (edit_text w)) _
                Hndl searchDown startPos) as Hfound.
  pose proof (greedy_scan_empty _ _ _ _ Hscan) as Hempty.
  destruct (found_offset _ _ searchDown startPos) as [i|].
  - split; [|done]. intros Hzero. destruct positions; [|done].
    destruct (proj1 Hempty eq_refl i); [lia | done].
  - split; [done|]. intros _.
    rewrite (proj2 Hempty); [done|]. intros j _. apply Hfound.
Qed.

Lemma replace_all_agrees_with_find_witness :
  L "z" <> [] /\ allocations_succeed (document (L "xaxa"))
  /\ (fst (ReplaceAllOccurrences (Some (L "z")) (Some (L "b")) true
             (document (L "xaxa"))) = 0
      <-> fst (FindInEdit (Some (L "z")) true true 0 (document (L "xaxa")))
          = None).
Proof.
  assert (Hne : L "z" <> []) by discriminate.
  assert (Hok : allocations_succeed (document (L "xaxa"))) by constructor.
  split; [exact Hne|]. split; [exact Hok|].
  exact (replace_all_agrees_with_find (document (L "xaxa")) (L "z")
           (Some (L "b")) true true 0 Hne Hok).
Defined.

(** X20. Replacing a needle by itself with matchCase leaves the text as it
    is, whatever the text and however often the needle occurs. *)
Theorem replace_by_itself `{Locale} (w : World) (needle : list wchar) :
  needle <> [] ->
  allocations_succeed w ->
  edit_text (snd (ReplaceAllOccurrences (Some needle) (Some needle) true w))
  = edit_text w.
Proof.
  intros Hne Hok.
  destruct (ReplaceAllOccurrences_run w needle (Some needle) true Hne Hok)
    as (positions & w' & Hscan & -> & Htext & _).
  cbn [comparison] in Hscan. cbn [snd]. rewrite Htext.
  cbn [deref default from_option id]. change (id needle) with needle.
  by rewrite (splice_same _ _ _ _ Hscan), drop_0.
Qed.

Lemma replace_by_itself_witness :
  L "a" <> [] /\ allocations_succeed (document (L "xaxa"))
  /\ edit_text (snd (ReplaceAllOccurrences (Some (L "a")) (Some (L "a")) true
                       (document (L "xaxa"))))
     = edit_text (document (L "xaxa")).
Proof.
  assert (Hne : L "a" <> []) by discriminate.
  assert (Hok : allocations_succeed (document (L "xaxa"))) by constructor.
  split; [exact Hne|]. split; [exact Hok|].
  exact (replace_by_itself (document (L "xaxa")) (L "a") Hne Hok).
Defined.

(** ** Find Next and the messages of the Find and Replace dialogs *)

Section SearchCommands.
Context `{Locale}.

(** What FindInEdit leaves, whatever the world. *)
Lemma FindInEdit_result needle matchCase searchDown startPos w :
  wp (FindInEdit needle matchCase searchDown startPos)
    (fun _ w' =>
       same_document w w' /\ files w' = files w /\ trace w' = trace w) w.
Proof. unfold FindInEdit, GetEditText. wp_steps; by repeat split. Qed.

Lemma found_offset_run w needle matchCase searchDown startPos :
  needle <> [] ->
  allocations_succeed w ->
  exists w',
    FindInEdit (Some needle) matchCase searchDown startPos w
    = (match found_offset (comparison matchCase (edit_text w))
               (comparison matchCase needle) searchDown startPos with
       | Some pos => Some (pos, pos + length needle)
       | None => None
       end, w')
    /\ same_document w w' /\ files w' = files w /\ trace w' = trace w
    /\ allocations_succeed w'.
Proof.
  intros Hne Hok. eexists. split; [by apply FindInEdit_run|].
  repeat split. by do 2 apply after_alloc_succeeds.
Qed.

(** What FindInEdit returns, whatever the world: nothing, or the offset the
    search settles on. *)
Lemma FindInEdit_found needle matchCase searchDown startPos w :
  needle <> [] ->
  wp (FindInEdit (Some needle) matchCase searchDown startPos)
    (fun r _ =>
       r = None
       \/ r = match found_offset (comparison matchCase (edit_text w))
                      (comparison matchCase needle) searchDown startPos with
              | Some pos => Some (pos, pos + length needle)
              | None => None
              end) w.
Proof.
  intros Hne. unfold FindInEdit, GetEditText.
  destruct needle as [|c tl_] eqn:Hneedle; [done|].
  cbn [null_or_empty]. rewrite <- Hneedle in *.
  wp_steps.
  all: try (by left).
  all: right.
  all: match goal with
       | Hfound : _ = _ :> option nat |- _ => 
         cbn [after_alloc edit_text deref default from_option id] in Hfound;
         unfold wcslen in Hfound;
         rewrite Nat.add_sub, firstn_all, StringCchCopyW_all in Hfound
       end.
  all: unfold found_offset, comparison;
       destruct matchCase; cbn [negb] in *;
       rewrite ?CharLowerBuffW_all in *; rewrite ?length_map;
       match goal with
       | Hfound : _ = _ :> option nat |- _ => by rewrite Hfound
       end.
Qed.

End SearchCommands.

(** X21. Find Next.  DoFindNext never changes the document or a file.
    Without a search text it opens the Find dialog and returns FALSE, showing
    no message.  With a search text, when it returns TRUE the span it
    selects is an occurrence of the search text and no message is shown, and
    when it returns FALSE it has shown "Cannot find the text."; this is so
    whatever the outcome of the allocations, a failed one making the search
    fail.  With a search text and no allocation failing, it searches from
    the end of the selection when the direction is down and from its start
    when it is up, the direction being that of FR_DOWN, turned round by
    [reverse]: down, it selects the first occurrence at or behind the end of
    the selection; up, the last occurrence before its start; and it fails
    exactly when the text does not occur at all. *)
Theorem find_next_outcome `{Locale} (w : World) (reverse : bool)
    (sel : nat * nat) (s : Search) :
  let matchCase := has_flag (findFlags s) FR_MATCHCASE in
  let down :=
    if reverse then negb (has_flag (findFlags s) FR_DOWN)
    else has_flag (findFlags s) FR_DOWN in
  let hay := comparison matchCase (edit_text w) in
  let ndl := comparison matchCase (findText s) in
  let run := DoFindNext reverse sel s w in
  (same_document w (snd run) /\ files (snd run) = files w)
  /\ (findText s = [] ->
      fst run = (false, None)
      /\ trace (snd run) = trace w ++ [Called "ShowFindDialog"])
  /\ (findText s <> [] ->
      match fst run with
      | (true, Some (i, j)) =>
        occurs_at hay ndl i /\ j = i + length (findText s)
        /\ trace (snd run) = trace w
      | (false, None) =>
        trace (snd run) = trace w ++ [MessageBoxW "Cannot find the text."]
      | _ => False
      end)
  /\ (findText s <> [] ->
      allocations_succeed w ->
      (down = true ->
       forall i,
         first_occurrence_from hay ndl
           (Nat.min (snd sel) (length (edit_text w))) i ->
         fst run = (true, Some (i, i + length (findText s))))
      /\ (down = false ->
          forall i,
            last_occurrence_below hay ndl (fst sel) i ->
            fst run = (true, Some (i, i + length (findText s))))
      /\ ((forall j, ~ occurs_at hay ndl j) <-> fst run = (false, None))).
Proof.
  intros matchCase down hay ndl run.
  destruct sel as [start end_].
  destruct (decide (findText s = [])) as [Hempty|Hne].
  { unfold run, DoFindNext. rewrite Hempty. cbn.
    split; [by repeat split|]. split; [done|]. by split. }
  assert (Hndl : ndl <> []) by by apply comparison_not_empty.
  set (from := if down then end_ else start).
  pose proof (FindInEdit_result (Some (findText s)) matchCase down from w)
    as Hleft.
  pose proof (FindInEdit_found (findText s) matchCase down from w Hne)
    as Hfound.
  unfold wp in Hleft, Hfound. fold hay ndl in Hfound.
  destruct (FindInEdit (Some (findText s)) matchCase down from w)
    as [found w'] eqn:Hrun.
  cbn [fst snd] in Hleft, Hfound.
  destruct Hleft as (Hdoc & Hfiles & Htrace).
  assert (Hdo : run
                = match found with
                  | Some (outStart, outEnd) =>
                    ((true, Some (outStart, outEnd)), w')
                  | None =>
                    ((false, None),
                     logged (MessageBoxW "Cannot find the text.") w')
                  end).
  { unfold run, DoFindNext.
    destruct (findText s) as [|c text] eqn:Htext; [done|].
    cbn [null_or_empty]. fold matchCase. fold down. fold from.
    unfold bind at 1. rewrite Hrun. by destruct found as [[? ?]|]. }
  pose proof (found_offset_complete hay ndl Hndl down from) as Hcomplete.
  split; [|split; [done|split]].
  - rewrite Hdo. by destruct found as [[? ?]|].
  - intros _. rewrite Hdo.
    destruct found as [[i j]|]; cbn [fst snd].
    + destruct Hfound as [|Hfound]; [done|].
      destruct (found_offset hay ndl down from) as [pos|]; [|done].
      injection Hfound as -> ->. by repeat split.
    + cbn. by rewrite Htrace.
  - intros _ Hok.
    rewrite (FindInEdit_run w (findText s) matchCase down from Hne Hok) in Hrun.
    fold hay ndl in Hrun. injection Hrun as <- _.
    destruct (found_offset_forward hay ndl Hndl end_) as (Hfirst & _ & _).
    destruct (found_offset_backward hay ndl Hndl start) as (Hlast & _ & _).
    assert (Hlen : length hay = length (edit_text w))
      by apply comparison_length.
    rewrite Hlen in Hfirst. rewrite Hdo. unfold from in *. cbn [fst snd].
    split; [|split].
    + intros Hdown i Hi. rewrite Hdown in *. by rewrite (Hfirst i Hi).
    + intros Hup i Hi. rewrite Hup in *. by rewrite (Hlast i Hi).
    + destruct (found_offset hay ndl down _) as [i|]; cbn [fst].
      * split; [|done]. intros Hnone. by destruct (Hnone i).
      * by split.
Qed.

Lemma find_next_outcome_witness :
  let s := mkSearch FR_DOWN (L "a") [] in
  findText s <> [] /\ allocations_succeed (document (L "xaxa"))
  /\ fst (DoFindNext false (1, 2) s (document (L "xaxa")))
     = (true, Some (3, 3 + length (findText s)))
  /\ fst (DoFindNext true (3, 4) s (document (L "xaxa")))
     = (true, Some (1, 1 + length (findText s))).
Proof.
  intros s.
  assert (Hne : findText s <> []) by discriminate.
  assert (Hok : allocations_succeed (document (L "xaxa"))) by constructor.
  split; [exact Hne|]. split; [exact Hok|].
  assert (Hnot : forall j, occurs_at (L "xaxa") (L "a") j ->
            j = 1 \/ j = 3).
  { intros j Hocc.
    do 4 (destruct j as [|j]; [first [tauto | vm_compute in Hocc; congruence]|]).
    pose proof (occurs_at_bound _ _ _ Hne Hocc) as Hbound.
    cbn in Hbound. lia. }
  split.
  - apply (proj1 (proj2 (proj2 (proj2
             (find_next_outcome (document (L "xaxa")) false (1, 2) s)))
             Hne Hok) eq_refl 3).
    split; [reflexivity|]. split; [cbn; lia|].
    intros j Hocc Hj. destruct (Hnot j Hocc) as [-> | ->]; cbn in Hj; lia.
  - apply (proj1 (proj2 (proj2 (proj2 (proj2
             (find_next_outcome (document (L "xaxa")) true (3, 4) s)))
             Hne Hok)) eq_refl 1).
    split; [reflexivity|]. split; [cbn; lia|].
    intros j Hocc Hj. destruct (Hnot j Hocc) as [-> | ->]; cbn in Hj; lia.
Defined.

Section ReplaceMessage.
Context `{Locale}.

Lemma StringCchCopyW_fits cch s : length s < cch -> StringCchCopyW cch s = s.
Proof. intros Hlen. unfold StringCchCopyW. apply take_ge. lia. Qed.

Lemma StringCchCopyW_length cch s : 0 < cch -> length (StringCchCopyW cch s) < cch.
Proof. intros Hpos. unfold StringCchCopyW. rewrite length_take. lia. Qed.

(** What a message of the dialogs leaves when it is not a Replace or
    Replace All message that is carried out. *)
Lemma HandleFindReplace_result lpfr sel s w :
  wp (HandleFindReplace lpfr sel s)
    (fun r w' =>
       files w' = files w /\ currentPath w' = currentPath w
       /\ encoding w' = encoding w
       /\ (has_flag (Flags lpfr) FR_DIALOGTERM = true -> r = (s, None) /\ w' = w)
       /\ (has_flag (Flags lpfr) FR_DIALOGTERM = true
           \/ has_flag (Flags lpfr) FR_FINDNEXT = true ->
           same_document w w')
       /\ (has_flag (Flags lpfr) FR_DIALOGTERM = false ->
           fst r
           = mkSearch (Flags lpfr)
               (if negb (null_or_empty (lpstrFindWhat lpfr))
                then StringCchCopyW 128 (deref (lpstrFindWhat lpfr))
                else findText s)
               (match lpstrReplaceWith lpfr with
                | Some replaceWith => StringCchCopyW 128 replaceWith
                | None => replaceText s
                end))) w.
Proof.
  unfold HandleFindReplace.
  wp_steps_using
    ltac:(first
            [ wp_call FindInEdit_result; intros (Hdoc & Hfiles & Htrace)
            | wp_call ReplaceAllOccurrences_result;
              intros (Hfiles & Hpath & Henc & Htrace & Hcase) ]).
  all: fields.
  all: try (destruct Hdoc as (Htext & Hflag & Hpath & Hmod & Henc)).
  all: repeat split; try done; try congruence.
  all: try (by intros [? | ?]).
  all: try (intros [? | ?]; congruence).
  all: match goal with
       | Hor : _ \/ _ |- _ => by destruct Hor
       end.
Qed.

End ReplaceMessage.

(** X22. The messages of the Find and Replace dialogs that edit nothing.  No
    message touches a file, the path or the encoding.  A message with
    FR_FINDNEXT never changes the document, whatever other flags it carries.
    A message with FR_DIALOGTERM is not carried out, whatever it carries
    besides: the flags and the two texts that g_app keeps for the next search
    stay what they were, the document is not changed and no message box is
    shown (the code clears the handles of the two dialogs here, and they are
    no part of the state this development holds).  After a message without
    FR_DIALOGTERM the program remembers the flags of the message and at most
    127 code units of the search text it carries (the search text it had,
    when the message carries none or an empty one). *)
Theorem dialog_messages_that_edit_nothing `{Locale} (w : World)
    (lpfr : FINDREPLACE) (sel : nat * nat) (s : Search) :
  let run := HandleFindReplace lpfr sel s w in
  files (snd run) = files w /\ currentPath (snd run) = currentPath w
  /\ encoding (snd run) = encoding w
  /\ (has_flag (Flags lpfr) FR_DIALOGTERM = true ->
      findFlags (fst (fst run)) = findFlags s
      /\ findText (fst (fst run)) = findText s
      /\ replaceText (fst (fst run)) = replaceText s
      /\ same_document w (snd run)
      /\ trace (snd run) = trace w)
  /\ (has_flag (Flags lpfr) FR_FINDNEXT = true -> same_document w (snd run))
  /\ (has_flag (Flags lpfr) FR_DIALOGTERM = false ->
      findFlags (fst (fst run)) = Flags lpfr
      /\ findText (fst (fst run))
         = match lpstrFindWhat lpfr with
           | Some (c :: text) => take 127 (c :: text)
           | _ => findText s
           end).
Proof.
  intros run. pose proof (HandleFindReplace_result lpfr sel s w) as Hrun.
  unfold wp in Hrun. fold run in Hrun.
  destruct Hrun as (Hfiles & Hpath & Henc & Hterm & Hfind & Hkeep).
  split; [done|]. split; [done|]. split; [done|]. split; [|split].
  - intros Hflag. destruct (Hterm Hflag) as [Hr Hw].
    destruct run as [r w']. cbn [fst snd] in *. subst r w'.
    by repeat split.
  - intros Hflag. apply Hfind. by right.
  - intros Hflag. rewrite (Hkeep Hflag). cbn [findFlags findText].
    split; [done|]. by destruct (lpstrFindWhat lpfr) as [[|c text]|].
Qed.

(** X23. A Replace message (FR_REPLACE without FR_FINDNEXT) replaces one
    occurrence: the one FindInEdit finds from the start of the selection in
    the direction of the message.  The new text is the old one with the
    search text's span at that offset replaced by the replacement, the
    document is marked modified and no message is shown.  When the search
    text occurs nowhere the document is left as it is and
    "Cannot find the text." is shown. *)
Theorem replace_replaces_one_occurrence `{Locale} (w : World)
    (flags : Z) (needle replacement : list wchar) (sel : nat * nat)
    (s : Search) :
  has_flag flags FR_DIALOGTERM = false ->
  has_flag flags FR_FINDNEXT = false ->
  has_flag flags FR_REPLACE = true ->
  needle <> [] -> length needle < 128 -> length replacement < 128 ->
  allocations_succeed w ->
  let matchCase := has_flag flags FR_MATCHCASE in
  let down := has_flag flags FR_DOWN in
  let hay := comparison matchCase (edit_text w) in
  let ndl := comparison matchCase needle in
  let run :=
    HandleFindReplace (mkFINDREPLACE flags (Some needle) (Some replacement))
      sel s w in
  fst (fst run) = mkSearch flags needle replacement
  /\ match fst (FindInEdit (Some needle) matchCase down (fst sel) w) with
     | Some (i, j) =>
       occurs_at hay ndl i /\ j = i + length needle
       /\ edit_text (snd run)
          = take i (edit_text w) ++ replacement ++ drop j (edit_text w)
       /\ modified (snd run) = true
       /\ snd (fst run) = Some (i, j)
       /\ trace (snd run) = trace w
     | None =>
       (forall j, ~ occurs_at hay ndl j)
       /\ same_document w (snd run)
       /\ trace (snd run) = trace w ++ [MessageBoxW "Cannot find the text."]
     end.
Proof.
  intros Hterm Hfind Hreplace Hne Hlen Hlen' Hok matchCase down hay ndl run.
  assert (Hndl : ndl <> []) by by apply comparison_not_empty.
  destruct sel as [start end_]. cbn [fst].
  destruct (found_offset_run w needle matchCase down start Hne Hok)
    as (w' & Hrun & (Htext & Hflag & Hpath & Hmod & Henc) & _ & Htrace & _).
  fold hay ndl in Hrun.
  pose proof (found_offset_complete hay ndl Hndl down start) as Hfound.
  assert (Hdo : run
                = match found_offset hay ndl down start with
                  | Some pos =>
                    ((mkSearch flags needle replacement,
                      Some (pos, pos + length needle)),
                     snd (set_modified true
                            (snd (EM_REPLACESEL (pos, pos + length needle)
                                    replacement w'))))
                  | None =>
                    ((mkSearch flags needle replacement, None),
                     logged (MessageBoxW "Cannot find the text.") w')
                  end).
  { unfold run, HandleFindReplace. cbn [Flags lpstrFindWhat lpstrReplaceWith].
    rewrite Hterm, Hfind, Hreplace.
    destruct needle as [|c text] eqn:Hneedle; [done|].
    cbn [null_or_empty negb deref default from_option id].
    rewrite <- Hneedle in *. rewrite !StringCchCopyW_fits by done.
    fold matchCase. fold down. unfold bind at 1. rewrite Hrun.
    by destruct (found_offset hay ndl down start). }
  rewrite Hdo, Hrun. cbn [fst].
  destruct (found_offset hay ndl down start) as [i|]; cbn [fst snd].
  - split; [done|]. repeat split; try done. cbn. by rewrite Htext.
  - split; [done|]. repeat split; try done. cbn. by rewrite Htrace.
Qed.

Lemma replace_replaces_one_occurrence_witness :
  let flags := Z.lor FR_REPLACE FR_DOWN in
  has_flag flags FR_DIALOGTERM = false /\ has_flag flags FR_FINDNEXT = false
  /\ has_flag flags FR_REPLACE = true
  /\ L "a" <> [] /\ allocations_succeed (document (L "xaxa"))
  /\ edit_text
       (snd (HandleFindReplace
               (mkFINDREPLACE flags (Some (L "a")) (Some (L "bc")))
               (2, 2) (mkSearch 0 [] []) (document (L "xaxa"))))
     = L "xaxbc".
Proof.
  intros flags.
  assert (Hterm : has_flag flags FR_DIALOGTERM = false) by reflexivity.
  assert (Hfind : has_flag flags FR_FINDNEXT = false) by reflexivity.
  assert (Hreplace : has_flag flags FR_REPLACE = true) by reflexivity.
  assert (Hne : L "a" <> []) by discriminate.
  assert (Hlen : length (L "a") < 128) by (vm_compute; lia).
  assert (Hlen' : length (L "bc") < 128) by (vm_compute; lia).
  assert (Hok : allocations_succeed (document (L "xaxa"))) by constructor.
  split; [exact Hterm|]. split; [exact Hfind|]. split; [exact Hreplace|].
  split; [exact Hne|]. split; [exact Hok|].
  exact (proj1 (proj2 (proj2 (proj2
           (replace_replaces_one_occurrence (document (L "xaxa")) flags
              (L "a") (L "bc") (2, 2) (mkSearch 0 [] [])
              Hterm Hfind Hreplace Hne Hlen Hlen' Hok))))).
Defined.

(** ** Go To *)

Section Casts.
Local Open Scope Z_scope.

Lemma to_int_small x : -2147483648 <= x < 2147483648 -> to_int x = x.
Proof. intros Hx. unfold to_int. rewrite Z.mod_small; lia. Qed.

Lemma to_int_large x :
  2147483648 <= x < 4294967296 -> to_int x = x - 4294967296.
Proof.
  intros Hx. unfold to_int.
  replace (x + 2147483648) with (x - 2147483648 + 1 * 4294967296) by lia.
  rewrite Z.mod_add by lia. rewrite Z.mod_small; lia.
Qed.

Lemma to_UINT_small x : 0 <= x < 4294967296 -> to_UINT x = x.
Proof. intros Hx. unfold to_UINT. rewrite Z.mod_small; lia. Qed.

End Casts.

(** X24. Go To, for an edit control of [lineCount] lines whose line [i]
    begins at the offset [lineIndex i] and that answers -1 for a line it
    does not have.  Without a number, or with 0, the dialog warns and stays
    open.  A line of the text puts the caret at its beginning; a number above
    the last line and below 2^31 puts it at the beginning of the last line.
    A number from 2^31 on is read as a negative int, so it is not brought
    down to the last line: the dialog closes, the caret stays where it is
    and nothing is shown. *)
Theorem go_to_outcome (lineCount : Z) (lineIndex : Z -> Z) (w : World) :
  (1 <= lineCount < 2147483648)%Z ->
  (forall i, 0 <= i < lineCount -> 0 <= lineIndex i < 2147483648)%Z ->
  (forall i, lineCount <= i < 4294967295 -> lineIndex i = -1)%Z ->
  (forall input,
     input = None \/ input = Some 0%Z ->
     GoToDlgProc_IDOK lineCount lineIndex input w
     = ((false, None), logged (MessageBoxW "Enter a valid line number.") w))
  /\ (forall line,
        (1 <= line <= lineCount)%Z ->
        GoToDlgProc_IDOK lineCount lineIndex (Some line) w
        = ((true, Some (lineIndex (line - 1)%Z)), w))
  /\ (forall line,
        (lineCount < line < 2147483648)%Z ->
        GoToDlgProc_IDOK lineCount lineIndex (Some line) w
        = ((true, Some (lineIndex (lineCount - 1)%Z)), w))
  /\ (forall line,
        (2147483648 <= line < 4294967296)%Z ->
        GoToDlgProc_IDOK lineCount lineIndex (Some line) w = ((true, None), w)).
Proof.
  intros Hcount Hindex Hbeyond.
  assert (Hmax : to_int lineCount = lineCount) by (apply to_int_small; lia).
  split; [|split; [|split]].
  - by intros input [-> | ->].
  - intros line Hline. unfold GoToDlgProc_IDOK.
    destruct (Z.eqb_spec line 0) as [|_]; [lia|].
    rewrite Hmax, (to_int_small line) by lia.
    destruct (Z.gtb_spec line lineCount) as [|_]; [lia|].
    rewrite to_UINT_small by lia.
    pose proof (Hindex (line - 1)%Z ltac:(lia)) as Hi.
    rewrite to_int_small by lia.
    by destruct (Z.geb_spec (lineIndex (line - 1)%Z) 0) as [_|]; [|lia].
  - intros line Hline. unfold GoToDlgProc_IDOK.
    destruct (Z.eqb_spec line 0) as [|_]; [lia|].
    rewrite Hmax, (to_int_small line) by lia.
    destruct (Z.gtb_spec line lineCount) as [_|]; [|lia].
    rewrite (to_UINT_small lineCount), (to_UINT_small (lineCount - 1)) by lia.
    pose proof (Hindex (lineCount - 1)%Z ltac:(lia)) as Hi.
    rewrite to_int_small by lia.
    by destruct (Z.geb_spec (lineIndex (lineCount - 1)%Z) 0) as [_|]; [|lia].
  - intros line Hline. unfold GoToDlgProc_IDOK.
    destruct (Z.eqb_spec line 0) as [|_]; [lia|].
    rewrite Hmax, (to_int_large line) by lia.
    destruct (Z.gtb_spec (line - 4294967296) lineCount) as [|_]; [lia|].
    rewrite to_UINT_small by lia.
    rewrite (Hbeyond (line - 1)%Z) by lia.
    reflexivity.
Qed.

Lemma go_to_outcome_witness :
  let lineIndex := fun i => (if i <? 3 then 10 * i else -1)%Z in
  GoToDlgProc_IDOK 3 lineIndex (Some 2000000000%Z) (document [])
  = ((true, Some 20%Z), document [])
  /\ GoToDlgProc_IDOK 3 lineIndex (Some 3000000000%Z) (document [])
     = ((true, None), document []).
Proof.
  intros lineIndex.
  assert (Hcount : (1 <= 3 < 2147483648)%Z) by lia.
  assert (Hindex : (forall i, 0 <= i < 3 -> 0 <= lineIndex i < 2147483648)%Z).
  { intros i Hi. unfold lineIndex. destruct (Z.ltb_spec i 3); lia. }
  assert (Hbeyond : (forall i, 3 <= i < 4294967295 -> lineIndex i = -1)%Z).
  { intros i Hi. unfold lineIndex. destruct (Z.ltb_spec i 3); lia. }
  pose proof (go_to_outcome 3 lineIndex (document []) Hcount Hindex Hbeyond)
    as (_ & _ & Hlast & Hlarge).
  split.
  - apply (Hlast 2000000000%Z). lia.
  - apply (Hlarge 3000000000%Z). lia.
Defined.

(** ** The title of the window *)

Lemma behind_last_none c name :
  ~ In c (String.list_ascii_of_string name) -> behind_last c name = None.
Proof.
  induction name as [|a name IH];
    cbn [behind_last String.list_ascii_of_string In]; [done|].
  intros Hin. rewrite IH by tauto.
  destruct (Ascii.eqb_spec a c) as [Heq|]; [|done]. destruct Hin. by left.
Qed.

Lemma behind_last_some c dir name :
  ~ In c (String.list_ascii_of_string name) ->
  behind_last c (String.append dir (String c name)) = Some name.
Proof.
  intros Hin. induction dir as [|a dir IH]; simpl.
  - rewrite (behind_last_none c name Hin). by rewrite Ascii.eqb_refl.
  - by rewrite IH.
Qed.

(** X25. The title of the window names the file, not its path: for a path
    that ends in a backslash and a name without backslash the title is the
    name followed by " - retropad", with a star in front when the document
    is modified.  A path without backslash is shown whole, and a document
    without path is "Untitled". *)
Theorem title_names_the_file (dir name : string) (changed : bool) :
  ~ In backslash (String.list_ascii_of_string name) ->
  let star := if changed then "*" else "" in
  UpdateTitle_text (String.append dir (String backslash name)) changed
  = String.append star (String.append name " - retropad")
  /\ (name <> "" ->
      UpdateTitle_text name changed
      = String.append star (String.append name " - retropad"))
  /\ UpdateTitle_text "" changed = String.append star "Untitled - retropad".
Proof.
  intros Hin star. unfold UpdateTitle_text. split; [|split].
  - rewrite bool_decide_eq_false_2 by (by destruct dir).
    by rewrite behind_last_some.
  - intros Hname. rewrite bool_decide_eq_false_2 by done.
    by rewrite behind_last_none.
  - reflexivity.
Qed.

Lemma title_names_the_file_witness :
  ~ In backslash (String.list_ascii_of_string "notes.txt")
  /\ UpdateTitle_text
       (String.append "C:" (String backslash
          (String.append "docs" (String backslash "notes.txt")))) true
     = "*notes.txt - retropad".
Proof.
  assert (Hin : ~ In backslash (String.list_ascii_of_string "notes.txt")).
  { cbn. intros Hin. repeat destruct Hin as [Hin | Hin]; try discriminate Hin.
    exact Hin. }
  split; [exact Hin|].
  exact (proj1 (title_names_the_file
                  (String.append "C:" (String backslash "docs"))
                  "notes.txt" true Hin)).
Defined.

(** ** The two modified flags *)

Section Flags.
Context `{Locale}.

Lemma PromptSaveChanges_flags answer w :
  modified w = edit_modify w ->
  wp (PromptSaveChanges answer)
    (fun _ w' => modified w' = edit_modify w') w.
Proof.
  intros Hflags. wp_call PromptSaveChanges_result.
  intros (_ & _ & _ & _ & _ & Hcase). destruct a.
  - destruct Hcase as [[_ ->] | [(_ & _ & Hdoc & _) | (_ & _ & -> & -> & _)]];
      [done | | done].
    destruct Hdoc as (_ & -> & _ & -> & _). done.
  - destruct Hcase as (Hmod & -> & _ & ->). congruence.
Qed.

Lemma LoadDocumentFromPath_flags path w :
  modified w = edit_modify w ->
  wp (LoadDocumentFromPath path)
    (fun _ w' => modified w' = edit_modify w') w.
Proof.
  intros Hflags. wp_call LoadDocumentFromPath_result.
  intros (_ & _ & Hcase). destruct a.
  - by destruct Hcase as (_ & -> & -> & _).
  - by destruct Hcase as (_ & -> & _ & -> & _).
Qed.

Lemma HandleFindReplace_flags lpfr sel s w :
  modified w = edit_modify w ->
  wp (HandleFindReplace lpfr sel s)
    (fun _ w' => modified w' = edit_modify w') w.
Proof.
  intros Hflags. unfold HandleFindReplace.
  wp_steps_using
    ltac:(first
            [ wp_call FindInEdit_result; intros (Hdoc & _ & _)
            | wp_call ReplaceAllOccurrences_result;
              intros (_ & _ & _ & _ & Hcase) ]).
  all: fields; try done.
  all: try (by destruct Hdoc as (_ & -> & _ & -> & _)).
  destruct (a =? 0).
  - by destruct Hcase as (_ & -> & _ & -> & _).
  - by destruct Hcase as [-> ->].
Qed.

End Flags.

(** X26. The two modified flags stay in step.  When g_app.modified is the
    modification flag of the edit control, it is so again behind every
    command of the program that touches either: the notification EN_CHANGE,
    save, open, new, the drop of a file, the question whether to save,
    Replace All, and any message of the Find and Replace dialogs. *)
Theorem modified_flags_in_step `{Locale} (w : World) :
  modified w = edit_modify w ->
  in_step EN_CHANGE w
  /\ (forall saveAs, in_step (DoFileSave saveAs) w)
  /\ (forall path, in_step (LoadDocumentFromPath path) w)
  /\ (forall answer, in_step (PromptSaveChanges answer) w)
  /\ (forall answer, in_step (DoFileNew answer) w)
  /\ (forall answer chosen, in_step (DoFileOpen answer chosen) w)
  /\ (forall answer dropped, in_step (WM_DROPFILES answer dropped) w)
  /\ (forall needle replacement matchCase,
        in_step (ReplaceAllOccurrences needle replacement matchCase) w)
  /\ (forall lpfr sel s, in_step (HandleFindReplace lpfr sel s) w).
Proof.
  intros Hflags. unfold in_step. split; [reflexivity|].
  split; [|split; [|split; [|split; [|split; [|split; [|split]]]]]].
  - intros saveAs. pose proof (DoFileSave_result saveAs w) as Hsave.
    unfold wp in Hsave.
    destruct Hsave as (_ & _ & _ & _ & _ & _ & Hcase).
    destruct (fst (DoFileSave saveAs w)).
    + by destruct Hcase as (-> & -> & _).
    + by destruct Hcase as [-> ->].
  - intros path. by apply LoadDocumentFromPath_flags.
  - intros answer. by apply PromptSaveChanges_flags.
  - intros answer.
    change (wp (DoFileNew answer)
              (fun _ w' => modified w' = edit_modify w') w).
    unfold DoFileNew.
    by wp_steps_using ltac:(wp_call PromptSaveChanges_flags; [done|intros ?]).
  - intros answer chosen.
    change (wp (DoFileOpen answer chosen)
              (fun _ w' => modified w' = edit_modify w') w).
    unfold DoFileOpen.
    by wp_steps_using
         ltac:(first [ wp_call PromptSaveChanges_flags; [done|intros ?]
                     | wp_call LoadDocumentFromPath_flags; [done|intros ?] ]).
  - intros answer dropped.
    change (wp (WM_DROPFILES answer dropped)
              (fun _ w' => modified w' = edit_modify w') w).
    unfold WM_DROPFILES.
    by wp_steps_using
         ltac:(first [ wp_call PromptSaveChanges_flags; [done|intros ?]
                     | wp_call LoadDocumentFromPath_flags; [done|intros ?] ]).
  - intros needle replacement matchCase.
    pose proof (ReplaceAllOccurrences_result needle replacement matchCase w)
      as Hrun.
    unfold wp in Hrun. destruct Hrun as (_ & _ & _ & _ & Hcase).
    destruct (_ =? 0).
    + by destruct Hcase as (_ & -> & _ & -> & _).
    + by destruct Hcase as [-> ->].
  - intros lpfr sel s. by apply HandleFindReplace_flags.
Qed.

Lemma modified_flags_in_step_witness :
  let w := mkWorld (L "text") true "a.txt" true ENC_UTF8 empty [] []
             None [] in
  modified w = edit_modify w
  /\ in_step (DoFileNew IDYES) w
  /\ in_step (HandleFindReplace
                (mkFINDREPLACE FR_REPLACEALL (Some (L "t")) (Some (L "T")))
                (0, 0) (mkSearch 0 [] [])) w.
Proof.
  intros w.
  assert (Hflags : modified w = edit_modify w) by reflexivity.
  pose proof (modified_flags_in_step w Hflags)
    as (_ & _ & _ & _ & Hnew & _ & _ & _ & Hmessage).
  split; [exact Hflags|]. split; [apply Hnew | apply Hmessage].
Defined.

(** X27. Opening a UTF-16LE file that holds a NUL code unit shows the text
    before the first NUL and nothing of what follows it: LoadTextFile hands
    over the whole text with its length, and LoadDocumentFromPath gives it to
    the edit control as a NUL-terminated string. *)
Theorem open_stops_at_nul `{Locale} (w : World) (path : string)
    (before rest : list wchar) :
  quiet w ->
  files w !! path = Some (saved_as ENC_UTF16LE (before ++ 0%Z :: rest)) ->
  (Z.of_nat (length (saved_as ENC_UTF16LE (before ++ 0%Z :: rest)))
   <= INT_MAX)%Z ->
  Forall is_wchar (before ++ 0%Z :: rest) ->
  Forall (fun u => u <> 0%Z) before ->
  fst (LoadTextFile path w)
  = (true,
     mkLoaded (Some (before ++ 0%Z :: rest)) (length (before ++ 0%Z :: rest))
       ENC_UTF16LE)
  /\ fst (LoadDocumentFromPath path w) = true
  /\ edit_text (snd (LoadDocumentFromPath path w)) = before.
Proof.
  intros Hq Hfile Hsize Hunits Hnul.
  assert (Hfits : (Z.of_nat (length (saved_as ENC_UTF16LE
                                        (before ++ 0%Z :: rest)))
                   <= UINT_MAX)%Z)
    by (unfold INT_MAX, UINT_MAX in *; lia).
  pose proof (LoadTextFile_saved w path ENC_UTF16LE _ Hq Hfile Hfits Hunits I)
    as Hload.
  split; [done|].
  change (wp (LoadDocumentFromPath path)
            (fun ok w' => ok = true /\ edit_text w' = before) w).
  unfold LoadDocumentFromPath. apply wp_bind. unfold wp at 1.
  destruct (LoadTextFile path w) as [loaded w2].
  cbn [fst snd] in Hload |- *. subst loaded. wp_steps. fields.
  cbn [textOut deref default from_option id]. split; [done|].
  by apply c_str_stops.
Qed.

Lemma open_stops_at_nul_witness :
  let content := [0xFF; 0xFE; 0x41; 0x00; 0x00; 0x00; 0x42; 0x00]%Z in
  let w := opened "a.txt" ENC_UTF8 [] content in
  quiet w /\ files w !! "a.txt" = Some content
  /\ edit_text (snd (LoadDocumentFromPath "a.txt" w)) = [0x41%Z].
Proof.
  intros content w.
  assert (Hq : quiet w) by (split; constructor).
  assert (Hfile : files w !! "a.txt"
                  = Some (saved_as ENC_UTF16LE ([0x41] ++ 0 :: [0x42])%Z))
    by apply lookup_singleton_eq.
  split; [exact Hq|]. split; [exact Hfile|].
  refine (proj2 (proj2 (open_stops_at_nul w "a.txt" [0x41%Z] [0x42%Z]
                          Hq Hfile _ _ _))).
  - vm_compute. congruence.
  - repeat constructor; vm_compute; congruence.
  - repeat constructor. discriminate.
Defined.
